(** * HealthNexus backend: appointment lifecycle, cache layer, index maintenance

    A shallow embedding of
    - [backend/src/models/Appointment.js] (status machine, eligibility
      predicates, cost computation, pre-save hook),
    - [backend/src/utils/cache.js] (the [CacheService] wrapper around Redis),
    - the cache middleware module (read-through cache, invalidation, rate
      limiting), and
    - [backend/src/utils/dbOptimization.js] (idempotent index creation).

    Conventions.  A JavaScript method that mutates [this] becomes a function
    returning its completion together with the object afterwards.  Dates are
    their [getTime()] value, an integer number of milliseconds.  Numbers are
    whole numbers, added and subtracted exactly, which is the arithmetic of
    JavaScript as long as operands and results are safe integers (at most
    2^53 - 1 either way); fractional amounts and the rounding of binary
    floating point are outside the model, and the theorems on sums state the
    range they hold in.  Divisions of the source are carried out in [Q]. *)

From Stdlib Require Import ZArith QArith Qround String Ascii List Bool Lia.
From Stdlib Require Import DecimalString DecimalZ DecimalN DecimalFacts DecimalPos.
From stdpp Require Import gmap strings list.
Import ListNotations.

Local Open Scope string_scope.
Local Open Scope Z_scope.
Local Set Warnings "-register-all".

(** ** JavaScript primitives shared by the modules *)

Module Js.

(** An exception value: [name] is the constructor ([Error], [TypeError],
    [MongoServerError], ...); [code] and [codeName] are set by the MongoDB
    driver only. *)
Record JsError := mkError {
  err_name : string;
  err_code : option Z;
  err_codeName : option string;
  err_message : string
}.

Definition Error (msg : string) : JsError := mkError "Error" None None msg.
Definition TypeError (msg : string) : JsError := mkError "TypeError" None None msg.

(** How a call ends: with a value, or by throwing (for an [async] function:
    the promise resolves, or rejects). *)
Inductive Completion (A : Type) : Type :=
| Normal (a : A)
| Throw (e : JsError).
Arguments Normal {A} a.
Arguments Throw {A} e.

(** An effectful call: it runs on a state, ends in a completion and leaves
    a state.  An [await] is a bind: the modelled calls run one after the
    other. *)
Definition M (S A : Type) : Type := S -> Completion A * S.

Definition ret {S A : Type} (a : A) : M S A := fun s => (Normal a, s).

Definition throw {S A : Type} (e : JsError) : M S A := fun s => (Throw e, s).

Definition bind {S A B : Type} (m : M S A) (k : A -> M S B) : M S B :=
  fun s =>
    match m s with
    | (Normal a, s') => k a s'
    | (Throw e, s') => (Throw e, s')
    end.

(** [try { body } catch (error) { handler(error) }] *)
Definition try_catch {S A : Type} (body : M S A) (handler : JsError -> M S A) : M S A :=
  fun s =>
    match body s with
    | (Normal a, s') => (Normal a, s')
    | (Throw e, s') => handler e s'
    end.

(** A pure call that may throw. *)
Definition lift {S A : Type} (c : Completion A) : M S A := fun s => (c, s).

(** [for (const x of l) { await f(x) }] *)
Fixpoint for_each {S A : Type} (l : list A) (f : A -> M S unit) : M S unit :=
  match l with
  | [] => ret tt
  | x :: rest => bind (f x) (fun _ => for_each rest f)
  end.

(** A Number: a whole number, or [NaN]. *)
Inductive Num : Type :=
| Fin (z : Z)
| NaN.

(** [Number.isSafeInteger], on a whole number: at most 2^53 - 1 either way. *)
Definition isSafeInteger (z : Z) : bool :=
  (- 9007199254740991 <=? z) && (z <=? 9007199254740991).

(** [a + b] and [a - b], exact: the sum and the difference of JavaScript
    when the operands and the result are safe integers. *)
Definition num_add (a b : Num) : Num :=
  match a, b with
  | Fin x, Fin y => Fin (x + y)
  | _, _ => NaN
  end.

Definition num_sub (a b : Num) : Num :=
  match a, b with
  | Fin x, Fin y => Fin (x - y)
  | _, _ => NaN
  end.

(** [ToNumber] of a property that may be [undefined]: [undefined] gives [NaN]. *)
Definition toNumber (o : option Z) : Num :=
  match o with
  | Some z => Fin z
  | None => NaN
  end.

(** [Math.round]: the nearest integer, a tie going up. *)
Definition Math_round (q : Q) : Z := Qfloor (q + (1 # 2)).

(** [array.includes(x)] on an array of strings. *)
Definition includes (l : list string) (x : string) : bool :=
  existsb (String.eqb x) l.

(** [object[key]] on an object literal given as its entries; [None] is
    [undefined]. *)
Fixpoint prop_get {A : Type} (entries : list (string * A)) (key : string) : option A :=
  match entries with
  | [] => None
  | (k, v) :: rest => if String.eqb k key then Some v else prop_get rest key
  end.

End Js.

Declare Scope js_scope.
Delimit Scope js_scope with js.
Notation "'await' x <- m ;; k" := (Js.bind m (fun x => k))
  (at level 10, x name, m at level 99, k at level 200) : js_scope.
Notation "'exec' m ;; k" := (Js.bind m (fun _ => k))
  (at level 10, m at level 99, k at level 200) : js_scope.

(** ** The appointment document ([models/Appointment.js]) *)

Module Appointment.
Import Js.

(** An entry of [cost.additionalCharges]; the schema gives [amount] no
    default, so it may be missing. *)
Record Charge := mkCharge {
  description : string;
  amount : option Z
}.

Record Cost := mkCost {
  basePrice : Z;
  additionalCharges : list Charge;
  totalAmount : Num;
  insuranceCovered : Z;
  patientPayment : Num
}.

Record Consultation := mkConsultation {
  startTime : option Z;
  endTime : option Z;
  actualDuration : option Z
}.

(** The fields of the document that the modelled methods read or write,
    with the paths set since the last write, which Mongoose tracks as
    modified. *)
Record Appointment := mkAppointment {
  appointmentDateTime : Z;
  status : string;
  cost : Cost;
  consultation : Consultation;
  modifiedPaths : list string
}.

(** The [enum] of the [status] path. *)
Definition status_enum : list string :=
  ["scheduled"; "confirmed"; "in-progress"; "completed"; "canceled"; "no-show"; "rescheduled"].

(** Assignments to a path: the value is stored and the path marked. *)
Definition markModified (path : string) (this : Appointment) : Appointment :=
  mkAppointment (appointmentDateTime this) (status this) (cost this)
                (consultation this) (path :: modifiedPaths this).

Definition set_status (s : string) (this : Appointment) : Appointment :=
  markModified "status"
    (mkAppointment (appointmentDateTime this) s (cost this)
                   (consultation this) (modifiedPaths this)).

(** Assignments to a path of type [Number] go through Mongoose's cast.
    [NaN] does not cast: the assignment is refused, the path keeps the value
    it had and is not marked (Mongoose records a cast error on the document,
    which the record does not carry). *)
Definition set_totalAmount (n : Num) (this : Appointment) : Appointment :=
  match n with
  | Fin _ =>
      let c := cost this in
      markModified "cost.totalAmount"
        (mkAppointment (appointmentDateTime this) (status this)
           (mkCost (basePrice c) (additionalCharges c) n (insuranceCovered c)
                   (patientPayment c))
           (consultation this) (modifiedPaths this))
  | NaN => this
  end.

Definition set_patientPayment (n : Num) (this : Appointment) : Appointment :=
  match n with
  | Fin _ =>
      let c := cost this in
      markModified "cost.patientPayment"
        (mkAppointment (appointmentDateTime this) (status this)
           (mkCost (basePrice c) (additionalCharges c) (totalAmount c)
                   (insuranceCovered c) n)
           (consultation this) (modifiedPaths this))
  | NaN => this
  end.

Definition set_startTime (t : Z) (this : Appointment) : Appointment :=
  let k := consultation this in
  markModified "consultation.startTime"
    (mkAppointment (appointmentDateTime this) (status this) (cost this)
       (mkConsultation (Some t) (endTime k) (actualDuration k))
       (modifiedPaths this)).

Definition set_endTime (t : Z) (this : Appointment) : Appointment :=
  let k := consultation this in
  markModified "consultation.endTime"
    (mkAppointment (appointmentDateTime this) (status this) (cost this)
       (mkConsultation (startTime k) (Some t) (actualDuration k))
       (modifiedPaths this)).

Definition set_actualDuration (d : Z) (this : Appointment) : Appointment :=
  let k := consultation this in
  markModified "consultation.actualDuration"
    (mkAppointment (appointmentDateTime this) (status this) (cost this)
       (mkConsultation (startTime k) (endTime k) (Some d))
       (modifiedPaths this)).

(** [path] is [above] or a path under it. *)
Definition under (above path : string) : bool :=
  String.eqb path above || String.prefix (above ++ ".") path.

(** [this.isModified(path)]: the path was set, or one above it, or one
    under it. *)
Definition isModified (this : Appointment) (path : string) : bool :=
  existsb (fun direct => under direct path || under path direct) (modifiedPaths this).

(** [canBeCanceled]; [now] is the value of [new Date()]. *)
Definition canBeCanceled (now : Z) (this : Appointment) : bool :=
  let appointmentTime := appointmentDateTime this in
  let timeDifference := appointmentTime - now in
  let hoursUntilAppointment := ((timeDifference # 1) / ((1000 * 3600) # 1))%Q in
  Qle_bool (24 # 1) hoursUntilAppointment
  && includes ["scheduled"; "confirmed"] (status this).

(** [canBeRescheduled] *)
Definition canBeRescheduled (now : Z) (this : Appointment) : bool :=
  let appointmentTime := appointmentDateTime this in
  let timeDifference := appointmentTime - now in
  let hoursUntilAppointment := ((timeDifference # 1) / ((1000 * 3600) # 1))%Q in
  Qle_bool (2 # 1) hoursUntilAppointment
  && includes ["scheduled"; "confirmed"] (status this).

(** [calculateTotalCost]: the returned total and the document afterwards. *)
Definition calculateTotalCost (this : Appointment) : Num * Appointment :=
  let total :=
    fold_left (fun total charge => num_add total (toNumber (amount charge)))
              (additionalCharges (cost this))
              (Fin (basePrice (cost this))) in
  let this1 := set_totalAmount total this in
  let this2 :=
    set_patientPayment (num_sub total (Fin (insuranceCovered (cost this1)))) this1 in
  (total, this2).

(** The [pre('save')] hook. *)
Definition pre_save (this : Appointment) : Appointment :=
  if isModified this "cost.basePrice"
     || isModified this "cost.additionalCharges"
     || isModified this "cost.insuranceCovered"
  then snd (calculateTotalCost this)
  else this.

(** The validator [min: [0, message]] of a [Number] path, on the value the
    path holds. *)
Definition min_zero (n : Num) : bool :=
  match n with
  | Fin z => 0 <=? z
  | NaN => false
  end.

(** The validators that the schema declares on the paths of the record: the
    [enum] of [status] and the [min] of the four amounts of [cost], with the
    messages of the schema.  Mongoose validates the paths that were read
    from the database, set since, or filled by a default: the list is that
    of a document that is new or was read from the database, with no cast
    error pending.  The other paths of the schema are not part of the record
    and are taken to pass. *)
Definition failures (this : Appointment) : list string :=
  (if includes status_enum (status this) then []
   else ["status: `" ++ status this ++ "` is not a valid enum value for path `status`."])
  ++ (if 0 <=? basePrice (cost this) then []
      else ["cost.basePrice: Base price cannot be negative"])
  ++ (if min_zero (totalAmount (cost this)) then []
      else ["cost.totalAmount: Total amount cannot be negative"])
  ++ (if 0 <=? insuranceCovered (cost this) then []
      else ["cost.insuranceCovered: Insurance covered amount cannot be negative"])
  ++ (if min_zero (patientPayment (cost this)) then []
      else ["cost.patientPayment: Patient payment cannot be negative"]).

Definition ValidationError (messages : list string) : JsError :=
  mkError "ValidationError" None None
          ("Appointment validation failed: " ++ String.concat ", " messages).

(** The validation that [save] runs before the [pre('save')] hooks of the
    schema. *)
Definition validate (this : Appointment) : Completion unit :=
  match failures this with
  | [] => Normal tt
  | messages => Throw (ValidationError messages)
  end.

(** [this.save()] as a call: it does not throw, it returns a promise.  The
    second component is the document in memory when validation and the hook
    have run: validation comes first, and on a document that fails it the
    hook does not run. *)
Definition save (this : Appointment) : Completion unit * Appointment :=
  (Normal tt,
   match validate this with
   | Normal _ => pre_save this
   | Throw _ => this
   end).

(** How the promise of [this.save()] settles: rejected with the validation
    error, or as [write], the rest of the save (the write to the database)
    on the document that the hook leaves. *)
Definition save_promise (write : Appointment -> Completion unit) (this : Appointment)
  : Completion unit :=
  match validate this with
  | Normal _ => write (pre_save this)
  | Throw e => Throw e
  end.

Definition validTransitions : list (string * list string) :=
  [ ("scheduled", ["confirmed"; "canceled"; "rescheduled"]);
    ("confirmed", ["in-progress"; "canceled"; "no-show"; "rescheduled"]);
    ("in-progress", ["completed"; "canceled"]);
    ("completed", []);
    ("canceled", []);
    ("no-show", []);
    ("rescheduled", ["scheduled"]) ].

Definition illegal_transition (from to : string) : JsError :=
  Error ("Cannot transition from " ++ from ++ " to " ++ to).

(** [updateStatus(newStatus)]; [now] is the value of [new Date()] at the
    call.  The completion is that of the call itself: it throws, or returns
    the promise of [save].  The second component is the document in memory
    afterwards. *)
Definition updateStatus (now : Z) (newStatus : string) (this : Appointment)
  : Completion unit * Appointment :=
  match prop_get validTransitions (status this) with
  | None =>
      (Throw (TypeError "Cannot read properties of undefined (reading 'includes')"), this)
  | Some allowed =>
      if negb (includes allowed newStatus) then
        (Throw (illegal_transition (status this) newStatus), this)
      else
        let this1 := set_status newStatus this in
        let this2 :=
          if String.eqb newStatus "in-progress" then
            set_startTime now this1
          else if String.eqb newStatus "completed" then
            let this' := set_endTime now this1 in
            match startTime (consultation this') with
            | Some start =>
                set_actualDuration
                  (Math_round (((now - start) # 1) / ((1000 * 60) # 1))%Q) this'
            | None => this'
            end
          else this1 in
        save this2
  end.

(** The document that [updateStatus] calls [save] on, once the transition is
    allowed. *)
Definition stamp (now : Z) (newStatus : string) (this : Appointment) : Appointment :=
  let this1 := set_status newStatus this in
  if String.eqb newStatus "in-progress" then
    set_startTime now this1
  else if String.eqb newStatus "completed" then
    let this' := set_endTime now this1 in
    match startTime (consultation this') with
    | Some start =>
        set_actualDuration
          (Math_round (((now - start) # 1) / ((1000 * 60) # 1))%Q) this'
    | None => this'
    end
  else this1.

(** How the promise that [updateStatus] returns settles. *)
Definition updateStatus_promise (write : Appointment -> Completion unit)
           (now : Z) (newStatus : string) (this : Appointment) : Completion unit :=
  save_promise write (stamp now newStatus this).

(** The validator [min: [0, 'Patient payment cannot be negative']] that the
    schema declares on [cost.patientPayment]. *)
Definition patientPayment_min_ok (this : Appointment) : bool :=
  match patientPayment (cost this) with
  | Fin z => 0 <=? z
  | NaN => false
  end.

End Appointment.

(** ** JSON values, [JSON.stringify] and [JSON.parse]

    A value that [res.json] sends and the cache stores.  An object is its
    list of properties in enumeration order.  Numbers are integers. *)

Module JSON.
Import Js.

(** A JSON value.  A number is a whole number, a string is the sequence of
    the bytes of its UTF-8 encoding, an object is the list of its properties
    in the order JavaScript enumerates them. *)
Inductive Json : Type :=
| JNull
| JBool (b : bool)
| JNum (z : Z)
| JStr (s : string)
| JArr (items : list Json)
| JObj (entries : list (string * Json)).

(** Decimal numerals. *)
Definition string_of_Z (z : Z) : string := NilZero.string_of_int (Z.to_int z).
Definition string_of_N (n : N) : string := NilZero.string_of_uint (N.to_uint n).

(** The numeral of a canonical array index: decimal digits without a
    leading zero, below [2^32 - 1]. *)
Definition array_index (k : string) : option N :=
  match NilZero.uint_of_string k with
  | Some d =>
      let n := N.of_uint d in
      if String.eqb (string_of_N n) k && (n <? 4294967295)%N then Some n else None
  | None => None
  end.

Definition has_key (k : string) (entries : list (string * Json)) : bool :=
  existsb (fun kv => String.eqb (fst kv) k) entries.

Fixpoint obj_replace (k : string) (v : Json) (entries : list (string * Json))
  : list (string * Json) :=
  match entries with
  | [] => []
  | (k', v') :: rest =>
      if String.eqb k' k then (k, v) :: rest else (k', v') :: obj_replace k v rest
  end.

Fixpoint obj_insert_index (i : N) (k : string) (v : Json) (entries : list (string * Json))
  : list (string * Json) :=
  match entries with
  | [] => [(k, v)]
  | (k', v') :: rest =>
      match array_index k' with
      | Some j =>
          if (j <? i)%N then (k', v') :: obj_insert_index i k v rest
          else (k, v) :: entries
      | None => (k, v) :: entries
      end
  end.

(** [object[k] = v]: an existing property keeps its place; a new one goes
    after the others, array indices first in ascending order. *)
Definition obj_set (k : string) (v : Json) (entries : list (string * Json))
  : list (string * Json) :=
  if has_key k entries then obj_replace k v entries
  else match array_index k with
       | Some i => obj_insert_index i k v entries
       | None => (entries ++ [(k, v)])%list
       end.

Fixpoint index_entries (i : N) (items : list Json) : list (string * Json) :=
  match items with
  | [] => []
  | x :: rest => (string_of_N i, x) :: index_entries (N.succ i) rest
  end.

(** The properties of a string, one per character: those of JavaScript for
    a string of ASCII characters, which takes one byte each. *)
Fixpoint char_entries (i : N) (s : string) : list (string * Json) :=
  match s with
  | EmptyString => []
  | String c rest => (string_of_N i, JStr (String c EmptyString)) :: char_entries (N.succ i) rest
  end.

(** The own enumerable properties of a value, as object spread reads them. *)
Definition own_entries (v : Json) : list (string * Json) :=
  match v with
  | JObj entries => entries
  | JArr items => index_entries 0 items
  | JStr s => char_entries 0 s
  | _ => []
  end.

(** [{ ...target, ...source }] *)
Definition spread (target : list (string * Json)) (source : Json) : list (string * Json) :=
  fold_left (fun acc kv => obj_set (fst kv) (snd kv) acc) (own_entries source) target.

(** [value.key]; [None] is [undefined]. *)
Definition get_prop (v : Json) (key : string) : option Json :=
  match v with
  | JObj entries => prop_get entries key
  | _ => None
  end.

(** Truthiness: [null], [false], [0] and the empty string are falsy. *)
Definition truthy (v : Json) : bool :=
  match v with
  | JNull => false
  | JBool b => b
  | JNum z => negb (z =? 0)
  | JStr s => negb (String.eqb s "")
  | JArr _ | JObj _ => true
  end.


(** [String(v)], as a template literal converts a value: an array joins
    its elements with commas, [null] inside it giving the empty string. *)
Fixpoint to_string (v : Json) : string :=
  match v with
  | JNull => "null"
  | JBool true => "true"
  | JBool false => "false"
  | JNum z => string_of_Z z
  | JStr s => s
  | JArr items =>
      (fix join (l : list Json) : string :=
         match l with
         | [] => ""
         | x :: rest =>
             match x with JNull => "" | _ => to_string x end
             ++ match rest with [] => "" | _ :: _ => "," ++ join rest end
         end) items
  | JObj _ => "[object Object]"
  end.

(** *** [JSON.stringify] *)

Definition dquote : ascii := "034"%char.
Definition backslash : ascii := "092"%char.

Definition hex_digit (n : N) : ascii :=
  ascii_of_N (if (n <? 10)%N then 48 + n else 87 + n)%N.

(** The escape of one character inside a string literal. *)
Definition escape_char (c : ascii) : string :=
  if Ascii.eqb c dquote then String backslash (String dquote "")
  else if Ascii.eqb c backslash then String backslash (String backslash "")
  else if Ascii.eqb c "008" then String backslash "b"
  else if Ascii.eqb c "009" then String backslash "t"
  else if Ascii.eqb c "010" then String backslash "n"
  else if Ascii.eqb c "012" then String backslash "f"
  else if Ascii.eqb c "013" then String backslash "r"
  else if (N_of_ascii c <? 32)%N then
    String backslash
      ("u00" ++ String (hex_digit (N_of_ascii c / 16)) (String (hex_digit (N_of_ascii c mod 16)) ""))
  else String c "".

Fixpoint escape (s : string) : string :=
  match s with
  | EmptyString => ""
  | String c rest => escape_char c ++ escape rest
  end.

Definition quote (s : string) : string :=
  String dquote (escape s ++ String dquote "").

(** [JSON.stringify]; the numeral of a number is that of JavaScript for a
    safe integer. *)
Fixpoint stringify (v : Json) : string :=
  match v with
  | JNull => "null"
  | JBool true => "true"
  | JBool false => "false"
  | JNum z => string_of_Z z
  | JStr s => quote s
  | JArr items =>
      "[" ++ (fix elements (l : list Json) : string :=
                match l with
                | [] => ""
                | x :: rest =>
                    stringify x
                    ++ match rest with [] => "" | _ :: _ => "," ++ elements rest end
                end) items ++ "]"
  | JObj entries =>
      "{" ++ (fix members (l : list (string * Json)) : string :=
                match l with
                | [] => ""
                | (k, x) :: rest =>
                    quote k ++ ":" ++ stringify x
                    ++ match rest with [] => "" | _ :: _ => "," ++ members rest end
                end) entries ++ "}"
  end.

(** *** [JSON.parse] *)

Definition is_ws (c : ascii) : bool :=
  Ascii.eqb c " " || Ascii.eqb c "009" || Ascii.eqb c "010" || Ascii.eqb c "013".

Fixpoint skip_ws (s : string) : string :=
  match s with
  | String c rest => if is_ws c then skip_ws rest else s
  | EmptyString => s
  end.

Definition is_digit (c : ascii) : bool :=
  (48 <=? N_of_ascii c)%N && (N_of_ascii c <=? 57)%N.

Definition hex_value (c : ascii) : option N :=
  let n := N_of_ascii c in
  if (48 <=? n)%N && (n <=? 57)%N then Some (n - 48)%N
  else if (97 <=? n)%N && (n <=? 102)%N then Some (n - 87)%N
  else if (65 <=? n)%N && (n <=? 70)%N then Some (n - 55)%N
  else None.

(** The character a one-letter escape stands for. *)
Definition unescape (e : ascii) : option ascii :=
  if Ascii.eqb e dquote then Some dquote
  else if Ascii.eqb e backslash then Some backslash
  else if Ascii.eqb e "/" then Some "/"%char
  else if Ascii.eqb e "b" then Some "008"%char
  else if Ascii.eqb e "t" then Some "009"%char
  else if Ascii.eqb e "n" then Some "010"%char
  else if Ascii.eqb e "f" then Some "012"%char
  else if Ascii.eqb e "r" then Some "013"%char
  else None.

(** The characters of a string literal after its opening quote, and the
    text after its closing quote.  Of the [\uXXXX] escapes, those of the
    ASCII range are read; one beyond [\u007f], which [JSON.parse] reads,
    is refused here. *)
Fixpoint parse_string_body (s : string) : option (string * string) :=
  match s with
  | EmptyString => None
  | String c rest =>
      if Ascii.eqb c dquote then Some ("", rest)
      else if Ascii.eqb c backslash then
        match rest with
        | String "u"%char (String h1 (String h2 (String h3 (String h4 rest')))) =>
            match hex_value h1, hex_value h2, hex_value h3, hex_value h4 with
            | Some 0%N, Some 0%N, Some a, Some b =>
                if (a <? 8)%N then
                  match parse_string_body rest' with
                  | Some (str, out) => Some (String (ascii_of_N (16 * a + b)) str, out)
                  | None => None
                  end
                else None
            | _, _, _, _ => None
            end
        | String e rest' =>
            match unescape e, parse_string_body rest' with
            | Some ch, Some (str, out) => Some (String ch str, out)
            | _, _ => None
            end
        | EmptyString => None
        end
      else if (N_of_ascii c <? 32)%N then None
      else match parse_string_body rest with
           | Some (str, out) => Some (String c str, out)
           | None => None
           end
  end.

Fixpoint take_digits (s : string) : string * string :=
  match s with
  | String c rest =>
      if is_digit c then let (ds, out) := take_digits rest in (String c ds, out)
      else ("", s)
  | EmptyString => ("", s)
  end.

Definition starts_with_any (cs : list ascii) (s : string) : bool :=
  match s with
  | String c _ => existsb (Ascii.eqb c) cs
  | EmptyString => false
  end.

(** A run of digits read as a natural number: a single zero, or digits
    that start with a non-zero one.  A fraction or an exponent after it,
    which [JSON.parse] reads, is refused here: the numbers of the model are
    whole. *)
Definition parse_unsigned (s : string) : option (N * string) :=
  let (ds, out) := take_digits s in
  match ds with
  | EmptyString => None
  | String d more =>
      if Ascii.eqb d "0" && negb (String.eqb more "") then None
      else if starts_with_any ["."; "e"; "E"]%char out then None
      else match NilZero.uint_of_string ds with
           | Some u => Some (N.of_uint u, out)
           | None => None
           end
  end.

(** An integer numeral: an optional minus sign, then the digits. *)
Definition parse_number (s : string) : option (Z * string) :=
  match s with
  | String "-"%char rest =>
      match parse_unsigned rest with
      | Some (n, out) => Some (- Z.of_N n, out)
      | None => None
      end
  | _ =>
      match parse_unsigned s with
      | Some (n, out) => Some (Z.of_N n, out)
      | None => None
      end
  end.

(** [s] without its prefix [lit], when it starts with it. *)
Fixpoint strip_prefix (lit s : string) : option string :=
  match lit, s with
  | EmptyString, _ => Some s
  | String a lit', String b s' => if Ascii.eqb a b then strip_prefix lit' s' else None
  | String _ _, EmptyString => None
  end.

Definition literal (lit : string) (v : Json) (s : string) : option (Json * string) :=
  match strip_prefix lit s with
  | Some out => Some (v, out)
  | None => None
  end.

(** One value at the head of [s], and the text after it.  [fuel] bounds
    the nesting and the number of elements read at one level. *)
Fixpoint parse_value (fuel : nat) (s : string) : option (Json * string) :=
  match fuel with
  | O => None
  | S fuel' =>
      match skip_ws s with
      | EmptyString => None
      | String c rest =>
          if Ascii.eqb c "n" then literal "ull" JNull rest
          else if Ascii.eqb c "t" then literal "rue" (JBool true) rest
          else if Ascii.eqb c "f" then literal "alse" (JBool false) rest
          else if Ascii.eqb c dquote then
            match parse_string_body rest with
            | Some (str, out) => Some (JStr str, out)
            | None => None
            end
          else if Ascii.eqb c "[" then
            match skip_ws rest with
            | String "]"%char out => Some (JArr [], out)
            | _ =>
                match parse_elements fuel' rest with
                | Some (items, out) => Some (JArr items, out)
                | None => None
                end
            end
          else if Ascii.eqb c "{" then
            match skip_ws rest with
            | String "}"%char out => Some (JObj [], out)
            | _ =>
                match parse_members fuel' [] rest with
                | Some (entries, out) => Some (JObj entries, out)
                | None => None
                end
            end
          else
            match parse_number (String c rest) with
            | Some (z, out) => Some (JNum z, out)
            | None => None
            end
      end
  end
with parse_elements (fuel : nat) (s : string) : option (list Json * string) :=
  match fuel with
  | O => None
  | S fuel' =>
      match parse_value fuel' s with
      | Some (x, out) =>
          match skip_ws out with
          | String ","%char out' =>
              match parse_elements fuel' out' with
              | Some (items, out'') => Some (x :: items, out'')
              | None => None
              end
          | String "]"%char out' => Some ([x], out')
          | _ => None
          end
      | None => None
      end
  end
with parse_members (fuel : nat) (acc : list (string * Json)) (s : string)
  : option (list (string * Json) * string) :=
  match fuel with
  | O => None
  | S fuel' =>
      match skip_ws s with
      | String q s1 =>
          if Ascii.eqb q dquote then
            match parse_string_body s1 with
            | Some (k, s2) =>
                match skip_ws s2 with
                | String ":"%char s3 =>
                    match parse_value fuel' s3 with
                    | Some (x, out) =>
                        let acc' := obj_set k x acc in
                        match skip_ws out with
                        | String ","%char out' => parse_members fuel' acc' out'
                        | String "}"%char out' => Some (acc', out')
                        | _ => None
                        end
                    | None => None
                    end
                | _ => None
                end
            | None => None
            end
          else None
      | EmptyString => None
      end
  end.

Definition SyntaxError (msg : string) : JsError := mkError "SyntaxError" None None msg.

(** [JSON.parse], on the texts without a fraction, an exponent or a
    [\uXXXX] escape beyond the ASCII range; on a text with one of these it
    throws where [JSON.parse] may return a value. *)
Definition parse (text : string) : Completion Json :=
  match parse_value (S (String.length text)) text with
  | Some (v, out) =>
      match skip_ws out with
      | EmptyString => Normal v
      | String _ _ => Throw (SyntaxError "Unexpected non-whitespace character after JSON")
      end
  | None => Throw (SyntaxError "Unexpected token in JSON")
  end.

End JSON.

(** ** The Redis server behind the client

    The commands that [CacheService] issues, through a client that either
    reaches the server, which answers, or is closed, and rejects every
    command.  A command that stays pending, as on a connection that hangs,
    is outside the model.  An entry keeps the time to live it was given; the
    calls of one property all happen within it. *)

Module Redis.
Import Js.
Local Open Scope js_scope.

Record Entry := mkEntry {
  value : string;
  ttl : option Z
}.

Record Server := mkServer {
  reachable : bool;
  db : gmap string Entry
}.

Definition with_db (d : gmap string Entry) (srv : Server) : Server :=
  mkServer (reachable srv) d.

Definition ClientClosedError : JsError :=
  mkError "ClientClosedError" None None "The client is closed".

Definition ReplyError (msg : string) : JsError := mkError "ReplyError" None None msg.

(** A command reaches the server, or the closed client rejects the call. *)
Definition command {A : Type} (run : Server -> Completion A * Server) : M Server A :=
  fun srv => if reachable srv then run srv else (Throw ClientClosedError, srv).

(** Glob matching of [KEYS], for the patterns whose special characters are
    [*], any run of characters, and [?], any one character.  The classes
    [[...]] and the escapes by a backslash that Redis reads besides are not
    modelled: a pattern holding [[] or a backslash is outside this
    definition. *)
Fixpoint glob (pattern text : string) : bool :=
  match pattern with
  | EmptyString =>
      match text with EmptyString => true | String _ _ => false end
  | String p pattern' =>
      if Ascii.eqb p "*" then
        (fix star (t : string) : bool :=
           glob pattern' t
           || match t with
              | EmptyString => false
              | String _ t' => star t'
              end) text
      else
        match text with
        | EmptyString => false
        | String c text' =>
            (Ascii.eqb p "?" || Ascii.eqb p c) && glob pattern' text'
        end
  end.

(** The integer a value holds, for [INCR]. *)
Definition integer_of (s : string) : option Z :=
  match JSON.parse_number s with
  | Some (z, EmptyString) => Some z
  | _ => None
  end.

Definition GET (key : string) : M Server (option string) :=
  command (fun srv => (Normal (value <$> db srv !! key), srv)).

Definition SETEX (key : string) (seconds : Z) (v : string) : M Server unit :=
  command (fun srv =>
    if seconds <=? 0 then
      (Throw (ReplyError "ERR invalid expire time in 'setex' command"), srv)
    else (Normal tt, with_db (<[key := mkEntry v (Some seconds)]> (db srv)) srv)).

Definition DEL (key : string) : M Server Z :=
  command (fun srv =>
    (Normal (if db srv !! key is Some _ then 1 else 0), with_db (delete key (db srv)) srv)).

Definition EXISTS (key : string) : M Server Z :=
  command (fun srv => (Normal (if db srv !! key is Some _ then 1 else 0), srv)).

Definition FLUSHALL : M Server unit :=
  command (fun srv => (Normal tt, with_db ∅ srv)).

Definition KEYS (pattern : string) : M Server (list string) :=
  command (fun srv =>
    (Normal (List.filter (glob pattern) (map fst (map_to_list (db srv)))), srv)).

Definition INCR (key : string) : M Server Z :=
  command (fun srv =>
    match db srv !! key with
    | None => (Normal 1, with_db (<[key := mkEntry "1" None]> (db srv)) srv)
    | Some e =>
        match integer_of (value e) with
        | Some n =>
            if n <? 9223372036854775807 then
              (Normal (n + 1),
               with_db (<[key := mkEntry (JSON.string_of_Z (n + 1)) (ttl e)]> (db srv)) srv)
            else (Throw (ReplyError "ERR increment or decrement would overflow"), srv)
        | None => (Throw (ReplyError "ERR value is not an integer or out of range"), srv)
        end
    end).

Definition EXPIRE (key : string) (seconds : Z) : M Server Z :=
  command (fun srv =>
    match db srv !! key with
    | None => (Normal 0, srv)
    | Some e =>
        if seconds <=? 0 then (Normal 1, with_db (delete key (db srv)) srv)
        else (Normal 1, with_db (<[key := mkEntry (value e) (Some seconds)]> (db srv)) srv)
    end).

End Redis.

(** ** [utils/cache.js]: the [CacheService] singleton *)

Module CacheService.
Import Js JSON.
Local Open Scope js_scope.

(** [client] is the Redis client, with the server it talks to, or [null];
    [isConnected] is the flag the connection events keep. *)
Record CacheService := mkCacheService {
  client : option Redis.Server;
  isConnected : bool
}.

(** [await this.client.cmd(...)] *)
Definition on_client {A : Type} (cmd : M Redis.Server A) : M CacheService A :=
  fun this =>
    match client this with
    | Some srv =>
        let (r, srv') := cmd srv in (r, mkCacheService (Some srv') (isConnected this))
    | None => (Throw (TypeError "Cannot read properties of null"), this)
    end.

(** [!this.isConnected || !this.client] *)
Definition unavailable (this : CacheService) : bool :=
  negb (isConnected this) || negb (bool_decide (is_Some (client this))).

Definition get (key : string) : M CacheService Json :=
  try_catch
    (fun this =>
       if unavailable this then ret JNull this
       else (await data <- on_client (Redis.GET key) ;;
             match data with
             | Some text => if String.eqb text "" then ret JNull else lift (parse text)
             | None => ret JNull
             end) this)
    (fun error => ret JNull).

Definition set (key : string) (v : Json) (expiration : Z) : M CacheService bool :=
  try_catch
    (fun this =>
       if unavailable this then ret false this
       else (exec on_client (Redis.SETEX key expiration (stringify v)) ;;
             ret true) this)
    (fun error => ret false).

Definition del (key : string) : M CacheService bool :=
  try_catch
    (fun this =>
       if unavailable this then ret false this
       else (exec on_client (Redis.DEL key) ;; ret true) this)
    (fun error => ret false).

Definition exists_ (key : string) : M CacheService bool :=
  try_catch
    (fun this =>
       if unavailable this then ret false this
       else (await result <- on_client (Redis.EXISTS key) ;; ret (result =? 1)) this)
    (fun error => ret false).

Definition flush : M CacheService bool :=
  try_catch
    (fun this =>
       if unavailable this then ret false this
       else (exec on_client Redis.FLUSHALL ;; ret true) this)
    (fun error => ret false).

Definition keys (pattern : string) : M CacheService (list string) :=
  try_catch
    (fun this =>
       if unavailable this then ret [] this
       else on_client (Redis.KEYS pattern) this)
    (fun error => ret []).

Section Environment.

(** [process.env.NODE_ENV] *)
Variable NODE_ENV : option string.

(** [process.env.NODE_ENV || 'development'] *)
Definition environment : string :=
  match NODE_ENV with
  | Some e => if String.eqb e "" then "development" else e
  | None => "development"
  end.

Definition generateKey (type identifier : string) (params : list (string * Json)) : string :=
  let paramStr :=
    if (0 <? length params)%nat then
      ":" ++ String.concat "&" (map (fun kv => fst kv ++ "=" ++ to_string (snd kv)) params)
    else "" in
  environment ++ ":" ++ type ++ ":" ++ identifier ++ paramStr.

Definition incrementRateLimit (identifier : string) (window : Z) : M CacheService Z :=
  try_catch
    (fun this =>
       if unavailable this then ret 1 this
       else (let key := generateKey "ratelimit" identifier [] in
             await current <- on_client (Redis.INCR key) ;;
             exec (if current =? 1 then
                     exec on_client (Redis.EXPIRE key window) ;; ret tt
                   else ret tt) ;;
             ret current) this)
    (fun error => ret 1).

End Environment.

End CacheService.

(** ** The cache middleware module ([middleware/cache]) *)

Module CacheMiddleware.
Import Js JSON CacheService.
Local Open Scope js_scope.

(** The parts of an Express request the middleware reads; [user_id] is
    [req.user?.id]. *)
Record Request := mkRequest {
  method : string;
  path : string;
  query : list (string * Json);
  user_id : option string;
  ip : string
}.

(** How the rest of the chain answers: through [res.status(s).json(data)],
    [res.status(s).send(text)] or [res.status(s).end()].  The handlers do
    not use the cache service themselves. *)
Inductive Reply : Type :=
| ReplyJson (status : Z) (data : Json)
| ReplySend (status : Z) (text : string)
| ReplyEnd (status : Z).

Record Response := mkResponse {
  statusCode : Z;
  headers : list (string * string);
  body : string
}.

(** What went out, and whether [next()] was called. *)
Record Outcome := mkOutcome {
  response : Response;
  handlerRan : bool
}.

(** The response Express writes for a reply, with the headers set so far. *)
Definition respond (hs : list (string * string)) (r : Reply) : Response :=
  match r with
  | ReplyJson status data => mkResponse status hs (stringify data)
  | ReplySend status text => mkResponse status hs text
  | ReplyEnd status => mkResponse status hs ""
  end.

Definition reply_status (r : Reply) : Z :=
  match r with
  | ReplyJson status _ | ReplySend status _ | ReplyEnd status => status
  end.

(** [data && data.success !== false && res.statusCode < 400] *)
Definition successful (status : Z) (data : Json) : bool :=
  truthy data
  && negb match get_prop data "success" with
          | Some (JBool false) => true
          | _ => false
          end
  && (status <? 400).

(** The options of [cacheMiddleware]; the logging callbacks [onHit] and
    [onMiss] return normally and are left out. *)
Record Options := mkOptions {
  keyGenerator : option (Request -> string);
  expiration : Z;
  condition : Request -> bool;
  skipCache : bool
}.

(** [Buffer.from(s).toString('base64')] *)
Definition base64_digit (n : N) : ascii :=
  if (n <? 26)%N then ascii_of_N (65 + n)
  else if (n <? 52)%N then ascii_of_N (71 + n)
  else if (n <? 62)%N then ascii_of_N (n - 4)
  else if (n =? 62)%N then "+"%char
  else "/"%char.

Fixpoint base64 (s : string) : string :=
  match s with
  | EmptyString => ""
  | String a EmptyString =>
      let x := N_of_ascii a in
      String (base64_digit (x / 4)) (String (base64_digit (x mod 4 * 16)) "==")
  | String a (String b EmptyString) =>
      let x := N_of_ascii a in
      let y := N_of_ascii b in
      String (base64_digit (x / 4))
        (String (base64_digit (x mod 4 * 16 + y / 16))
           (String (base64_digit (y mod 16 * 4)) "="))
  | String a (String b (String c rest)) =>
      let x := N_of_ascii a in
      let y := N_of_ascii b in
      let z := N_of_ascii c in
      String (base64_digit (x / 4))
        (String (base64_digit (x mod 4 * 16 + y / 16))
           (String (base64_digit (y mod 16 * 4 + z / 64))
              (String (base64_digit (z mod 64)) (base64 rest))))
  end%N.

Definition generateDefaultKey (req : Request) : string :=
  let userId :=
    match user_id req with
    | Some id => if String.eqb id "" then "anonymous" else id
    | None => "anonymous"
    end in
  let queryString :=
    if (0 <? length (query req))%nat then stringify (JObj (query req)) else "" in
  method req ++ ":" ++ path req ++ ":" ++ userId ++ ":" ++ base64 queryString.

Definition cache_headers (mark cacheKey : string) (expiration : Z)
  : list (string * string) :=
  [ ("X-Cache", mark); ("X-Cache-Key", cacheKey);
    ("Cache-Control", "max-age=" ++ string_of_Z expiration) ].

(** The middleware [cacheMiddleware(options)] returns, run on a request
    with the rest of the chain [next]; [now] is
    [new Date().toISOString()]. *)
Definition cacheMiddleware (options : Options) (next : Request -> Reply)
    (now : string) (req : Request) : M CacheService Outcome :=
  if skipCache options || negb (condition options req) then
    ret (mkOutcome (respond [] (next req)) true)
  else
    try_catch
      (let cacheKey :=
         match keyGenerator options with
         | Some generate => generate req
         | None => generateDefaultKey req
         end in
       await cachedData <- get cacheKey ;;
       if truthy cachedData then
         ret (mkOutcome
                (mkResponse 200 (cache_headers "HIT" cacheKey (expiration options))
                   (stringify
                      (JObj (spread [ ("success", JBool true); ("cached", JBool true);
                                      ("timestamp", JStr now) ]
                                    cachedData))))
                false)
       else
         match next req with
         | ReplyJson status data =>
             exec (if successful status data then
                     exec set cacheKey data (expiration options) ;; ret tt
                   else ret tt) ;;
             ret (mkOutcome
                    (respond (cache_headers "MISS" cacheKey (expiration options))
                             (ReplyJson status data))
                    true)
         | reply => ret (mkOutcome (respond [] reply) true)
         end)
      (fun error => ret (mkOutcome (respond [] (next req)) true)).

(** The argument of [invalidateCache]: an array of patterns, a function
    of the request, or a single pattern. *)
Inductive Patterns : Type :=
| PatternArray (patterns : list string)
| PatternFunction (patterns : Request -> list string)
| PatternString (pattern : string).

Definition delete_matching (pattern : string) : M CacheService unit :=
  await ks <- keys pattern ;;
  for_each ks (fun key => exec del key ;; ret tt).

Definition invalidatePatterns (patterns : Patterns) (req : Request) : M CacheService unit :=
  try_catch
    match patterns with
    | PatternArray ps => for_each ps delete_matching
    | PatternFunction f => for_each (f req) delete_matching
    | PatternString p => delete_matching p
    end
    (fun error => ret tt).

(** The middleware [invalidateCache(patterns)] returns.  Express ends
    [res.json] in [res.send] and [res.send] in [res.end], each overridden
    here: the innermost check runs first. *)
Definition invalidateCache (patterns : Patterns) (next : Request -> Reply)
    (req : Request) : M CacheService Outcome :=
  let when (b : bool) : M CacheService unit :=
    if b then invalidatePatterns patterns req else ret tt in
  let reply := next req in
  let status := reply_status reply in
  exec match reply with
       | ReplyJson _ data =>
           exec when (status <? 400) ;;
           exec when (status <? 400) ;;
           when (successful status data)
       | ReplySend _ _ =>
           exec when (status <? 400) ;;
           when (status <? 400)
       | ReplyEnd _ => when (status <? 400)
       end ;;
  ret (mkOutcome (respond [] reply) true).

Definition invalidateServiceCache : (Request -> Reply) -> Request -> M CacheService Outcome :=
  invalidateCache (PatternArray ["*:services:*"; "*:appointments:*"]).

(** The options of [rateLimitMiddleware]; [onLimitReached] returns
    normally and is left out. *)
Record RateLimitOptions := mkRateLimitOptions {
  windowMs : Z;
  maxRequests : Z;
  rateKeyGenerator : Request -> string
}.

Section Environment.

Variable NODE_ENV : option string.

(** [req.query.name || fallback] *)
Definition query_or (req : Request) (name : string) (fallback : Json) : Json :=
  match prop_get (query req) name with
  | Some v => if truthy v then v else fallback
  | None => fallback
  end.

(** The key generator of [serviceListCache]. *)
Definition serviceListKey (req : Request) : string :=
  let filters :=
    [ ("category", prop_get (query req) "category");
      ("search", prop_get (query req) "search");
      ("location", prop_get (query req) "location");
      ("priceRange", prop_get (query req) "priceRange");
      ("rating", prop_get (query req) "rating");
      ("sortBy", prop_get (query req) "sortBy");
      ("page", Some (query_or req "page" (JNum 1)));
      ("limit", Some (query_or req "limit" (JNum 10))) ] in
  let defined :=
    flat_map (fun kv => match snd kv with
                        | Some v => [(fst kv, v)]
                        | None => []
                        end) filters in
  generateKey NODE_ENV "services" "list" defined.

Definition serviceListCache : (Request -> Reply) -> string -> Request -> M CacheService Outcome :=
  cacheMiddleware
    (mkOptions (Some serviceListKey) 300 (fun req => String.eqb (method req) "GET") false).

Definition rate_headers (options : RateLimitOptions) (currentCount : Z) (reset : string)
  : list (string * string) :=
  [ ("X-RateLimit-Limit", string_of_Z (maxRequests options));
    ("X-RateLimit-Remaining", string_of_Z (Z.max 0 (maxRequests options - currentCount)));
    ("X-RateLimit-Reset", reset) ].

(** The middleware [rateLimitMiddleware(options)] returns; [reset] is
    [new Date(Date.now() + windowMs).toISOString()]. *)
Definition rateLimitMiddleware (options : RateLimitOptions) (next : Request -> Reply)
    (reset : string) (req : Request) : M CacheService Outcome :=
  try_catch
    (let key := rateKeyGenerator options req in
     let windowSeconds := windowMs options / 1000 in
     await currentCount <- incrementRateLimit NODE_ENV key windowSeconds ;;
     let hs := rate_headers options currentCount reset in
     if maxRequests options <? currentCount then
       ret (mkOutcome
              (respond hs
                 (ReplyJson 429
                    (JObj [ ("success", JBool false);
                            ("message", JStr "Too many requests");
                            ("retryAfter", JNum (windowMs options)) ])))
              false)
     else ret (mkOutcome (respond hs (next req)) true))
    (fun error => ret (mkOutcome (respond [] (next req)) true)).

End Environment.

End CacheMiddleware.

(** ** MongoDB collections, as the index routines see them

    A collection is the list of its indexes, or nothing while its namespace
    does not exist.  [createIndex] follows the server: an index equal to an
    existing one is left alone, one that differs from an existing index on
    the same key is an [IndexOptionsConflict] (code 85), one that takes the
    name of an index on another key is an [IndexKeySpecsConflict]
    (code 86). *)

Module Mongo.
Import Js JSON.

Record Index := mkIndex {
  key : Json;
  name : string;
  sparse : bool
}.

Definition Collection : Type := option (list Index).

Record IndexOptions := mkIndexOptions {
  opt_name : string;
  opt_sparse : bool
}.

Definition id_index : Index := mkIndex (JObj [("_id", JNum 1)]) "_id_" false.

Definition MongoServerError (code : Z) (codeName msg : string) : JsError :=
  mkError "MongoServerError" (Some code) (Some codeName) msg.

(** [collection.indexes()] *)
Definition indexes : M Collection (list Index) :=
  fun c =>
    match c with
    | Some l => (Normal l, c)
    | None => (Throw (MongoServerError 26 "NamespaceNotFound" "ns does not exist"), c)
    end.

Definition same_key (spec : Json) (i : Index) : bool :=
  String.eqb (stringify (key i)) (stringify spec).

Definition same_name (options : IndexOptions) (i : Index) : bool :=
  String.eqb (name i) (opt_name options).

(** [collection.createIndex(spec, options)]; the first index of a
    namespace brings the collection, and its [_id_] index, into being. *)
Definition createIndex (spec : Json) (options : IndexOptions) : M Collection unit :=
  fun c =>
    let present := match c with Some l => l | None => [id_index] end in
    match find (same_key spec) present with
    | Some i =>
        if same_name options i && Bool.eqb (sparse i) (opt_sparse options) then
          (Normal tt, Some present)
        else
          (Throw (MongoServerError 85 "IndexOptionsConflict"
                    ("Index already exists with different options: " ++ name i)), c)
    | None =>
        match find (same_name options) present with
        | Some i =>
            (Throw (MongoServerError 86 "IndexKeySpecsConflict"
                      ("Index must have unique name: " ++ name i)), c)
        | None =>
            (Normal tt,
             Some (present ++ [mkIndex spec (opt_name options) (opt_sparse options)])%list)
        end
    end.

End Mongo.

(** ** [utils/dbOptimization.js]: index creation *)

Module DatabaseOptimizer.
Import Js JSON Mongo.
Local Open Scope js_scope.

(** The optimizer's flag, and the models registered with Mongoose, each
    with its collection. *)
Record State := mkState {
  indexCreated : bool;
  models : gmap string Collection
}.

Definition MissingSchemaError (name : string) : JsError :=
  mkError "MissingSchemaError" None None
    ("Schema hasn't been registered for model " ++ name).

(** [mongoose.model(name)] *)
Definition model (name : string) : M State unit :=
  fun s =>
    match models s !! name with
    | Some _ => (Normal tt, s)
    | None => (Throw (MissingSchemaError name), s)
    end.

(** A driver call on the collection of a model. *)
Definition on_collection {A : Type} (name : string) (cmd : M Collection A) : M State A :=
  fun s =>
    match models s !! name with
    | Some c =>
        let (r, c') := cmd c in
        (r, mkState (indexCreated s) (<[name := c']> (models s)))
    | None => (Throw (MissingSchemaError name), s)
    end.

Definition getExistingIndexKeys (name : string) : M State (list string) :=
  try_catch
    (await idxs <- on_collection name indexes ;;
     ret (map (fun idx => stringify (key idx)) idxs))
    (fun e => ret []).

Definition to_lower (c : ascii) : ascii :=
  let n := N_of_ascii c in
  if (65 <=? n)%N && (n <=? 90)%N then ascii_of_N (n + 32) else c.

Fixpoint lower (s : string) : string :=
  match s with
  | EmptyString => ""
  | String c rest => String (to_lower c) (lower rest)
  end.

Fixpoint contains (needle s : string) : bool :=
  String.prefix needle s
  || match s with
     | EmptyString => false
     | String _ rest => contains needle rest
     end.

(** [error?.code === 85 || error?.codeName === 'IndexOptionsConflict' ||
    /already exists/i.test(msg)] *)
Definition benign (error : JsError) : bool :=
  match err_code error with Some code => code =? 85 | None => false end
  || match err_codeName error with
     | Some codeName => String.eqb codeName "IndexOptionsConflict"
     | None => false
     end
  || contains "already exists" (lower (err_message error)).

Definition tryCreateIndex (name : string) (spec : Json) (options : IndexOptions)
  : M State unit :=
  try_catch
    (on_collection name (createIndex spec options))
    (fun error => if benign error then ret tt else throw error).

(** [if (!existing.includes(JSON.stringify(spec))) await
    this.tryCreateIndex(collection, spec, options)] *)
Definition ensure (name : string) (existing : list string) (spec : Json)
    (options : IndexOptions) : M State unit :=
  if negb (includes existing (stringify spec)) then tryCreateIndex name spec options
  else ret tt.

Definition asc : Json := JNum 1.
Definition desc : Json := JNum (-1).

Definition createIndexes : M State unit :=
  try_catch
    (fun this =>
       if indexCreated this then ret tt this
       else
         (exec model "Service" ;;
          await serviceExisting <- getExistingIndexKeys "Service" ;;
          exec ensure "Service" serviceExisting
                 (JObj [("category", asc); ("isActive", asc); ("rating.average", desc)])
                 (mkIndexOptions "service_category_active_rating" false) ;;
          exec ensure "Service" serviceExisting
                 (JObj [("price", asc); ("isActive", asc)])
                 (mkIndexOptions "service_price_active" false) ;;
          exec ensure "Service" serviceExisting
                 (JObj [("isPopular", asc); ("isActive", asc); ("createdAt", desc)])
                 (mkIndexOptions "service_popular_active_created" false) ;;
          exec model "User" ;;
          await userExisting <- getExistingIndexKeys "User" ;;
          exec ensure "User" userExisting
                 (JObj [("profile.phone", asc)])
                 (mkIndexOptions "user_phone" true) ;;
          exec ensure "User" userExisting
                 (JObj [("isActive", asc); ("userType", asc)])
                 (mkIndexOptions "user_active_userType" false) ;;
          exec model "Review" ;;
          await reviewExisting <- getExistingIndexKeys "Review" ;;
          exec ensure "Review" reviewExisting
                 (JObj [("service", asc); ("rating", desc); ("createdAt", desc)])
                 (mkIndexOptions "review_service_rating_created" false) ;;
          exec ensure "Review" reviewExisting
                 (JObj [("user", asc); ("createdAt", desc)])
                 (mkIndexOptions "review_user_created" false) ;;
          exec try_catch
                 (exec model "Appointment" ;;
                  await apptExisting <- getExistingIndexKeys "Appointment" ;;
                  exec ensure "Appointment" apptExisting
                         (JObj [("user", asc); ("scheduledDate", desc); ("status", asc)])
                         (mkIndexOptions "appointment_user_date_status" false) ;;
                  exec ensure "Appointment" apptExisting
                         (JObj [("provider", asc); ("scheduledDate", asc); ("status", asc)])
                         (mkIndexOptions "appointment_provider_date_status" false) ;;
                  ensure "Appointment" apptExisting
                         (JObj [("service", asc); ("status", asc); ("scheduledDate", desc)])
                         (mkIndexOptions "appointment_service_status_date" false))
                 (fun error => ret tt) ;;
          fun this' => (Normal tt, mkState true (models this'))) this)
    (fun error => ret tt).

End DatabaseOptimizer.

(** ** The virtuals of the appointment document *)

Module AppointmentVirtuals.
Import Js.

(** The virtual [durationInHours], of a [duration] in minutes. *)
Definition durationInHours (duration : Z) : Q :=
  ((Math_round (((duration # 1) / (60 # 1)) * (100 # 1)) # 1) / (100 # 1))%Q.

End AppointmentVirtuals.

(** ** [utils/cache.js]: connection events and the typed cache methods *)

Module CacheConnection.
Import Js CacheService.

(** The argument of [retry_strategy], as far as its result depends on it
    ([options.error] is only logged). *)
Record RetryOptions := mkRetryOptions {
  total_retry_time : Z;
  attempt : Z
}.

(** What [retry_strategy] returns: an [Error], [undefined], or a delay in
    milliseconds. *)
Inductive Retry : Type :=
| RetryError (message : string)
| RetryUndefined
| RetryAfter (ms : Z).

Definition retry_strategy (options : RetryOptions) : Retry :=
  if 1000 * 60 * 60 <? total_retry_time options then RetryError "Retry time exhausted"
  else if 10 <? attempt options then RetryUndefined
  else RetryAfter (Z.min (attempt options * 100) 3000).

(** The events of the client that [connect] listens to. *)
Inductive Event : Type :=
| connect_event
| error_event
| end_event.

Definition on_event (event : Event) (this : CacheService) : CacheService :=
  mkCacheService (client this)
    match event with
    | connect_event => true
    | error_event | end_event => false
    end.

End CacheConnection.

Module CacheEntries.
Import Js JSON CacheService.
Local Open Scope js_scope.

Section Environment.

Variable NODE_ENV : option string.

(** [expiration = 300]: the value of a parameter with a default. *)
Definition or_default (value : Z) (argument : option Z) : Z :=
  match argument with
  | Some z => z
  | None => value
  end.

Definition cacheServiceList (filters : list (string * Json)) (data : Json)
    (expiration : option Z) : M CacheService bool :=
  let key := generateKey NODE_ENV "services" "list" filters in
  set key data (or_default 300 expiration).

Definition getCachedServiceList (filters : list (string * Json)) : M CacheService Json :=
  let key := generateKey NODE_ENV "services" "list" filters in
  get key.

Definition cacheUserProfile (userId : string) (data : Json) (expiration : option Z)
  : M CacheService bool :=
  let key := generateKey NODE_ENV "user" userId [] in
  set key data (or_default 1800 expiration).

Definition getCachedUserProfile (userId : string) : M CacheService Json :=
  let key := generateKey NODE_ENV "user" userId [] in
  get key.

Definition invalidateUserCache (userId : string) : M CacheService unit :=
  let pattern := generateKey NODE_ENV "user" userId [] ++ "*" in
  await ks <- keys pattern ;;
  if (0 <? length ks)%nat then for_each ks (fun key => exec del key ;; ret tt)
  else ret tt.

Definition cacheAppointments (userId : string) (data : Json) (expiration : option Z)
  : M CacheService bool :=
  let key := generateKey NODE_ENV "appointments" userId [] in
  set key data (or_default 600 expiration).

Definition getCachedAppointments (userId : string) : M CacheService Json :=
  let key := generateKey NODE_ENV "appointments" userId [] in
  get key.

Definition invalidateAppointmentCache (userId : string) : M CacheService unit :=
  let key := generateKey NODE_ENV "appointments" userId [] in
  exec del key ;; ret tt.

Definition storeSession (sessionId : string) (data : Json) (expiration : option Z)
  : M CacheService bool :=
  let key := generateKey NODE_ENV "session" sessionId [] in
  set key data (or_default 86400 expiration).

Definition getSession (sessionId : string) : M CacheService Json :=
  let key := generateKey NODE_ENV "session" sessionId [] in
  get key.

Definition deleteSession (sessionId : string) : M CacheService bool :=
  let key := generateKey NODE_ENV "session" sessionId [] in
  del key.

(** [count || 0] *)
Definition getRateLimitCount (identifier : string) : M CacheService Json :=
  let key := generateKey NODE_ENV "ratelimit" identifier [] in
  await count <- get key ;;
  ret (if truthy count then count else JNum 0).

End Environment.

(** [healthCheck]; [now] is the value of [Date.now()]. *)
Definition healthCheck (now : Z) : M CacheService bool :=
  try_catch
    (fun this =>
       if unavailable this then ret false this
       else (let testKey := "health:check" in
             exec set testKey (JObj [("timestamp", JNum now)]) 10 ;;
             await result <- get testKey ;;
             exec del testKey ;;
             ret (truthy result)) this)
    (fun error => ret false).

End CacheEntries.

(** ** The cache middleware module: the appointments cache *)

Module AppointmentCache.
Import Js JSON CacheService CacheMiddleware.
Local Open Scope js_scope.

Section Environment.

Variable NODE_ENV : option string.

(** [`${userId}`], of [req.user?.id]. *)
Definition userId_text (req : Request) : string :=
  match user_id req with
  | Some id => id
  | None => "undefined"
  end.

(** The key generator of [appointmentCache]. *)
Definition appointmentKey (req : Request) : string :=
  let userId := userId_text req in
  let filters :=
    [ ("status", prop_get (query req) "status");
      ("date", prop_get (query req) "date");
      ("serviceId", prop_get (query req) "serviceId") ] in
  let defined :=
    flat_map (fun kv => match snd kv with
                        | Some v => [(fst kv, v)]
                        | None => []
                        end) filters in
  generateKey NODE_ENV "appointments" userId defined.

(** [req.method === 'GET' && req.user?.id] *)
Definition appointmentCondition (req : Request) : bool :=
  String.eqb (method req) "GET"
  && match user_id req with
     | Some id => negb (String.eqb id "")
     | None => false
     end.

Definition appointmentCache : (Request -> Reply) -> string -> Request -> M CacheService Outcome :=
  cacheMiddleware (mkOptions (Some appointmentKey) 600 appointmentCondition false).

End Environment.

(** The pattern function [invalidateAppointmentCache]. *)
Definition invalidateAppointmentCache (req : Request) : list string :=
  let userId := userId_text req in
  [ "*:appointments:" ++ userId ++ "*";
    "*:user:" ++ userId ++ "*" ].

(** The middleware exported as [invalidateAppointmentCache]. *)
Definition exports_invalidateAppointmentCache
  : (Request -> Reply) -> Request -> M CacheService Outcome :=
  invalidateCache (PatternFunction invalidateAppointmentCache).

End AppointmentCache.

(** ** [utils/dbOptimization.js]: the aggregation pipeline of the services *)

Module ServiceAggregation.
Import Js JSON.

Section Builtins.

(** [parseFloat], from the value of a filter to the number in a stage. *)
Variable parseFloat : Json -> Json.

(** [if (filters.name) object = update(filters.name, object)] *)
Definition when_given {A : Type} (filters : list (string * Json)) (name : string)
    (update : Json -> A -> A) (object : A) : A :=
  match prop_get filters name with
  | Some v => if truthy v then update v object else object
  | None => object
  end.

(** [filters.name], when it is truthy. *)
Definition given (filters : list (string * Json)) (name : string) : bool :=
  match prop_get filters name with
  | Some v => truthy v
  | None => false
  end.

Definition textScore : Json := JObj [("$meta", JStr "textScore")].

(** The [$lookup] of the providers. *)
Definition lookupStage : Json :=
  JObj [ ("$lookup",
          JObj [ ("from", JStr "users");
                 ("localField", JStr "providers");
                 ("foreignField", JStr "_id");
                 ("as", JStr "providerDetails");
                 ("pipeline",
                  JArr [ JObj [ ("$project",
                                 JObj [ ("firstName", JNum 1); ("lastName", JNum 1);
                                        ("profile.specializations", JNum 1);
                                        ("rating", JNum 1) ]) ] ]) ]) ].

Definition matchStage (filters : list (string * Json)) : list (string * Json) :=
  let matchStage := [("isActive", JBool true)] in
  let matchStage := when_given filters "category" (obj_set "category") matchStage in
  let matchStage :=
    if given filters "minPrice" || given filters "maxPrice" then
      let price := [] in
      let price :=
        when_given filters "minPrice" (fun v => obj_set "$gte" (parseFloat v)) price in
      let price :=
        when_given filters "maxPrice" (fun v => obj_set "$lte" (parseFloat v)) price in
      obj_set "price" (JObj price) matchStage
    else matchStage in
  let matchStage :=
    when_given filters "rating"
      (fun v => obj_set "rating.average" (JObj [("$gte", parseFloat v)])) matchStage in
  let matchStage :=
    when_given filters "popular" (fun _ => obj_set "isPopular" (JBool true)) matchStage in
  matchStage.

(** [object[key] = number] on an object literal.  It is an assignment, not
    a definition: [__proto__] goes to the accessor of [Object.prototype],
    which leaves the object as it is when the value is a number. *)
Definition assign (key : string) (number : Z) (object : list (string * Json))
  : list (string * Json) :=
  if String.eqb key "__proto__" then object else obj_set key (JNum number) object.

Definition sortStage (filters : list (string * Json)) : list (string * Json) :=
  let sortStage := [] in
  let sortStage :=
    when_given filters "search" (fun _ => obj_set "searchScore" textScore) sortStage in
  let sortBy :=
    match prop_get filters "sortBy" with
    | Some v => if truthy v then v else JStr "createdAt"
    | None => JStr "createdAt"
    end in
  let sortOrder :=
    match prop_get filters "sortOrder" with
    | Some (JStr order) => if String.eqb order "asc" then 1 else -1
    | _ => -1
    end in
  assign (to_string sortBy) sortOrder sortStage.

Definition buildServiceAggregation (filters : list (string * Json)) : list Json :=
  let pipeline := [] in
  let pipeline := (pipeline ++ [JObj [("$match", JObj (matchStage filters))]])%list in
  let pipeline :=
    when_given filters "search"
      (fun search pipeline =>
         (JObj [("$match", JObj [("$text", JObj [("$search", search)])])] :: pipeline
          ++ [JObj [("$addFields", JObj [("searchScore", textScore)])]])%list)
      pipeline in
  let pipeline := (pipeline ++ [lookupStage])%list in
  let pipeline := (pipeline ++ [JObj [("$sort", JObj (sortStage filters))]])%list in
  pipeline.

End Builtins.

End ServiceAggregation.

(** * Properties *)

(** ** JavaScript primitives *)

Module JsProps.
Import Js.

Lemma includes_In (l : list string) (x : string) : includes l x = true <-> In x l.
Proof.
  unfold includes. rewrite existsb_exists. split.
  - intros [y [Hy Heq]]. apply String.eqb_eq in Heq. now subst.
  - intros H. exists x. split; [assumption | apply String.eqb_refl].
Qed.

Lemma includes_false (l : list string) (x : string) : includes l x = false <-> ~ In x l.
Proof.
  rewrite <- includes_In. destruct (includes l x); split; congruence.
Qed.

(** Stepping through an [await] whose call returns. *)
Lemma bind_normal {S A B : Type} (m : M S A) (k : A -> M S B) (s s' : S) (a : A) (r : Completion B * S) :
  m s = (Normal a, s') -> k a s' = r -> bind m k s = r.
Proof. intros H <-. unfold bind. rewrite H. reflexivity. Qed.

Lemma try_catch_normal {S A : Type} (body : M S A) (handler : JsError -> M S A)
    (s s' : S) (a : A) :
  body s = (Normal a, s') -> try_catch body handler s = (Normal a, s').
Proof. intros H. unfold try_catch. rewrite H. reflexivity. Qed.

(** The monad laws, state by state. *)
Lemma bind_assoc {S A B C : Type} (m : M S A) (k : A -> M S B) (h : B -> M S C) (s : S) :
  bind (bind m k) h s = bind m (fun a => bind (k a) h) s.
Proof. unfold bind. destruct (m s) as [[a|e] s']; reflexivity. Qed.

Lemma bind_ext {S A B : Type} (m : M S A) (k k' : A -> M S B) (s : S) :
  (forall a s', k a s' = k' a s') -> bind m k s = bind m k' s.
Proof. intros H. unfold bind. destruct (m s) as [[a|e] s']; [apply H | reflexivity]. Qed.

Lemma bind_ret_l {S A B : Type} (a : A) (k : A -> M S B) (s : S) :
  bind (ret a) k s = k a s.
Proof. reflexivity. Qed.

Lemma bind_ret_r {S : Type} (m : M S unit) (s : S) :
  bind m (fun _ => ret tt) s = m s.
Proof. unfold bind. destruct (m s) as [[[]|e] s']; reflexivity. Qed.

Lemma bind_cong {S A B : Type} (m m' : M S A) (k : A -> M S B) (s : S) :
  m s = m' s -> bind m k s = bind m' k s.
Proof. intros H. unfold bind. rewrite H. reflexivity. Qed.

Lemma try_catch_ext {S A : Type} (body body' : M S A) (handler : JsError -> M S A) (s : S) :
  body s = body' s -> try_catch body handler s = try_catch body' handler s.
Proof. intros H. unfold try_catch. rewrite H. reflexivity. Qed.

Ltac monad_step :=
  first [ rewrite bind_assoc | rewrite bind_ret_l | apply bind_ext; intros ].

End JsProps.

(** ** The appointment document *)

Module AppointmentProps.
Import Js Appointment JsProps.

(** The transition table, as the specification lists it. *)
Definition in_transition_table (from to : string) : Prop :=
  (from = "scheduled" /\ (to = "confirmed" \/ to = "canceled" \/ to = "rescheduled"))
  \/ (from = "confirmed"
      /\ (to = "in-progress" \/ to = "canceled" \/ to = "no-show" \/ to = "rescheduled"))
  \/ (from = "in-progress" /\ (to = "completed" \/ to = "canceled"))
  \/ (from = "rescheduled" /\ to = "scheduled").

(** [validTransitions] holds exactly the pairs of the table. *)
Lemma validTransitions_table (from to : string) :
  In from status_enum ->
  exists allowed, prop_get validTransitions from = Some allowed
                  /\ (In to allowed <-> in_transition_table from to).
Proof.
  unfold status_enum, in_transition_table. simpl In.
  intros H.
  repeat (destruct H as [H | H];
          [subst from; eexists; split; [reflexivity|] | ]); try contradiction.
  all: simpl In; split; intros; intuition (try discriminate; try congruence).
Qed.

Lemma status_calculateTotalCost (a : Appointment) :
  status (snd (calculateTotalCost a)) = status a.
Proof.
  unfold calculateTotalCost. cbv zeta. cbn [snd].
  unfold set_patientPayment, set_totalAmount.
  repeat match goal with |- context [match ?n with Fin _ => _ | NaN => _ end] =>
                           destruct n end; reflexivity.
Qed.

Lemma consultation_calculateTotalCost (a : Appointment) :
  consultation (snd (calculateTotalCost a)) = consultation a.
Proof.
  unfold calculateTotalCost. cbv zeta. cbn [snd].
  unfold set_patientPayment, set_totalAmount.
  repeat match goal with |- context [match ?n with Fin _ => _ | NaN => _ end] =>
                           destruct n end; reflexivity.
Qed.

Lemma status_pre_save (a : Appointment) : status (pre_save a) = status a.
Proof.
  unfold pre_save. destruct (_ || _); [apply status_calculateTotalCost | reflexivity].
Qed.

Lemma consultation_pre_save (a : Appointment) : consultation (pre_save a) = consultation a.
Proof.
  unfold pre_save. destruct (_ || _); [apply consultation_calculateTotalCost | reflexivity].
Qed.

Lemma status_save (a : Appointment) : status (snd (save a)) = status a.
Proof.
  unfold save. cbn [snd]. destruct (validate a); [apply status_pre_save | reflexivity].
Qed.

Lemma consultation_save (a : Appointment) : consultation (snd (save a)) = consultation a.
Proof.
  unfold save. cbn [snd]. destruct (validate a); [apply consultation_pre_save | reflexivity].
Qed.

(** [save] returns its promise. *)
Lemma save_returns (a : Appointment) : save a = (Normal tt, snd (save a)).
Proof. reflexivity. Qed.

(** Once the table lets the transition through, [updateStatus] is [save] on
    the stamped document. *)
Lemma updateStatus_stamp (now : Z) (to : string) (a : Appointment) (allowed : list string) :
  prop_get validTransitions (status a) = Some allowed ->
  includes allowed to = true ->
  updateStatus now to a = save (stamp now to a).
Proof. intros Hget Hinc. unfold updateStatus. rewrite Hget, Hinc. reflexivity. Qed.

Lemma status_stamp (now : Z) (to : string) (a : Appointment) : status (stamp now to a) = to.
Proof.
  unfold stamp. cbv zeta.
  destruct (String.eqb to "in-progress"); [reflexivity|].
  destruct (String.eqb to "completed"); [|reflexivity].
  destruct (startTime _); reflexivity.
Qed.

Lemma cost_stamp (now : Z) (to : string) (a : Appointment) : cost (stamp now to a) = cost a.
Proof.
  unfold stamp. cbv zeta.
  destruct (String.eqb to "in-progress"); [reflexivity|].
  destruct (String.eqb to "completed"); [|reflexivity].
  destruct (startTime _); reflexivity.
Qed.

Lemma updateStatus_allowed (now : Z) (to : string) (a : Appointment) (allowed : list string) :
  prop_get validTransitions (status a) = Some allowed ->
  In to allowed ->
  exists a', updateStatus now to a = (Normal tt, a') /\ status a' = to.
Proof.
  intros Hget Hin. apply includes_In in Hin.
  rewrite (updateStatus_stamp now to a allowed Hget Hin).
  exists (snd (save (stamp now to a))). split; [reflexivity|].
  rewrite status_save. apply status_stamp.
Qed.

Lemma updateStatus_refused (now : Z) (to : string) (a : Appointment) (allowed : list string) :
  prop_get validTransitions (status a) = Some allowed ->
  ~ In to allowed ->
  updateStatus now to a = (Throw (illegal_transition (status a) to), a).
Proof.
  intros Hget Hin. unfold updateStatus. rewrite Hget.
  apply includes_false in Hin. rewrite Hin. reflexivity.
Qed.

Lemma prop_get_In {A : Type} (entries : list (string * A)) (k : string) (v : A) :
  prop_get entries k = Some v -> In (k, v) entries.
Proof.
  induction entries as [|[k' v'] rest IH]; cbn; [discriminate|].
  destruct (String.eqb k' k) eqn:Hk.
  - apply String.eqb_eq in Hk. intros [= ->]. left. now subst.
  - intros H. right. now apply IH.
Qed.

(** What the table allows: a status of the enum; [in-progress] only from
    [confirmed], [completed] only from [in-progress]. *)
Lemma allowed_target (from to : string) (allowed : list string) :
  prop_get validTransitions from = Some allowed -> In to allowed ->
  In to status_enum
  /\ (to = "in-progress" -> from = "confirmed")
  /\ (to = "completed" -> from = "in-progress").
Proof.
  intros Hget Hin. apply prop_get_In in Hget. unfold validTransitions in Hget.
  cbn in Hget.
  repeat match goal with
         | H : _ \/ _ |- _ => destruct H as [H|H]
         | H : (_, _) = (_, _) |- _ => injection H as <- <-
         | H : False |- _ => destruct H
         end;
    cbn in Hin;
    repeat match goal with
           | H : _ \/ _ |- _ => destruct H as [H|H]
           | H : False |- _ => destruct H
           end;
    subst to; (split; [cbn; tauto | split; intros [=]; reflexivity]).
Qed.

(** The four amounts of [cost] pass their [min] validators. *)
Definition amounts_valid (a : Appointment) : bool :=
  (0 <=? basePrice (cost a)) && min_zero (totalAmount (cost a))
  && (0 <=? insuranceCovered (cost a)) && min_zero (patientPayment (cost a)).

(** A document whose status is of the enum passes validation exactly when
    its amounts do. *)
Lemma validate_amounts (a : Appointment) :
  In (status a) status_enum ->
  if amounts_valid a then validate a = Normal tt
  else exists e, validate a = Throw e /\ err_name e = "ValidationError".
Proof.
  intros Henum. apply includes_In in Henum.
  unfold validate, failures, amounts_valid. rewrite Henum.
  destruct (0 <=? basePrice (cost a)), (min_zero (totalAmount (cost a))),
    (0 <=? insuranceCovered (cost a)), (min_zero (patientPayment (cost a)));
    cbn; try reflexivity; eexists; split; reflexivity.
Qed.

(** C1.  From a status of the enum, [updateStatus] to a status the
    transition table allows does not throw: it leaves the document with
    that status and returns the promise of [save].  When the four amounts of
    [cost] pass their validators, the hook has run and the promise settles
    as the write of the document does; when one of them does not, the
    promise is rejected with a validation error, the hook has not run and
    the new status is on the document in memory only.  To any other status
    [updateStatus] throws the illegal-transition error and leaves the
    document as it was. *)
Theorem updateStatus_transition_table
        (write : Appointment -> Completion unit) (now : Z) (to : string) (a : Appointment) :
  In (status a) status_enum ->
  (in_transition_table (status a) to ->
     exists a',
       updateStatus now to a = (Normal tt, a')
       /\ status a' = to
       /\ (amounts_valid a = true ->
           a' = pre_save (stamp now to a)
           /\ updateStatus_promise write now to a = write a')
       /\ (amounts_valid a = false ->
           a' = stamp now to a
           /\ exists e, updateStatus_promise write now to a = Throw e
                        /\ err_name e = "ValidationError"))
  /\ (~ in_transition_table (status a) to ->
     updateStatus now to a = (Throw (illegal_transition (status a) to), a)).
Proof.
  intros Henum.
  destruct (validTransitions_table (status a) to Henum) as [allowed [Hget Htab]].
  split; intros H.
  - apply Htab in H.
    assert (Hto : In (status (stamp now to a)) status_enum).
    { rewrite status_stamp. exact (proj1 (allowed_target _ _ _ Hget H)). }
    pose proof (validate_amounts (stamp now to a) Hto) as Hval.
    unfold amounts_valid in Hval. rewrite cost_stamp in Hval.
    fold (amounts_valid a) in Hval.
    apply includes_In in H.
    rewrite (updateStatus_stamp now to a allowed Hget H).
    exists (snd (save (stamp now to a))). split; [reflexivity|].
    split; [rewrite status_save; apply status_stamp|].
    unfold updateStatus_promise, save_promise, save. cbn [snd].
    split; intros Hv; rewrite Hv in Hval.
    + rewrite Hval. split; reflexivity.
    + destruct Hval as (e & -> & Hname). split; [reflexivity|].
      exists e. split; [reflexivity | exact Hname].
  - apply (updateStatus_refused now to a allowed Hget). now rewrite Htab.
Qed.

Definition confirmed_visit : Appointment :=
  mkAppointment 1700000000000 "confirmed"
    (mkCost 100 [mkCharge "lab fee" (Some 20)] (Fin 0) 30 (Fin 0))
    (mkConsultation None None None) [].

Lemma updateStatus_transition_table_witness :
  (exists a', updateStatus 1699990000000 "in-progress" confirmed_visit = (Normal tt, a')
              /\ status a' = "in-progress"
              /\ updateStatus_promise (fun _ => Normal tt) 1699990000000 "in-progress"
                   confirmed_visit = Normal tt)
  /\ updateStatus 1699990000000 "completed" confirmed_visit
     = (Throw (illegal_transition "confirmed" "completed"), confirmed_visit).
Proof.
  assert (Henum : In (status confirmed_visit) status_enum) by (simpl; tauto).
  split.
  - destruct (proj1 (updateStatus_transition_table (fun _ => Normal tt) 1699990000000
                       "in-progress" confirmed_visit Henum))
      as (a' & Hcall & Hstatus & Hvalid & _).
    { right. left. split; [reflexivity | left; reflexivity]. }
    exists a'. split; [exact Hcall|]. split; [exact Hstatus|].
    exact (proj2 (Hvalid eq_refl)).
  - apply (proj2 (updateStatus_transition_table (fun _ => Normal tt) 1699990000000
                    "completed" confirmed_visit Henum)).
    unfold in_transition_table. simpl. intuition discriminate.
Defined.

(** *** Cost *)

(** The sum of the amounts of a list of charges. *)
Definition sum_amounts (charges : list Charge) : Num :=
  fold_right (fun charge acc => num_add (toNumber (amount charge)) acc) (Fin 0) charges.


(** Every charge carries an amount. *)
Definition priced (charges : list Charge) : bool :=
  forallb (fun charge => if amount charge is Some _ then true else false) charges.

(** The amounts of the charges that carry one, added up. *)
Definition amounts (charges : list Charge) : Z :=
  fold_right (fun charge acc => match amount charge with Some z => z + acc | None => acc end)
             0 charges.

(** Every charge carries an amount, and the running total of the loop of
    [calculateTotalCost], from [total] on, stays a safe whole number, as
    does every amount added to it. *)
Fixpoint sums_safe (total : Z) (charges : list Charge) : bool :=
  isSafeInteger total
  && match charges with
     | [] => true
     | charge :: rest =>
         match amount charge with
         | Some x => isSafeInteger x && sums_safe (total + x) rest
         | None => false
         end
     end.

(** The costs on which the arithmetic of [calculateTotalCost] is exact. *)
Definition exact_cost (a : Appointment) : bool :=
  sums_safe (basePrice (cost a)) (additionalCharges (cost a))
  && isSafeInteger (insuranceCovered (cost a))
  && isSafeInteger (basePrice (cost a) + amounts (additionalCharges (cost a))
                    - insuranceCovered (cost a)).

Lemma num_add_assoc (a b c : Num) : num_add (num_add a b) c = num_add a (num_add b c).
Proof. destruct a, b, c; simpl; try reflexivity. f_equal. lia. Qed.

Lemma num_add_0_r (a : Num) : num_add a (Fin 0) = a.
Proof. destruct a; simpl; [f_equal; lia | reflexivity]. Qed.

Lemma fold_charges (charges : list Charge) (acc : Num) :
  fold_left (fun total charge => num_add total (toNumber (amount charge))) charges acc
  = num_add acc (sum_amounts charges).
Proof.
  revert acc. induction charges as [|c rest IH]; intros acc; simpl.
  - symmetry. apply num_add_0_r.
  - rewrite IH. apply num_add_assoc.
Qed.

Lemma sum_amounts_priced (charges : list Charge) :
  sum_amounts charges = if priced charges then Fin (amounts charges) else NaN.
Proof.
  induction charges as [|c rest IH]; [reflexivity|].
  cbn [sum_amounts fold_right priced forallb amounts]. fold (sum_amounts rest).
  fold (priced rest). fold (amounts rest). rewrite IH.
  destruct (amount c) as [z|]; cbn; [|reflexivity].
  destruct (priced rest); reflexivity.
Qed.

Lemma sums_safe_priced (total : Z) (charges : list Charge) :
  sums_safe total charges = true -> priced charges = true.
Proof.
  revert total. induction charges as [|c rest IH]; intros total; [reflexivity|].
  cbn [sums_safe priced forallb]. fold (priced rest).
  destruct (amount c) as [x|]; rewrite ?andb_false_r; [|discriminate].
  rewrite !andb_true_iff. intros (_ & _ & H). split; [reflexivity | exact (IH _ H)].
Qed.

(** The total that [calculateTotalCost] returns. *)
Lemma calculateTotalCost_total (a : Appointment) :
  fst (calculateTotalCost a)
  = if priced (additionalCharges (cost a))
    then Fin (basePrice (cost a) + amounts (additionalCharges (cost a)))
    else NaN.
Proof.
  unfold calculateTotalCost. cbv zeta. cbn [fst]. rewrite fold_charges, sum_amounts_priced.
  destruct (priced _); reflexivity.
Qed.

(** A total that is a number is stored, with the patient's part. *)
Lemma calculateTotalCost_stored (a : Appointment) (total : Z) :
  fst (calculateTotalCost a) = Fin total ->
  cost (snd (calculateTotalCost a))
  = mkCost (basePrice (cost a)) (additionalCharges (cost a)) (Fin total)
           (insuranceCovered (cost a)) (Fin (total - insuranceCovered (cost a))).
Proof. unfold calculateTotalCost. cbv zeta. cbn [fst snd]. intros ->. reflexivity. Qed.

(** A total that is not a number is refused twice: the document stays. *)
Lemma calculateTotalCost_refused (a : Appointment) :
  fst (calculateTotalCost a) = NaN -> snd (calculateTotalCost a) = a.
Proof. unfold calculateTotalCost. cbv zeta. cbn [fst snd]. intros ->. reflexivity. Qed.



Definition priced_visit : Appointment :=
  mkAppointment 1700000000000 "scheduled"
    (mkCost 100 [mkCharge "lab fee" (Some 20)] (Fin 0) 30 (Fin 0))
    (mkConsultation None None None) ["cost.additionalCharges"].


(** A visit of 100 with one charge that carries no amount, 30 covered, as
    stored before the charge was added. *)
Definition unpriced_visit : Appointment :=
  mkAppointment 1700000000000 "scheduled"
    (mkCost 100 [mkCharge "transport" None] (Fin 100) 30 (Fin 70))
    (mkConsultation None None None) ["cost.additionalCharges"].


(** An appointment whose insurance cover exceeds its total: every input
    passes the schema. *)
Definition overinsured_visit : Appointment :=
  mkAppointment 1700000000000 "scheduled"
    (mkCost 0 [] (Fin 0) 30 (Fin 0))
    (mkConsultation None None None) ["cost.insuranceCovered"].

(** C5.  On non-negative inputs the recomputation run by [save] can
    store a negative [patientPayment], which the schema's own [min]
    validator on that path rules out: base price 0, no charges and 30
    covered give a total of 0 and a patient payment of -30. *)
Lemma calculateTotalCost_negative_patientPayment :
  0 <= basePrice (cost overinsured_visit)
  /\ 0 <= insuranceCovered (cost overinsured_visit)
  /\ totalAmount (cost (snd (save overinsured_visit))) = Fin 0
  /\ patientPayment (cost (snd (save overinsured_visit))) = Fin (-30)
  /\ patientPayment_min_ok (snd (save overinsured_visit)) = false.
Proof. cbn. repeat split; try reflexivity; lia. Qed.

(** The visit of C5 as the database holds it after that save, read again. *)
Definition stored_visit : Appointment :=
  mkAppointment 1700000000000 "scheduled"
    (mkCost 0 [] (Fin 0) 30 (Fin (-30)))
    (mkConsultation None None None) [].

(** The pair (scheduled, confirmed) is in the table, and on that visit the
    promise of [updateStatus] is rejected all the same, by validation, with
    the write itself going through: the new status is on the document in
    memory and nowhere else. *)
Lemma updateStatus_listed_pair_rejected :
  in_transition_table (status stored_visit) "confirmed"
  /\ cost stored_visit = cost (snd (save overinsured_visit))
  /\ (exists e,
        updateStatus_promise (fun _ => Normal tt) 1700000600000 "confirmed" stored_visit
        = Throw e
        /\ err_name e = "ValidationError")
  /\ snd (updateStatus 1700000600000 "confirmed" stored_visit)
     = stamp 1700000600000 "confirmed" stored_visit.
Proof.
  split; [left; split; [reflexivity | left; reflexivity]|].
  split; [reflexivity|]. split; [|reflexivity].
  eexists. split; reflexivity.
Qed.

(** *** Eligibility *)

(** Comparing a whole number of hours with a span of milliseconds. *)
Lemma hours_le (h d : Z) :
  Qle_bool (h # 1) ((d # 1) / ((1000 * 3600) # 1))%Q = true <-> h * 3600 * 1000 <= d.
Proof.
  change (1000 * 3600) with 3600000. unfold Qle_bool. cbn.
  rewrite Pos.mul_1_l, Z.leb_le. lia.
Qed.

(** C3.  [canBeCanceled] holds exactly when the status is scheduled or
    confirmed and the appointment is at least 24 hours after [now];
    [canBeRescheduled] likewise with 2 hours. *)
Theorem eligibility_predicates (now : Z) (a : Appointment) :
  (canBeCanceled now a = true <->
     (status a = "scheduled" \/ status a = "confirmed")
     /\ 24 * 3600 * 1000 <= appointmentDateTime a - now)
  /\ (canBeRescheduled now a = true <->
     (status a = "scheduled" \/ status a = "confirmed")
     /\ 2 * 3600 * 1000 <= appointmentDateTime a - now).
Proof.
  unfold canBeCanceled, canBeRescheduled. cbv zeta.
  rewrite !andb_true_iff, !hours_le, !includes_In. simpl In.
  intuition congruence.
Qed.

(** *** Consultation stamps *)

(** [Math.round] of a quotient of integers, in integer arithmetic. *)
Lemma Math_round_minutes (n : Z) :
  Math_round ((n # 1) / ((1000 * 60) # 1))%Q = (n + 30000) / 60000.
Proof.
  change (1000 * 60) with 60000. unfold Math_round. cbn.
  rewrite Pos.mul_1_l.
  replace (n * 1 * 2 + 1 * 60000) with ((n + 30000) * 2) by lia.
  change (Z.pos (60000 * 2)) with (60000 * 2).
  apply Z.div_mul_cancel_r; lia.
Qed.

(** The rounded number of minutes is the nearest one, a half going up. *)
Lemma Math_round_minutes_nearest (n d : Z) :
  Math_round ((n # 1) / ((1000 * 60) # 1))%Q = d <->
  60000 * d - 30000 <= n < 60000 * d + 30000.
Proof.
  rewrite Math_round_minutes. split.
  - intros <-. pose proof (Z.mul_div_le (n + 30000) 60000 ltac:(lia)).
    pose proof (Z.mul_succ_div_gt (n + 30000) 60000 ltac:(lia)). lia.
  - intros H. symmetry.
    apply (Z.div_unique (n + 30000) 60000 d (n + 30000 - 60000 * d)); lia.
Qed.

(** The two stamping transitions, once the table lets them through. *)
Lemma updateStatus_in_progress (now : Z) (a : Appointment) (allowed : list string) :
  prop_get validTransitions (status a) = Some allowed ->
  includes allowed "in-progress" = true ->
  updateStatus now "in-progress" a
  = save (set_startTime now (set_status "in-progress" a)).
Proof. intros Hget Hinc. unfold updateStatus. rewrite Hget, Hinc. reflexivity. Qed.

Lemma updateStatus_completed (now : Z) (a : Appointment) (allowed : list string) :
  prop_get validTransitions (status a) = Some allowed ->
  includes allowed "completed" = true ->
  updateStatus now "completed" a
  = save
      match startTime (consultation a) with
      | Some start =>
          set_actualDuration (Math_round (((now - start) # 1) / ((1000 * 60) # 1))%Q)
            (set_endTime now (set_status "completed" a))
      | None => set_endTime now (set_status "completed" a)
      end.
Proof. intros Hget Hinc. unfold updateStatus. rewrite Hget, Hinc. reflexivity. Qed.

Lemma updateStatus_inv (now : Z) (to : string) (a a' : Appointment) :
  updateStatus now to a = (Normal tt, a') ->
  exists allowed, prop_get validTransitions (status a) = Some allowed
                  /\ includes allowed to = true.
Proof.
  unfold updateStatus. destruct (prop_get _ _) as [allowed|]; [|discriminate].
  destruct (includes allowed to) eqn:Hinc; cbn; [|discriminate].
  intros _. eauto.
Qed.

(** C4.  A successful [updateStatus] to in-progress stores [now] as
    [consultation.startTime]; one to completed stores [now] as
    [consultation.endTime] and, when a start time is recorded, the number
    of minutes from start to end, rounded to the nearest, as
    [actualDuration], and otherwise leaves [actualDuration] as it was;
    from confirmed, going to in-progress and, 25 minutes later, to
    completed succeeds and gives an [actualDuration] of 25. *)
Theorem updateStatus_consultation_stamps (now : Z) (a a' : Appointment) :
  (updateStatus now "in-progress" a = (Normal tt, a') ->
     startTime (consultation a') = Some now)
  /\ (updateStatus now "completed" a = (Normal tt, a') ->
     endTime (consultation a') = Some now
     /\ match startTime (consultation a) with
        | Some start =>
            exists d, actualDuration (consultation a') = Some d
                      /\ 60000 * d - 30000 <= now - start < 60000 * d + 30000
        | None => actualDuration (consultation a') = actualDuration (consultation a)
        end)
  /\ (status a = "confirmed" ->
     exists a1 a2,
       updateStatus now "in-progress" a = (Normal tt, a1)
       /\ updateStatus (now + 25 * 60 * 1000) "completed" a1 = (Normal tt, a2)
       /\ actualDuration (consultation a2) = Some 25).
Proof.
  split; [|split].
  - intros H. destruct (updateStatus_inv _ _ _ _ H) as [allowed [Hget Hinc]].
    rewrite (updateStatus_in_progress now a allowed Hget Hinc) in H.
    apply (f_equal snd) in H. cbn [snd] in H. subst a'.
    rewrite consultation_save. reflexivity.
  - intros H. destruct (updateStatus_inv _ _ _ _ H) as [allowed [Hget Hinc]].
    rewrite (updateStatus_completed now a allowed Hget Hinc) in H.
    apply (f_equal snd) in H. cbn [snd] in H. subst a'.
    rewrite consultation_save.
    destruct (startTime (consultation a)) as [start|]; (split; [reflexivity|]).
    + eexists. split; [reflexivity|]. now apply Math_round_minutes_nearest.
    + reflexivity.
  - intros Hst.
    set (a1 := snd (save (set_startTime now (set_status "in-progress" a)))).
    assert (H1 : updateStatus now "in-progress" a = (Normal tt, a1)).
    { rewrite (updateStatus_in_progress now a
                 ["in-progress"; "canceled"; "no-show"; "rescheduled"]);
        [reflexivity | rewrite Hst; reflexivity | reflexivity]. }
    assert (Hst1 : status a1 = "in-progress").
    { unfold a1. rewrite status_save. reflexivity. }
    assert (Hstart : startTime (consultation a1) = Some now).
    { unfold a1. rewrite consultation_save. reflexivity. }
    exists a1. eexists. split; [exact H1|]. split.
    + rewrite (updateStatus_completed _ a1 ["completed"; "canceled"]);
        [apply save_returns | rewrite Hst1; reflexivity | reflexivity].
    + rewrite consultation_save, Hstart.
      cbn [consultation actualDuration set_actualDuration markModified].
      f_equal. apply Math_round_minutes_nearest. lia.
Qed.

Definition waiting_visit : Appointment :=
  mkAppointment 1700000000000 "confirmed"
    (mkCost 100 [] (Fin 100) 0 (Fin 100))
    (mkConsultation None None None) [].

Lemma updateStatus_consultation_stamps_witness :
  exists a1 a2,
    updateStatus 1700000000000 "in-progress" waiting_visit = (Normal tt, a1)
    /\ updateStatus 1700001500000 "completed" a1 = (Normal tt, a2)
    /\ startTime (consultation a1) = Some 1700000000000
    /\ endTime (consultation a2) = Some 1700001500000
    /\ actualDuration (consultation a2) = Some 25.
Proof.
  destruct (updateStatus_consultation_stamps 1700000000000 waiting_visit waiting_visit)
    as (_ & _ & Hrun).
  destruct (Hrun eq_refl) as (a1 & a2 & H1 & H2 & Hd).
  exists a1, a2.
  destruct (updateStatus_consultation_stamps 1700000000000 waiting_visit a1) as (Hs & _ & _).
  destruct (updateStatus_consultation_stamps 1700001500000 a1 a2) as (_ & He & _).
  repeat split; try assumption.
  - exact (Hs H1).
  - exact (proj1 (He H2)).
Defined.

End AppointmentProps.

(** ** The cache service *)

Module CacheProps.
Import Js JSON CacheService JsProps.

(** The store cannot serve a command: the service is flagged as not
    connected, it has no client, or the command throws. *)
Definition store_unreachable {A : Type} (cmd : M Redis.Server A) (this : CacheService) : Prop :=
  isConnected this = false
  \/ client this = None
  \/ exists srv e, client this = Some srv /\ fst (cmd srv) = Throw e.

Lemma unavailable_false (this : CacheService) :
  unavailable this = false ->
  isConnected this = true /\ exists srv, client this = Some srv.
Proof.
  unfold unavailable. destruct (isConnected this); [|discriminate].
  destruct (client this) as [srv|]; [eauto | discriminate].
Qed.

(** A guarded client call that cannot be served falls into the [catch]
    branch or returns at the guard. *)
Lemma guarded_unreachable {A B : Type} (cmd : M Redis.Server A) (k : A -> M CacheService B)
    (fallback : B) (this : CacheService) :
  store_unreachable cmd this ->
  exists this',
    try_catch
      (fun this0 => if unavailable this0 then ret fallback this0
                    else bind (on_client cmd) k this0)
      (fun error => ret fallback) this
    = (Normal fallback, this').
Proof.
  intros H. unfold try_catch.
  destruct (unavailable this) eqn:Hun; [eexists; reflexivity|].
  destruct (unavailable_false this Hun) as [Hc [srv Hsrv]].
  destruct H as [H | [H | (srv' & e & H & Hthrow)]]; try congruence.
  rewrite Hsrv in H. injection H as <-.
  unfold bind, on_client. rewrite Hsrv.
  destruct (cmd srv) as [r srv1]. cbn in Hthrow. subst r. eexists. reflexivity.
Qed.

Lemma get_total (key : string) (this : CacheService) :
  exists v this', get key this = (Normal v, this').
Proof.
  unfold get, try_catch.
  destruct (unavailable this); [do 2 eexists; reflexivity|].
  unfold bind.
  destruct (on_client (Redis.GET key) this) as [[[text|]|e] this1];
    try (do 2 eexists; reflexivity).
  destruct (String.eqb text ""); [do 2 eexists; reflexivity|].
  unfold lift. destruct (parse text); do 2 eexists; reflexivity.
Qed.

Lemma set_total (key : string) (v : Json) (expiration : Z) (this : CacheService) :
  exists b this', set key v expiration this = (Normal b, this').
Proof.
  unfold set, try_catch.
  destruct (unavailable this); [do 2 eexists; reflexivity|].
  unfold bind.
  destruct (on_client _ this) as [[[]|e] this1]; do 2 eexists; reflexivity.
Qed.

Lemma del_total (key : string) (this : CacheService) :
  exists b this', del key this = (Normal b, this').
Proof.
  unfold del, try_catch.
  destruct (unavailable this); [do 2 eexists; reflexivity|].
  unfold bind.
  destruct (on_client _ this) as [[z|e] this1]; do 2 eexists; reflexivity.
Qed.

(** C6.  When the store cannot serve the command (the service is not
    connected, has no client, or the command throws), [get] resolves to
    [null], [set] to [false] and [del] to [false]; and in every state each
    of the three resolves, none rejects. *)
Theorem cache_operations_best_effort (key : string) (v : Json) (expiration : Z)
    (this : CacheService) :
  (store_unreachable (Redis.GET key) this ->
     exists this', get key this = (Normal JNull, this'))
  /\ (store_unreachable (Redis.SETEX key expiration (stringify v)) this ->
     exists this', set key v expiration this = (Normal false, this'))
  /\ (store_unreachable (Redis.DEL key) this ->
     exists this', del key this = (Normal false, this'))
  /\ (exists r this', get key this = (Normal r, this'))
  /\ (exists r this', set key v expiration this = (Normal r, this'))
  /\ (exists r this', del key this = (Normal r, this')).
Proof.
  repeat split.
  - intros H. apply (guarded_unreachable _ _ JNull this H).
  - intros H. apply (guarded_unreachable _ _ false this H).
  - intros H. apply (guarded_unreachable _ _ false this H).
  - apply get_total.
  - apply set_total.
  - apply del_total.
Qed.

Definition unreachable_service : CacheService :=
  mkCacheService (Some (Redis.mkServer false ∅)) true.

Lemma cache_operations_best_effort_witness :
  (exists this', get "production:user:42" unreachable_service = (Normal JNull, this'))
  /\ (exists this',
        set "production:user:42" (JObj [("name", JStr "Asha")]) 1800 unreachable_service
        = (Normal false, this'))
  /\ (exists this', del "production:user:42" unreachable_service = (Normal false, this')).
Proof.
  destruct (cache_operations_best_effort "production:user:42" (JObj [("name", JStr "Asha")])
              1800 unreachable_service) as (Hget & Hset & Hdel & _).
  split; [|split].
  - apply Hget. right. right. do 2 eexists. split; reflexivity.
  - apply Hset. right. right. do 2 eexists. split; reflexivity.
  - apply Hdel. right. right. do 2 eexists. split; reflexivity.
Defined.

End CacheProps.

(** ** Invalidation *)

Module InvalidationProps.
Import Js JSON CacheService CacheMiddleware JsProps CacheProps.

(** *** Glob patterns *)

Lemma glob_star (pattern text : string) :
  Redis.glob (String "*" pattern) text
  = Redis.glob pattern text
    || match text with
       | EmptyString => false
       | String _ text' => Redis.glob (String "*" pattern) text'
       end.
Proof. destruct text; reflexivity. Qed.

Lemma glob_star_only (text : string) : Redis.glob "*" text = true.
Proof.
  induction text as [|c text IH]; [reflexivity|].
  rewrite glob_star, IH. apply orb_true_r.
Qed.

Lemma glob_star_skip (pattern a text : string) :
  Redis.glob (String "*" pattern) text = true ->
  Redis.glob (String "*" pattern) (a ++ text) = true.
Proof.
  intros H. induction a as [|c a IH]; [exact H|].
  change (String c a ++ text) with (String c (a ++ text)).
  rewrite glob_star, IH. apply orb_true_r.
Qed.

(** Every key with a [services] type field matches the services pattern. *)
Lemma services_pattern_matches (prefix suffix : string) :
  Redis.glob "*:services:*" (prefix ++ ":services:" ++ suffix) = true.
Proof.
  apply glob_star_skip. rewrite glob_star.
  change (Redis.glob ":services:*" (":services:" ++ suffix)) with (Redis.glob "*" suffix).
  rewrite glob_star_only. reflexivity.
Qed.

Lemma generateKey_services (env : option string) (identifier : string)
    (params : list (string * Json)) :
  Redis.glob "*:services:*" (generateKey env "services" identifier params) = true.
Proof.
  unfold generateKey. cbv zeta.
  change (environment env ++ ":" ++ "services" ++ ":" ++ identifier ++ ?p)
    with (environment env ++ ":services:" ++ (identifier ++ p)).
  apply services_pattern_matches.
Qed.

(** *** Deleting the keys a pattern matches *)

(** A service that is connected to a reachable server. *)
Definition connected (srv : Redis.Server) : CacheService := mkCacheService (Some srv) true.

Lemma keys_connected (pattern : string) (srv : Redis.Server) :
  Redis.reachable srv = true ->
  keys pattern (connected srv)
  = (Normal (List.filter (Redis.glob pattern) (map fst (map_to_list (Redis.db srv)))),
     connected srv).
Proof.
  intros Hr. unfold keys, try_catch, on_client, Redis.KEYS, Redis.command. cbn.
  rewrite Hr. reflexivity.
Qed.

Lemma del_connected (key : string) (srv : Redis.Server) :
  Redis.reachable srv = true ->
  del key (connected srv)
  = (Normal true, connected (Redis.with_db (delete key (Redis.db srv)) srv)).
Proof.
  intros Hr. unfold del, try_catch, bind, on_client, Redis.DEL, Redis.command. cbn.
  rewrite Hr. reflexivity.
Qed.

Lemma get_absent (key : string) (srv : Redis.Server) :
  Redis.db srv !! key = None ->
  get key (connected srv) = (Normal JNull, connected srv).
Proof.
  intros Hk. unfold get, try_catch, bind, on_client, Redis.GET, Redis.command. cbn.
  destruct (Redis.reachable srv); [rewrite Hk|]; reflexivity.
Qed.

Definition delete_all (ks : list string) (d : gmap string Redis.Entry) : gmap string Redis.Entry :=
  fold_left (fun acc k => delete k acc) ks d.

Lemma lookup_delete_all (ks : list string) (d : gmap string Redis.Entry) (k : string) :
  delete_all ks d !! k = if bool_decide (k ∈ ks) then None else d !! k.
Proof.
  revert d. induction ks as [|k' ks IH]; intros d; [reflexivity|].
  cbn. rewrite IH.
  destruct (decide (k = k')) as [->|Hne].
  - rewrite lookup_delete_eq.
    rewrite (bool_decide_eq_true_2 (k' ∈ k' :: ks)) by (apply elem_of_cons; now left).
    now destruct (bool_decide _).
  - rewrite lookup_delete_ne by congruence.
    destruct (bool_decide (k ∈ ks)) eqn:Hin.
    + apply bool_decide_eq_true in Hin.
      rewrite bool_decide_eq_true_2 by (apply elem_of_cons; now right). reflexivity.
    + apply bool_decide_eq_false in Hin.
      rewrite bool_decide_eq_false_2; [reflexivity|].
      intros [?|?]%elem_of_cons; congruence.
Qed.

Lemma for_each_del (ks : list string) (srv : Redis.Server) :
  Redis.reachable srv = true ->
  for_each ks (fun key => bind (del key) (fun _ => ret tt)) (connected srv)
  = (Normal tt, connected (Redis.with_db (delete_all ks (Redis.db srv)) srv)).
Proof.
  intros Hr. revert srv Hr. induction ks as [|k ks IH]; intros srv Hr.
  - destruct srv. reflexivity.
  - cbn [for_each]. unfold bind at 1. unfold bind at 1.
    rewrite (del_connected k srv Hr). cbn [ret].
    rewrite IH by exact Hr. reflexivity.
Qed.

(** What is left of a database once the keys matching [pattern] are gone. *)
Definition purge (pattern : string) (d : gmap string Redis.Entry) : gmap string Redis.Entry :=
  delete_all (List.filter (Redis.glob pattern) (map fst (map_to_list d))) d.

Lemma lookup_purge (pattern : string) (d : gmap string Redis.Entry) (k : string) :
  purge pattern d !! k = if Redis.glob pattern k then None else d !! k.
Proof.
  unfold purge. rewrite lookup_delete_all.
  destruct (Redis.glob pattern k) eqn:Hg.
  - destruct (d !! k) as [e|] eqn:Hk.
    + rewrite bool_decide_eq_true_2; [reflexivity|].
      apply list_elem_of_In, filter_In. split; [|exact Hg].
      apply list_elem_of_In, list_elem_of_fmap. exists (k, e). split; [reflexivity|].
      now apply elem_of_map_to_list.
    + now destruct (bool_decide _).
  - rewrite bool_decide_eq_false_2; [reflexivity|].
    intros Hin. apply list_elem_of_In, filter_In in Hin. destruct Hin as [_ Hin]. congruence.
Qed.

Lemma delete_matching_connected (pattern : string) (srv : Redis.Server) :
  Redis.reachable srv = true ->
  delete_matching pattern (connected srv)
  = (Normal tt, connected (Redis.with_db (purge pattern (Redis.db srv)) srv)).
Proof.
  intros Hr. unfold delete_matching, bind.
  rewrite (keys_connected pattern srv Hr).
  apply (for_each_del _ srv Hr).
Qed.

Definition purge_all (patterns : list string) (d : gmap string Redis.Entry)
  : gmap string Redis.Entry :=
  fold_left (fun acc p => purge p acc) patterns d.

Lemma lookup_purge_all (patterns : list string) (d : gmap string Redis.Entry) (k : string) :
  purge_all patterns d !! k
  = if existsb (fun p => Redis.glob p k) patterns then None else d !! k.
Proof.
  revert d. induction patterns as [|p ps IH]; intros d; [reflexivity|].
  cbn. rewrite IH, lookup_purge.
  destruct (Redis.glob p k); [now destruct (existsb _ ps) | reflexivity].
Qed.

Lemma for_each_delete_matching (patterns : list string) (srv : Redis.Server) :
  Redis.reachable srv = true ->
  for_each patterns delete_matching (connected srv)
  = (Normal tt, connected (Redis.with_db (purge_all patterns (Redis.db srv)) srv)).
Proof.
  intros Hr. revert srv Hr. induction patterns as [|p ps IH]; intros srv Hr.
  - destruct srv. reflexivity.
  - cbn [for_each]. unfold bind at 1.
    rewrite (delete_matching_connected p srv Hr).
    rewrite IH by exact Hr. reflexivity.
Qed.

Lemma invalidatePatterns_array (patterns : list string) (req : Request) (srv : Redis.Server) :
  Redis.reachable srv = true ->
  invalidatePatterns (PatternArray patterns) req (connected srv)
  = (Normal tt, connected (Redis.with_db (purge_all patterns (Redis.db srv)) srv)).
Proof.
  intros Hr. unfold invalidatePatterns, try_catch.
  rewrite (for_each_delete_matching patterns srv Hr). reflexivity.
Qed.

(** The key a cache middleware reads and writes for a request. *)
Definition cache_key (options : Options) (req : Request) : string :=
  match keyGenerator options with
  | Some generate => generate req
  | None => generateDefaultKey req
  end.

(** A read whose key is absent runs the handler. *)
Lemma cacheMiddleware_absent (options : Options) (next : Request -> Reply) (now : string)
    (req : Request) (srv : Redis.Server) :
  skipCache options = false ->
  condition options req = true ->
  Redis.db srv !! cache_key options req = None ->
  exists out this',
    cacheMiddleware options next now req (connected srv) = (Normal out, this')
    /\ handlerRan out = true
    /\ prop_get (headers (response out)) "X-Cache" <> Some "HIT".
Proof.
  intros Hskip Hcond Habsent. unfold cacheMiddleware.
  rewrite Hskip, Hcond. cbn [negb orb]. cbv zeta.
  fold (cache_key options req).
  unfold try_catch, bind at 1.
  rewrite (get_absent _ srv Habsent). cbn [truthy].
  destruct (next req) as [status data | status text | status];
    try (do 2 eexists; split; [reflexivity | split; [reflexivity | discriminate]]).
  unfold bind at 1.
  destruct (successful status data).
  - unfold bind at 1.
    destruct (set_total (cache_key options req) data (expiration options) (connected srv))
      as (b & this' & Hset).
    rewrite Hset. do 2 eexists. split; [reflexivity | split; [reflexivity | discriminate]].
  - do 2 eexists. split; [reflexivity | split; [reflexivity | discriminate]].
Qed.

Lemma successful_status (status : Z) (data : Json) :
  successful status data = true -> (status <? 400) = true.
Proof. unfold successful. intros H. now apply andb_true_iff in H. Qed.

(** A successful JSON reply through [invalidateServiceCache]: the reply
    goes out unchanged and the patterns are purged (once for each of
    [res.end], [res.send] and [res.json]). *)
Lemma invalidateServiceCache_connected (next : Request -> Reply) (req : Request)
    (status : Z) (data : Json) (srv : Redis.Server) :
  Redis.reachable srv = true ->
  next req = ReplyJson status data ->
  successful status data = true ->
  let ps := ["*:services:*"; "*:appointments:*"] in
  invalidateServiceCache next req (connected srv)
  = (Normal (mkOutcome (respond [] (ReplyJson status data)) true),
     connected (Redis.with_db (purge_all ps (purge_all ps (purge_all ps (Redis.db srv)))) srv)).
Proof.
  intros Hr Hnext Hok ps.
  pose proof (successful_status status data Hok) as Hlt.
  unfold invalidateServiceCache, invalidateCache. cbv zeta.
  rewrite Hnext. cbn [reply_status]. rewrite Hlt, Hok.
  cbv beta iota. fold ps.
  apply bind_normal with (a := tt)
    (s' := connected (Redis.with_db (purge_all ps (purge_all ps (purge_all ps (Redis.db srv)))) srv));
    [|reflexivity].
  eapply bind_normal; [apply invalidatePatterns_array; exact Hr|].
  eapply bind_normal; [apply invalidatePatterns_array; exact Hr|].
  etransitivity; [apply invalidatePatterns_array; exact Hr | reflexivity].
Qed.

(** C8.  On a connected, reachable store, once a successful JSON reply
    has gone through [invalidateServiceCache] and its invalidation has run,
    every key matching [*:services:*], cached before or not, is absent
    from the store: [get] on it resolves to [null] and a cache middleware
    reading it runs the handler and does not answer [X-Cache: HIT]; and
    the keys of [serviceListCache] all match that pattern. *)
Theorem invalidation_then_miss (env : option string) (next : Request -> Reply)
    (req : Request) (status : Z) (data : Json) (srv : Redis.Server) :
  Redis.reachable srv = true ->
  next req = ReplyJson status data ->
  successful status data = true ->
  (exists out srv',
     invalidateServiceCache next req (connected srv) = (Normal out, connected srv')
     /\ response out = respond [] (ReplyJson status data)
     /\ forall key,
          Redis.glob "*:services:*" key = true ->
          Redis.db srv' !! key = None
          /\ get key (connected srv') = (Normal JNull, connected srv')
          /\ forall options next' now req',
               skipCache options = false ->
               condition options req' = true ->
               cache_key options req' = key ->
               exists out' this',
                 cacheMiddleware options next' now req' (connected srv') = (Normal out', this')
                 /\ handlerRan out' = true
                 /\ prop_get (headers (response out')) "X-Cache" <> Some "HIT")
  /\ (forall req', Redis.glob "*:services:*" (serviceListKey env req') = true).
Proof.
  intros Hr Hnext Hok. split; [|intros req'; apply generateKey_services].
  do 2 eexists. split; [apply (invalidateServiceCache_connected next req status data srv Hr Hnext Hok)|].
  split; [reflexivity|].
  intros key Hglob.
  match goal with |- Redis.db ?s !! _ = None /\ _ =>
    assert (Hgone : Redis.db s !! key = None) end.
  { cbn [Redis.db Redis.with_db]. rewrite lookup_purge_all. cbn [existsb].
    rewrite Hglob. reflexivity. }
  split; [exact Hgone|]. split; [apply get_absent; exact Hgone|].
  intros options next' now req' Hskip Hcond Hkey.
  apply cacheMiddleware_absent; try assumption. rewrite Hkey. exact Hgone.
Qed.

Definition booking_request : Request :=
  mkRequest "POST" "/api/services/7/book" [] (Some "42") "10.0.0.1".

Definition booked : Json :=
  JObj [("success", JBool true); ("message", JStr "Service booked")].

Definition booking_handler (req : Request) : Reply := ReplyJson 201 booked.

(** A store that holds a cached service listing. *)
Definition stocked_server : Redis.Server :=
  Redis.mkServer true
    (<["production:services:list:page=1&limit=10"
       := Redis.mkEntry (stringify (JObj [("success", JBool true); ("count", JNum 0)]))
                        (Some 300)]> ∅).

Lemma invalidation_then_miss_witness :
  Redis.db stocked_server !! "production:services:list:page=1&limit=10"
  = Some (Redis.mkEntry (stringify (JObj [("success", JBool true); ("count", JNum 0)]))
                        (Some 300))
  /\ exists out srv',
       invalidateServiceCache booking_handler booking_request (connected stocked_server)
       = (Normal out, connected srv')
       /\ get "production:services:list:page=1&limit=10" (connected srv')
          = (Normal JNull, connected srv').
Proof.
  split; [reflexivity|].
  destruct (invalidation_then_miss (Some "production") booking_handler booking_request
              201 booked stocked_server eq_refl eq_refl eq_refl)
    as [(out & srv' & Hrun & _ & Hkeys) _].
  exists out, srv'. split; [exact Hrun|].
  exact (proj1 (proj2 (Hkeys "production:services:list:page=1&limit=10" eq_refl))).
Defined.

End InvalidationProps.

(** ** [JSON.parse] after [JSON.stringify] *)

Module JsonProps.
Import Js JSON.

Lemma append_cons (x : ascii) (a b : string) : String x a ++ b = String x (a ++ b).
Proof. reflexivity. Qed.

Lemma append_assoc (a b c : string) : (a ++ b) ++ c = a ++ (b ++ c).
Proof.
  induction a as [|x a IH]; [reflexivity|]. rewrite !append_cons. f_equal. exact IH.
Qed.

Lemma length_append (a b : string) :
  String.length (a ++ b) = (String.length a + String.length b)%nat.
Proof.
  induction a as [|x a IH]; [reflexivity|]. rewrite append_cons. cbn [String.length].
  now rewrite IH.
Qed.

(** *** String literals *)

Lemma parse_escape_char (c : ascii) (t : string) :
  parse_string_body (escape_char c ++ t)
  = match parse_string_body t with
    | Some (str, out) => Some (String c str, out)
    | None => None
    end.
Proof. destruct c as [[] [] [] [] [] [] [] []]; reflexivity. Qed.

Lemma parse_escape (s rest : string) :
  parse_string_body (escape s ++ String dquote rest) = Some (s, rest).
Proof.
  induction s as [|c s IH]; [reflexivity|].
  cbn [escape]. rewrite append_assoc, parse_escape_char, IH. reflexivity.
Qed.

Lemma parse_quote (s rest : string) :
  parse_string_body (escape s ++ String dquote "" ++ rest) = Some (s, rest).
Proof. apply parse_escape. Qed.

(** *** Numerals *)

(** What may follow a numeral: not a digit, a point or an exponent. *)
Definition numeral_end (s : string) : bool :=
  match s with
  | EmptyString => true
  | String c _ => negb (is_digit c) && negb (existsb (Ascii.eqb c) ["."; "e"; "E"]%char)
  end.

Lemma take_digits_uint (d : Decimal.uint) (rest : string) :
  numeral_end rest = true ->
  take_digits (NilEmpty.string_of_uint d ++ rest) = (NilEmpty.string_of_uint d, rest).
Proof.
  intros Hend. induction d; cbn [NilEmpty.string_of_uint]; rewrite ?append_cons;
    cbn [take_digits];
    try (change (is_digit _) with true; cbv iota; rewrite IHd; reflexivity).
  change ("" ++ rest) with rest.
  destruct rest as [|c rest]; [reflexivity|].
  cbn in Hend. cbn [take_digits]. apply andb_true_iff in Hend as [Hd _].
  destruct (is_digit c); [discriminate | reflexivity].
Qed.

Lemma to_uint_head (p : positive) :
  exists c t, NilEmpty.string_of_uint (Pos.to_uint p) = String c t
              /\ is_digit c = true /\ c <> "0"%char.
Proof.
  pose proof (DecimalPos.Unsigned.to_uint_nonzero p) as Hnz.
  pose proof (DecimalPos.Unsigned.to_uint_nonnil p) as Hnn.
  assert (Hnorm : Decimal.unorm (Pos.to_uint p) = Pos.to_uint p).
  { pose proof (DecimalN.Unsigned.to_of (Pos.to_uint p)) as H.
    pose proof (DecimalN.Unsigned.of_to (Npos p)) as Hof.
    change (N.to_uint (Npos p)) with (Pos.to_uint p) in Hof.
    rewrite Hof in H. symmetry. exact H. }
  destruct (Pos.to_uint p) as [|u|u|u|u|u|u|u|u|u|u] eqn:E; try congruence;
    try (do 2 eexists; split; [reflexivity | split; [reflexivity | discriminate]]).
  exfalso. destruct u as [|w|w|w|w|w|w|w|w|w|w]; [now apply Hnz| | | | | | | | | |];
    (rewrite unorm_D0 in Hnorm;
     match type of Hnorm with Decimal.unorm ?w = _ =>
       pose proof (nb_digits_unorm w ltac:(discriminate)) as Hlen;
       rewrite Hnorm in Hlen; cbn in Hlen; lia end).
Qed.

Lemma uint_string_nonnil (d : Decimal.uint) :
  d <> Decimal.Nil -> NilZero.string_of_uint d = NilEmpty.string_of_uint d.
Proof. destruct d; [congruence | reflexivity ..]. Qed.

Lemma parse_unsigned_string_of_N (n : N) (rest : string) :
  numeral_end rest = true ->
  parse_unsigned (string_of_N n ++ rest) = Some (n, rest).
Proof.
  intros Hend.
  assert (Hout : starts_with_any ["."; "e"; "E"]%char rest = false).
  { destruct rest as [|c rest]; [reflexivity|]. cbn in Hend |- *.
    apply andb_true_iff in Hend as [_ He]. now apply negb_true_iff in He. }
  unfold string_of_N, parse_unsigned. destruct n as [|p].
  - change (NilZero.string_of_uint (N.to_uint 0)) with (NilEmpty.string_of_uint (Decimal.D0 Decimal.Nil)).
    rewrite (take_digits_uint _ rest Hend). cbn. rewrite Hout. reflexivity.
  - change (N.to_uint (Npos p)) with (Pos.to_uint p).
    pose proof (DecimalPos.Unsigned.to_uint_nonnil p) as Hnn.
    pose proof (NilZero.usu _ Hnn) as Husu.
    rewrite (uint_string_nonnil _ Hnn) in *.
    rewrite (take_digits_uint _ rest Hend).
    destruct (to_uint_head p) as (c & t & Hs & Hd & Hnz). rewrite Hs in *.
    destruct (Ascii.eqb_spec c "0"); [contradiction|]. cbn [andb].
    rewrite Hout, Husu. f_equal. f_equal.
    apply (DecimalN.Unsigned.of_to (Npos p)).
Qed.

(** The first character of a numeral. *)
Definition numeral_start (c : ascii) : bool := is_digit c || Ascii.eqb c "-".

Lemma string_of_N_head (n : N) :
  exists c t, string_of_N n = String c t /\ is_digit c = true.
Proof.
  unfold string_of_N. destruct n as [|p]; [do 2 eexists; split; reflexivity|].
  change (N.to_uint (Npos p)) with (Pos.to_uint p).
  rewrite (uint_string_nonnil _ (DecimalPos.Unsigned.to_uint_nonnil p)).
  destruct (to_uint_head p) as (c & t & Hs & Hd & _). eauto.
Qed.

Lemma string_of_Z_N (z : Z) :
  string_of_Z z = if (z <? 0)%Z then String "-" (string_of_N (Z.abs_N z))
                  else string_of_N (Z.abs_N z).
Proof. destruct z; reflexivity. Qed.

Lemma parse_number_digit (c : ascii) (t : string) :
  is_digit c = true ->
  parse_number (String c t)
  = match parse_unsigned (String c t) with
    | Some (n, out) => Some (Z.of_N n, out)
    | None => None
    end.
Proof. destruct c as [[] [] [] [] [] [] [] []]; intros H; try discriminate H; reflexivity. Qed.

Lemma parse_number_string_of_Z (z : Z) (rest : string) :
  numeral_end rest = true ->
  parse_number (string_of_Z z ++ rest) = Some (z, rest).
Proof.
  intros Hend. rewrite string_of_Z_N.
  destruct (z <? 0) eqn:Hneg.
  - rewrite append_cons. unfold parse_number.
    rewrite (parse_unsigned_string_of_N _ rest Hend).
    f_equal. f_equal. apply Z.ltb_lt in Hneg. lia.
  - destruct (string_of_N_head (Z.abs_N z)) as (c & t & Hs & Hd).
    pose proof (parse_unsigned_string_of_N (Z.abs_N z) rest Hend) as Hp.
    rewrite Hs in *. rewrite append_cons in *.
    rewrite (parse_number_digit c _ Hd), Hp.
    f_equal. f_equal. apply Z.ltb_ge in Hneg. lia.
Qed.

(** *** Values *)

(** What may follow a value in a text: nothing, a comma or a closing
    bracket. *)
Definition value_end (s : string) : bool :=
  match s with
  | EmptyString => true
  | String c _ => Ascii.eqb c "," || Ascii.eqb c "]" || Ascii.eqb c "}"
  end.

(** The first character of the text of a value. *)
Definition value_start (c : ascii) : bool :=
  numeral_start c
  || existsb (Ascii.eqb c) ["n"; "t"; "f"; dquote; "["; "{"]%char.

Lemma value_end_numeral_end (s : string) : value_end s = true -> numeral_end s = true.
Proof.
  destruct s as [|c s]; [reflexivity|].
  destruct c as [[] [] [] [] [] [] [] []]; intros H; try discriminate H; reflexivity.
Qed.

Lemma value_end_skip_ws (s : string) : value_end s = true -> skip_ws s = s.
Proof.
  destruct s as [|c s]; [reflexivity|].
  destruct c as [[] [] [] [] [] [] [] []]; intros H; try discriminate H; reflexivity.
Qed.

(** The size of a value: a bound on the fuel reading it takes. *)
Fixpoint json_size (v : Json) : nat :=
  match v with
  | JArr items => S (list_sum (map (fun x => S (json_size x)) items))
  | JObj entries => S (list_sum (map (fun kv => S (json_size (snd kv))) entries))
  | _ => 1
  end.

Fixpoint distinct (l : list string) : bool :=
  match l with
  | [] => true
  | k :: rest => negb (existsb (String.eqb k) rest) && distinct rest
  end.

(** A value whose objects have distinct property names, none of them an
    array index: its properties are enumerated in the order written. *)
Fixpoint plain (v : Json) : bool :=
  match v with
  | JArr items => forallb plain items
  | JObj entries =>
      distinct (map fst entries)
      && forallb (fun kv => match array_index (fst kv) with
                            | None => true
                            | Some _ => false
                            end) entries
      && forallb (fun kv => plain (snd kv)) entries
  | _ => true
  end.

(** The texts of the elements of an array and of the members of an
    object, as [stringify] lays them out. *)
Fixpoint stringify_elements (l : list Json) : string :=
  match l with
  | [] => ""
  | x :: rest =>
      stringify x ++ match rest with [] => "" | _ :: _ => "," ++ stringify_elements rest end
  end.

Fixpoint stringify_members (l : list (string * Json)) : string :=
  match l with
  | [] => ""
  | (k, x) :: rest =>
      quote k ++ ":" ++ stringify x
      ++ match rest with [] => "" | _ :: _ => "," ++ stringify_members rest end
  end.

Lemma stringify_JArr (items : list Json) :
  stringify (JArr items) = "[" ++ stringify_elements items ++ "]".
Proof.
  cbn [stringify].
  assert (H : forall l,
             (fix elements (l : list Json) : string :=
                match l with
                | [] => ""
                | x :: rest =>
                    stringify x ++ match rest with [] => "" | _ :: _ => "," ++ elements rest end
                end) l = stringify_elements l).
  { induction l as [|x rest IH]; [reflexivity|].
    cbn [stringify_elements]. rewrite <- IH. reflexivity. }
  now rewrite H.
Qed.

Lemma stringify_JObj (entries : list (string * Json)) :
  stringify (JObj entries) = "{" ++ stringify_members entries ++ "}".
Proof.
  cbn [stringify].
  assert (H : forall l,
             (fix members (l : list (string * Json)) : string :=
                match l with
                | [] => ""
                | (k, x) :: rest =>
                    quote k ++ ":" ++ stringify x
                    ++ match rest with [] => "" | _ :: _ => "," ++ members rest end
                end) l = stringify_members l).
  { induction l as [|[k x] rest IH]; [reflexivity|].
    cbn [stringify_members]. rewrite <- IH. reflexivity. }
  now rewrite H.
Qed.

Lemma stringify_head (v : Json) :
  exists c t, stringify v = String c t /\ value_start c = true.
Proof.
  destruct v as [|[]|z|s|items|entries].
  1-3, 5: do 2 eexists; split; reflexivity.
  - cbn [stringify]. rewrite string_of_Z_N. destruct (z <? 0).
    + do 2 eexists. split; reflexivity.
    + destruct (string_of_N_head (Z.abs_N z)) as (c & t & -> & Hd).
      exists c, t. split; [reflexivity|]. unfold value_start, numeral_start. now rewrite Hd.
  - rewrite stringify_JArr. do 2 eexists. split; reflexivity.
  - rewrite stringify_JObj. do 2 eexists. split; reflexivity.
Qed.

(** *** The parser, one production at a time *)

Lemma parse_value_numeral (fuel : nat) (c : ascii) (t : string) :
  numeral_start c = true ->
  parse_value (S fuel) (String c t)
  = match parse_number (String c t) with
    | Some (z, out) => Some (JNum z, out)
    | None => None
    end.
Proof. destruct c as [[] [] [] [] [] [] [] []]; intros H; try discriminate H; reflexivity. Qed.

Lemma parse_value_string (fuel : nat) (t : string) :
  parse_value (S fuel) (String dquote t)
  = match parse_string_body t with
    | Some (str, out) => Some (JStr str, out)
    | None => None
    end.
Proof. reflexivity. Qed.

Lemma parse_value_array (fuel : nat) (c : ascii) (t : string) :
  value_start c = true ->
  parse_value (S fuel) (String "[" (String c t))
  = match parse_elements fuel (String c t) with
    | Some (items, out) => Some (JArr items, out)
    | None => None
    end.
Proof. destruct c as [[] [] [] [] [] [] [] []]; intros H; try discriminate H; reflexivity. Qed.

Lemma parse_value_object (fuel : nat) (t : string) :
  parse_value (S fuel) (String "{" (String dquote t))
  = match parse_members fuel [] (String dquote t) with
    | Some (entries, out) => Some (JObj entries, out)
    | None => None
    end.
Proof. reflexivity. Qed.

Lemma parse_elements_step (fuel : nat) (s : string) :
  parse_elements (S fuel) s
  = match parse_value fuel s with
    | Some (x, out) =>
        match skip_ws out with
        | String ","%char out' =>
            match parse_elements fuel out' with
            | Some (items, out'') => Some (x :: items, out'')
            | None => None
            end
        | String "]"%char out' => Some ([x], out')
        | _ => None
        end
    | None => None
    end.
Proof. reflexivity. Qed.

Lemma parse_members_step (fuel : nat) (acc : list (string * Json)) (t : string) :
  parse_members (S fuel) acc (String dquote t)
  = match parse_string_body t with
    | Some (k, s2) =>
        match skip_ws s2 with
        | String ":"%char s3 =>
            match parse_value fuel s3 with
            | Some (x, out) =>
                match skip_ws out with
                | String ","%char out' => parse_members fuel (obj_set k x acc) out'
                | String "}"%char out' => Some (obj_set k x acc, out')
                | _ => None
                end
            | None => None
            end
        | _ => None
        end
    | None => None
    end.
Proof. reflexivity. Qed.

Lemma append_nil_l (s : string) : "" ++ s = s.
Proof. reflexivity. Qed.

Ltac norm_append :=
  repeat first [ rewrite append_cons | rewrite append_assoc | rewrite append_nil_l ].

Lemma append_nil_r (s : string) : s ++ "" = s.
Proof. induction s as [|c s IH]; [reflexivity|]. rewrite append_cons. now rewrite IH. Qed.

Lemma elements_last (x : Json) (tail : string) :
  stringify_elements [x] ++ tail = stringify x ++ tail.
Proof. cbn [stringify_elements]. now rewrite append_nil_r. Qed.

Lemma elements_more (x y : Json) (rest : list Json) (tail : string) :
  stringify_elements (x :: y :: rest) ++ tail
  = stringify x ++ String "," (stringify_elements (y :: rest) ++ tail).
Proof.
  change (stringify_elements (x :: y :: rest))
    with (stringify x ++ "," ++ stringify_elements (y :: rest)).
  norm_append. reflexivity.
Qed.

Lemma members_last (k : string) (x : Json) (tail : string) :
  stringify_members [(k, x)] ++ tail
  = String dquote (escape k ++ String dquote (String ":" (stringify x ++ tail))).
Proof.
  cbn [stringify_members]. unfold quote. rewrite append_nil_r.
  norm_append. reflexivity.
Qed.

Lemma members_more (k : string) (x : Json) (e : string * Json)
    (rest : list (string * Json)) (tail : string) :
  stringify_members ((k, x) :: e :: rest) ++ tail
  = String dquote
      (escape k
       ++ String dquote
            (String ":" (stringify x ++ String "," (stringify_members (e :: rest) ++ tail)))).
Proof.
  change (stringify_members ((k, x) :: e :: rest))
    with (quote k ++ ":" ++ stringify x ++ "," ++ stringify_members (e :: rest)).
  unfold quote. norm_append. reflexivity.
Qed.

Lemma list_sum_cons (a : nat) (l : list nat) : list_sum (a :: l) = (a + list_sum l)%nat.
Proof. reflexivity. Qed.

Lemma json_size_pos (v : Json) : (1 <= json_size v)%nat.
Proof. destruct v; cbn; lia. Qed.

Lemma string_of_Z_head (z : Z) :
  exists c t, string_of_Z z = String c t /\ numeral_start c = true.
Proof.
  rewrite string_of_Z_N. destruct (z <? 0); [do 2 eexists; split; reflexivity|].
  destruct (string_of_N_head (Z.abs_N z)) as (c & t & -> & Hd).
  exists c, t. split; [reflexivity|]. unfold numeral_start. now rewrite Hd.
Qed.

Section Reading.

(** The values up to a size [n] are read back. *)
Variable n : nat.
Hypothesis read_back :
  forall v, (json_size v <= n)%nat -> plain v = true ->
  forall fuel rest, (json_size v <= fuel)%nat -> value_end rest = true ->
  parse_value fuel (stringify v ++ rest) = Some (v, rest).

Lemma parse_elements_plain (items : list Json) (rest : string) :
  items <> [] ->
  Forall (fun x => (json_size x <= n)%nat /\ plain x = true) items ->
  forall fuel, (list_sum (map (fun x => S (json_size x)) items) <= fuel)%nat ->
  parse_elements fuel (stringify_elements items ++ String "]" rest) = Some (items, rest).
Proof.
  induction items as [|x more IH]; [congruence|]. intros _ Hall fuel Hfuel.
  inversion Hall as [|? ? [Hsize Hplain] Hmore]; subst.
  cbn [map] in Hfuel. rewrite list_sum_cons in Hfuel. destruct fuel as [|fuel]; [lia|].
  rewrite parse_elements_step. destruct more as [|y more].
  - rewrite elements_last.
    rewrite (read_back x Hsize Hplain fuel (String "]" rest) ltac:(lia) eq_refl).
    reflexivity.
  - rewrite elements_more.
    rewrite (read_back x Hsize Hplain fuel (String "," _) ltac:(lia) eq_refl).
    change (skip_ws (String "," ?s)) with (String "," s). cbv beta iota.
    rewrite IH; [reflexivity | discriminate | assumption | lia].
Qed.

Lemma parse_members_plain (entries : list (string * Json)) (rest : string) :
  entries <> [] ->
  Forall (fun kv => (json_size (snd kv) <= n)%nat /\ plain (snd kv) = true) entries ->
  forall acc fuel,
    (list_sum (map (fun kv => S (json_size (snd kv))) entries) <= fuel)%nat ->
    parse_members fuel acc (stringify_members entries ++ String "}" rest)
    = Some (fold_left (fun a kv => obj_set (fst kv) (snd kv) a) entries acc, rest).
Proof.
  induction entries as [|[k x] more IH]; [congruence|]. intros _ Hall acc fuel Hfuel.
  inversion Hall as [|? ? [Hsize Hplain] Hmore]; subst. cbn [snd] in Hsize, Hplain.
  cbn [map snd] in Hfuel. rewrite list_sum_cons in Hfuel. destruct fuel as [|fuel]; [lia|].
  destruct more as [|e more].
  - rewrite members_last, parse_members_step, parse_escape.
    change (skip_ws (String ":" ?s)) with (String ":" s). cbv beta iota.
    rewrite (read_back x Hsize Hplain fuel (String "}" rest) ltac:(lia) eq_refl).
    reflexivity.
  - rewrite members_more, parse_members_step, parse_escape.
    change (skip_ws (String ":" ?s)) with (String ":" s). cbv beta iota.
    rewrite (read_back x Hsize Hplain fuel (String "," _) ltac:(lia) eq_refl).
    change (skip_ws (String "," ?s)) with (String "," s). cbv beta iota.
    rewrite IH; [reflexivity | discriminate | assumption | lia].
Qed.
End Reading.

(** *** Objects written in enumeration order *)

Lemma has_key_In (k : string) (entries : list (string * Json)) :
  has_key k entries = true <-> In k (map fst entries).
Proof.
  unfold has_key. rewrite existsb_exists. split.
  - intros [[k' v] [Hin Heq]]. apply String.eqb_eq in Heq. cbn in Heq. subst.
    apply in_map_iff. now exists (k, v).
  - intros Hin. apply in_map_iff in Hin as [[k' v] [<- Hin]].
    exists (k', v). split; [assumption | apply String.eqb_refl].
Qed.

Lemma fold_obj_set_plain (entries acc : list (string * Json)) :
  List.NoDup (map fst (acc ++ entries)) ->
  Forall (fun kv => array_index (fst kv) = None) entries ->
  fold_left (fun a kv => obj_set (fst kv) (snd kv) a) entries acc = (acc ++ entries)%list.
Proof.
  revert acc. induction entries as [|[k x] more IH]; intros acc Hnd Hplain.
  - now rewrite app_nil_r.
  - inversion Hplain as [|? ? Hk Hmore]; subst. cbn [fst snd] in *.
    cbn [fold_left fst snd].
    assert (Hset : obj_set k x acc = (acc ++ [(k, x)])%list).
    { unfold obj_set. rewrite Hk.
      destruct (has_key k acc) eqn:Hhas; [|reflexivity].
      apply has_key_In in Hhas. rewrite map_app in Hnd. cbn [map fst] in Hnd.
      apply List.NoDup_remove_2 in Hnd. exfalso. apply Hnd, in_app_iff. now left. }
    rewrite Hset, IH; [now rewrite <- app_assoc | now rewrite <- app_assoc | assumption].
Qed.

Lemma distinct_NoDup (l : list string) : distinct l = true -> List.NoDup l.
Proof.
  induction l as [|k rest IH]; [constructor|]. cbn [distinct].
  intros H. apply andb_true_iff in H as [Hk Hrest]. constructor; [|auto].
  intros Hin. apply negb_true_iff in Hk.
  assert (existsb (String.eqb k) rest = true); [|congruence].
  apply existsb_exists. exists k. split; [assumption | apply String.eqb_refl].
Qed.

Lemma forallb_Forall {A : Type} (f : A -> bool) (l : list A) :
  forallb f l = true -> Forall (fun x => f x = true) l.
Proof.
  induction l as [|x l IH]; [constructor|]. cbn. intros H.
  apply andb_true_iff in H as [Hx Hl]. constructor; auto.
Qed.

Lemma size_in_elements (x : Json) (items : list Json) :
  In x items -> (json_size x < json_size (JArr items))%nat.
Proof.
  cbn [json_size]. induction items as [|y items IH]; [contradiction|].
  cbn [map]. rewrite list_sum_cons. intros [-> | Hin]; [lia|]. specialize (IH Hin). lia.
Qed.

Lemma size_in_members (kv : string * Json) (entries : list (string * Json)) :
  In kv entries -> (json_size (snd kv) < json_size (JObj entries))%nat.
Proof.
  cbn [json_size]. induction entries as [|e entries IH]; [contradiction|].
  cbn [map]. rewrite list_sum_cons. intros [-> | Hin]; [lia|]. specialize (IH Hin). lia.
Qed.

(** A plain value is read back from its text, whatever follows it. *)
Lemma parse_value_stringify (n : nat) (v : Json) :
  (json_size v <= n)%nat -> plain v = true ->
  forall fuel rest, (json_size v <= fuel)%nat -> value_end rest = true ->
  parse_value fuel (stringify v ++ rest) = Some (v, rest).
Proof.
  revert v. induction n as [|n IH]; intros v Hn Hplain fuel rest Hfuel Hend.
  { pose proof (json_size_pos v). lia. }
  destruct fuel as [|fuel]; [pose proof (json_size_pos v); lia|].
  destruct v as [|b|z|s|items|entries].
  - reflexivity.
  - destruct b; reflexivity.
  - cbn [stringify]. destruct (string_of_Z_head z) as (c & t & Hs & Hc).
    pose proof (parse_number_string_of_Z z rest (value_end_numeral_end _ Hend)) as Hnum.
    rewrite Hs in *. rewrite append_cons in *.
    now rewrite (parse_value_numeral fuel c _ Hc), Hnum.
  - cbn [stringify]. unfold quote. norm_append.
    now rewrite parse_value_string, parse_escape.
  - rewrite stringify_JArr. destruct items as [|x more]; [reflexivity|].
    norm_append.
    destruct (stringify_head x) as (c & t & Hs & Hc).
    assert (Hhead : exists t', stringify_elements (x :: more) ++ String "]" rest = String c t').
    { cbn [stringify_elements]. rewrite Hs. norm_append. eauto. }
    destruct Hhead as [t' Hhead]. rewrite Hhead, (parse_value_array fuel c t' Hc), <- Hhead.
    cbn [plain] in Hplain. apply forallb_Forall in Hplain.
    rewrite (parse_elements_plain n IH (x :: more) rest); [reflexivity | discriminate | |].
    + apply List.Forall_forall. intros y Hy. split.
      * pose proof (size_in_elements y _ Hy). lia.
      * now apply (proj1 (List.Forall_forall _ _) Hplain).
    + cbn [json_size] in Hfuel. lia.
  - rewrite stringify_JObj. destruct entries as [|[k x] more]; [reflexivity|].
    norm_append.
    assert (Hhead : exists t', stringify_members ((k, x) :: more) ++ String "}" rest
                               = String dquote t').
    { destruct more; [rewrite members_last | rewrite members_more]; eauto. }
    destruct Hhead as [t' Hhead]. rewrite Hhead, parse_value_object, <- Hhead.
    cbn [plain] in Hplain. apply andb_true_iff in Hplain as [Hkeys Hvalues].
    apply andb_true_iff in Hkeys as [Hdistinct Hindex].
    apply forallb_Forall in Hvalues. apply forallb_Forall in Hindex.
    rewrite (parse_members_plain n IH ((k, x) :: more) rest); [| discriminate | |].
    + rewrite fold_obj_set_plain; [reflexivity | now apply distinct_NoDup |].
      apply List.Forall_forall. intros kv Hkv.
      pose proof (proj1 (List.Forall_forall _ _) Hindex kv Hkv) as H. cbn beta in H.
      now destruct (array_index (fst kv)).
    + apply List.Forall_forall. intros kv Hkv. split.
      * pose proof (size_in_members kv _ Hkv). lia.
      * now apply (proj1 (List.Forall_forall _ _) Hvalues).
    + cbn [json_size] in Hfuel. lia.
Qed.

(** *** The fuel [JSON.parse] allows is enough *)

Lemma stringify_nonempty (v : Json) : (1 <= String.length (stringify v))%nat.
Proof. destruct (stringify_head v) as (c & t & -> & _). cbn. lia. Qed.

Lemma elements_length (items : list Json) :
  Forall (fun x => (json_size x <= String.length (stringify x))%nat) items ->
  (list_sum (map (fun x => S (json_size x)) items)
   <= S (String.length (stringify_elements items)))%nat.
Proof.
  induction items as [|x more IH]; intros Hall; [cbn; lia|].
  inversion Hall as [|? ? Hx Hmore]; subst. specialize (IH Hmore).
  cbn [map]. rewrite list_sum_cons. cbn [stringify_elements].
  rewrite length_append. destruct more as [|y more]; [cbn in *; lia|].
  rewrite length_append. cbn [String.length]. lia.
Qed.

Lemma members_length (entries : list (string * Json)) :
  Forall (fun kv => (json_size (snd kv) <= String.length (stringify (snd kv)))%nat) entries ->
  (list_sum (map (fun kv => S (json_size (snd kv))) entries)
   <= S (String.length (stringify_members entries)))%nat.
Proof.
  induction entries as [|[k x] more IH]; intros Hall; [cbn; lia|].
  inversion Hall as [|? ? Hx Hmore]; subst. specialize (IH Hmore). cbn [snd] in Hx.
  cbn [map snd]. rewrite list_sum_cons. cbn [stringify_members].
  rewrite !length_append. destruct more as [|e more]; [cbn in *; lia|].
  rewrite length_append. cbn [String.length]. lia.
Qed.

Lemma json_size_length_bounded (n : nat) (v : Json) :
  (json_size v <= n)%nat -> (json_size v <= String.length (stringify v))%nat.
Proof.
  revert v. induction n as [|n IH]; intros v Hle.
  { pose proof (json_size_pos v). lia. }
  destruct v as [|b|z|s|items|entries].
  1-4: apply stringify_nonempty.
  - rewrite stringify_JArr, !length_append. cbn [String.length json_size].
    assert (H : Forall (fun x => (json_size x <= String.length (stringify x))%nat) items).
    { apply List.Forall_forall. intros x Hx. pose proof (size_in_elements x _ Hx).
      assert (Hxn : (json_size x <= n)%nat) by lia.
      specialize (IH x Hxn). lia. }
    apply elements_length in H. lia.
  - rewrite stringify_JObj, !length_append. cbn [String.length json_size].
    assert (H : Forall (fun kv => (json_size (snd kv)
                                   <= String.length (stringify (snd kv)))%nat) entries).
    { apply List.Forall_forall. intros kv Hkv. pose proof (size_in_members kv _ Hkv).
      assert (Hxn : (json_size (snd kv) <= n)%nat) by lia.
      specialize (IH (snd kv) Hxn). lia. }
    apply members_length in H. lia.
Qed.

Lemma json_size_length (v : Json) : (json_size v <= String.length (stringify v))%nat.
Proof. apply (json_size_length_bounded (json_size v)). lia. Qed.

(** [JSON.parse(JSON.stringify(v))] is [v], for a plain value. *)
Theorem parse_stringify (v : Json) : plain v = true -> parse (stringify v) = Normal v.
Proof.
  intros Hplain. unfold parse.
  pose proof (json_size_length v) as Hlen.
  pose proof (parse_value_stringify (json_size v) v (le_n _) Hplain
                (S (String.length (stringify v))) "" ltac:(lia) eq_refl) as H.
  rewrite append_nil_r in H. rewrite H. reflexivity.
Qed.
(** *** The values and the texts of the model *)


(** A scan of a text, in or out of a string literal: out of the literals no
    digit is followed by [.], [e] or [E], so that no number has a fraction
    or an exponent; in them no [\uXXXX] escape is beyond [\u007f]. *)
Fixpoint integral_from (in_string after_digit : bool) (s : string) : bool :=
  match s with
  | EmptyString => true
  | String c rest =>
      if in_string then
        if Ascii.eqb c backslash then
          match rest with
          | String "u"%char (String h1 (String h2 (String h3 (String h4 rest')))) =>
              match hex_value h1, hex_value h2, hex_value h3, hex_value h4 with
              | Some a, Some b, Some c', Some _ =>
                  (a =? 0)%N && (b =? 0)%N && (c' <? 8)%N && integral_from true false rest'
              | _, _, _, _ => integral_from true false rest'
              end
          | String _ rest' => integral_from true false rest'
          | EmptyString => true
          end
        else if Ascii.eqb c dquote then integral_from false false rest
        else integral_from true false rest
      else if Ascii.eqb c dquote then integral_from true false rest
      else if after_digit && (Ascii.eqb c "." || Ascii.eqb c "e" || Ascii.eqb c "E")
      then false
      else integral_from false (is_digit c) rest
  end.

(** The texts that [parse] reads as [JSON.parse] does: what [parse] refuses
    of them, [JSON.parse] refuses. *)
Definition integral (text : string) : bool := integral_from false false text.

End JsonProps.

(** ** Read-through caching *)

Module RoundTripProps.
Import Js JSON CacheService CacheMiddleware JsProps CacheProps InvalidationProps JsonProps.

(** *** Object updates *)

Lemma prop_get_obj_replace (k k' : string) (v : Json) (entries : list (string * Json)) :
  has_key k entries = true ->
  prop_get (obj_replace k v entries) k' = if String.eqb k k' then Some v else prop_get entries k'.
Proof.
  induction entries as [|[k0 v0] rest IH]; [discriminate|].
  cbn [has_key existsb fst obj_replace].
  destruct (String.eqb_spec k0 k) as [->|Hne].
  - intros _. cbn [prop_get]. destruct (String.eqb_spec k k'); reflexivity.
  - cbn [orb]. intros Hrest. cbn [prop_get].
    destruct (String.eqb_spec k0 k') as [->|Hne'].
    + destruct (String.eqb_spec k k'); [congruence | reflexivity].
    + apply IH. exact Hrest.
Qed.

Lemma has_key_prop_get (k : string) (entries : list (string * Json)) :
  has_key k entries = false -> prop_get entries k = None.
Proof.
  induction entries as [|[k0 v0] rest IH]; [reflexivity|].
  cbn [has_key existsb fst prop_get]. destruct (String.eqb k0 k); [discriminate|].
  exact IH.
Qed.

Lemma prop_get_obj_insert_index (i : N) (k k' : string) (v : Json)
    (entries : list (string * Json)) :
  prop_get entries k = None ->
  prop_get (obj_insert_index i k v entries) k'
  = if String.eqb k k' then Some v else prop_get entries k'.
Proof.
  induction entries as [|[k0 v0] rest IH]; intros Hfresh.
  - reflexivity.
  - cbn [prop_get] in Hfresh. destruct (String.eqb_spec k0 k) as [->|Hne]; [discriminate|].
    cbn [obj_insert_index].
    destruct (array_index k0) as [j|]; [destruct (j <? i)%N|]; try reflexivity.
    cbn [prop_get]. destruct (String.eqb_spec k0 k') as [->|Hne'].
    + destruct (String.eqb_spec k k'); [congruence | reflexivity].
    + apply IH. exact Hfresh.
Qed.

Lemma prop_get_app_fresh (k k' : string) (v : Json) (entries : list (string * Json)) :
  prop_get entries k = None ->
  prop_get (entries ++ [(k, v)])%list k'
  = if String.eqb k k' then Some v else prop_get entries k'.
Proof.
  induction entries as [|[k0 v0] rest IH]; intros Hfresh.
  - cbn. destruct (String.eqb k k'); reflexivity.
  - cbn [prop_get] in Hfresh. destruct (String.eqb_spec k0 k) as [->|Hne]; [discriminate|].
    cbn [app prop_get]. destruct (String.eqb_spec k0 k') as [->|Hne'].
    + destruct (String.eqb_spec k k'); [congruence | reflexivity].
    + apply IH. exact Hfresh.
Qed.

(** Reading a property after an assignment. *)
Lemma prop_get_obj_set (k k' : string) (v : Json) (entries : list (string * Json)) :
  prop_get (obj_set k v entries) k' = if String.eqb k k' then Some v else prop_get entries k'.
Proof.
  unfold obj_set. destruct (has_key k entries) eqn:Hk.
  - now apply prop_get_obj_replace.
  - apply has_key_prop_get in Hk.
    destruct (array_index k); [now apply prop_get_obj_insert_index | now apply prop_get_app_fresh].
Qed.



(** *** Reading and writing on a connected service *)

Lemma set_connected (key : string) (v : Json) (expiration : Z) (srv : Redis.Server) :
  Redis.reachable srv = true ->
  0 < expiration ->
  set key v expiration (connected srv)
  = (Normal true,
     connected (Redis.with_db
                  (<[key := Redis.mkEntry (stringify v) (Some expiration)]> (Redis.db srv)) srv)).
Proof.
  intros Hr Hpos. unfold set, try_catch, bind, on_client, Redis.SETEX, Redis.command. cbn.
  rewrite Hr. destruct (expiration <=? 0) eqn:Hle; [apply Z.leb_le in Hle; lia|].
  reflexivity.
Qed.

Lemma get_present (key text : string) (ttl : option Z) (v : Json) (srv : Redis.Server) :
  Redis.reachable srv = true ->
  Redis.db srv !! key = Some (Redis.mkEntry text ttl) ->
  parse text = Normal v ->
  get key (connected srv) = (Normal v, connected srv).
Proof.
  intros Hr Hk Hparse.
  unfold get, try_catch, bind, on_client, Redis.GET, Redis.command. cbn.
  rewrite Hr, Hk. cbn.
  destruct (String.eqb_spec text "") as [->|_]; [discriminate|].
  unfold lift. rewrite Hparse. destruct srv; reflexivity.
Qed.








(** A listing request on an empty, reachable cache. *)
Definition listing_request : Request :=
  mkRequest "GET" "/api/services" [("category", JStr "nursing")] None "10.0.0.1".





Definition empty_server : Redis.Server := Redis.mkServer true ∅.


End RoundTripProps.

(** ** Rate limiting *)

Module RateLimitProps.
Import Js JSON CacheService CacheMiddleware CacheProps.

Lemma incrementRateLimit_unreachable (env : option string) (identifier : string)
    (window : Z) (this : CacheService) :
  store_unreachable (Redis.INCR (generateKey env "ratelimit" identifier [])) this ->
  exists this', incrementRateLimit env identifier window this = (Normal 1, this').
Proof.
  intros H. unfold incrementRateLimit. cbv zeta.
  apply (guarded_unreachable _ _ 1 this H).
Qed.

(** The counter is only ever above 1 when the store served the increment. *)
Lemma incrementRateLimit_above_one (env : option string) (identifier : string)
    (window : Z) (this this' : CacheService) (n : Z) :
  incrementRateLimit env identifier window this = (Normal n, this') ->
  n <> 1 ->
  isConnected this = true
  /\ exists srv, client this = Some srv /\ Redis.reachable srv = true.
Proof.
  unfold incrementRateLimit, try_catch. cbv zeta.
  destruct (unavailable this) eqn:Hun.
  { intros [= <- _] Hn. congruence. }
  destruct (unavailable_false this Hun) as [Hc [srv Hsrv]].
  unfold bind at 1. unfold on_client at 1. rewrite Hsrv.
  unfold Redis.INCR, Redis.command.
  destruct (Redis.reachable srv) eqn:Hreach.
  - intros _ _. eauto.
  - intros [= <- _] Hn. congruence.
Qed.

(** C10.  With a limit of at least one request: when the store cannot
    serve the increment, [incrementRateLimit] resolves to 1 and the
    middleware calls [next()], whatever the identifier has sent before; and
    whenever the middleware answers without calling [next()] (the 429
    branch), the service is connected to a reachable server. *)
Theorem rate_limit_fails_open (env : option string) (options : RateLimitOptions)
    (next : Request -> Reply) (reset : string) (req : Request) (this : CacheService) :
  1 <= maxRequests options ->
  (store_unreachable
     (Redis.INCR (generateKey env "ratelimit" (rateKeyGenerator options req) [])) this ->
   (exists this',
      incrementRateLimit env (rateKeyGenerator options req) (windowMs options / 1000) this
      = (Normal 1, this'))
   /\ exists this',
        rateLimitMiddleware env options next reset req this
        = (Normal (mkOutcome (respond (rate_headers options 1 reset) (next req)) true), this'))
  /\ (forall out this',
        rateLimitMiddleware env options next reset req this = (Normal out, this') ->
        handlerRan out = false ->
        isConnected this = true
        /\ exists srv, client this = Some srv /\ Redis.reachable srv = true).
Proof.
  intros Hmax. split.
  - intros H.
    destruct (incrementRateLimit_unreachable env _ (windowMs options / 1000) this H)
      as [this' Hinc].
    split; [eauto|]. exists this'.
    unfold rateLimitMiddleware, try_catch. cbv zeta. unfold bind. rewrite Hinc.
    destruct (maxRequests options <? 1) eqn:Hlt; [apply Z.ltb_lt in Hlt; lia|].
    reflexivity.
  - intros out this'. unfold rateLimitMiddleware, try_catch. cbv zeta. unfold bind.
    destruct (incrementRateLimit env _ _ this) as [[n|e] this1] eqn:Hinc.
    + destruct (maxRequests options <? n) eqn:Hlt.
      * intros _ _. apply Z.ltb_lt in Hlt.
        apply (incrementRateLimit_above_one _ _ _ _ _ _ Hinc). lia.
      * intros [= <- _]. discriminate.
    + intros [= <- _]. discriminate.
Qed.

Lemma rate_limit_fails_open_witness :
  exists this',
    rateLimitMiddleware (Some "production") (mkRateLimitOptions 900000 10 ip)
      (fun _ => ReplyJson 200 (JObj [("success", JBool true)])) "2026-01-01T00:15:00.000Z"
      (mkRequest "POST" "/api/services/7/book" [] (Some "42") "10.0.0.1")
      unreachable_service
    = (Normal
         (mkOutcome
            (respond
               (rate_headers (mkRateLimitOptions 900000 10 ip) 1 "2026-01-01T00:15:00.000Z")
               (ReplyJson 200 (JObj [("success", JBool true)])))
            true),
       this').
Proof.
  refine (proj2 (proj1 (rate_limit_fails_open (Some "production")
            (mkRateLimitOptions 900000 10 ip)
            (fun _ => ReplyJson 200 (JObj [("success", JBool true)]))
            "2026-01-01T00:15:00.000Z"
            (mkRequest "POST" "/api/services/7/book" [] (Some "42") "10.0.0.1")
            unreachable_service _) _)).
  - cbn. lia.
  - right. right. do 2 eexists. split; reflexivity.
Defined.

(** C10 as stated fails for a limit of 0: with the store out of reach
    [incrementRateLimit] resolves to 1, which is above the limit, and the
    middleware answers 429 without calling [next()]. *)
Lemma rate_limit_zero_rejects_without_store :
  let options := mkRateLimitOptions 900000 0 ip in
  let req := mkRequest "POST" "/api/services/7/book" [] (Some "42") "10.0.0.1" in
  let run :=
    rateLimitMiddleware (Some "production") options
      (fun _ => ReplyJson 200 (JObj [("success", JBool true)])) "2026-01-01T00:15:00.000Z"
      req unreachable_service in
  store_unreachable
    (Redis.INCR (generateKey (Some "production") "ratelimit" (rateKeyGenerator options req) []))
    unreachable_service
  /\ fst (incrementRateLimit (Some "production") (rateKeyGenerator options req)
            (windowMs options / 1000) unreachable_service)
     = Normal 1
  /\ exists out,
       fst run = Normal out
       /\ handlerRan out = false
       /\ statusCode (response out) = 429.
Proof.
  cbv zeta. split; [right; right; do 2 eexists; split; reflexivity|].
  split; [reflexivity|]. eexists. split; [reflexivity|]. split; reflexivity.
Qed.

End RateLimitProps.

(** ** Index creation *)

Module IndexProps.
Import Js JSON Mongo DatabaseOptimizer JsProps.
Local Open Scope js_scope.

(** *** The routine as a sequence of blocks *)

(** One model's part of [createIndexes]: look the model up, list the keys
    of its indexes, ensure each wanted index. *)
Definition ensure_block (name : string) (wanted : list (Json * IndexOptions)) : M State unit :=
  exec model name ;;
  await existing <- getExistingIndexKeys name ;;
  for_each wanted (fun w => ensure name existing (fst w) (snd w)).

Definition service_indexes : list (Json * IndexOptions) :=
  [ (JObj [("category", asc); ("isActive", asc); ("rating.average", desc)],
     mkIndexOptions "service_category_active_rating" false);
    (JObj [("price", asc); ("isActive", asc)], mkIndexOptions "service_price_active" false);
    (JObj [("isPopular", asc); ("isActive", asc); ("createdAt", desc)],
     mkIndexOptions "service_popular_active_created" false) ].

Definition user_indexes : list (Json * IndexOptions) :=
  [ (JObj [("profile.phone", asc)], mkIndexOptions "user_phone" true);
    (JObj [("isActive", asc); ("userType", asc)], mkIndexOptions "user_active_userType" false) ].

Definition review_indexes : list (Json * IndexOptions) :=
  [ (JObj [("service", asc); ("rating", desc); ("createdAt", desc)],
     mkIndexOptions "review_service_rating_created" false);
    (JObj [("user", asc); ("createdAt", desc)], mkIndexOptions "review_user_created" false) ].

Definition appointment_indexes : list (Json * IndexOptions) :=
  [ (JObj [("user", asc); ("scheduledDate", desc); ("status", asc)],
     mkIndexOptions "appointment_user_date_status" false);
    (JObj [("provider", asc); ("scheduledDate", asc); ("status", asc)],
     mkIndexOptions "appointment_provider_date_status" false);
    (JObj [("service", asc); ("status", asc); ("scheduledDate", desc)],
     mkIndexOptions "appointment_service_status_date" false) ].

Definition required_blocks : list (string * list (Json * IndexOptions)) :=
  [ ("Service", service_indexes); ("User", user_indexes); ("Review", review_indexes) ].

Definition mark_created : M State unit :=
  fun this => (Normal tt, mkState true (models this)).

(** The body of the outer [try]. *)
Definition createIndexes_body : M State unit :=
  exec for_each required_blocks (fun b => ensure_block (fst b) (snd b)) ;;
  exec try_catch (ensure_block "Appointment" appointment_indexes) (fun error => ret tt) ;;
  mark_created.

(** [createIndexes] is: nothing when the flag is set, and otherwise the
    blocks in a [try] whose [catch] only logs. *)
Lemma createIndexes_blocks (this : State) :
  createIndexes this
  = if indexCreated this then (Normal tt, this)
    else try_catch createIndexes_body (fun error => ret tt) this.
Proof.
  unfold createIndexes, try_catch.
  destruct (indexCreated this) eqn:Hflag; [reflexivity|].
  match goal with
  | |- match ?src this with _ => _ end = match ?blocks this with _ => _ end =>
      assert (Hbody : blocks this = src this); [| rewrite Hbody; reflexivity]
  end.
  unfold createIndexes_body, required_blocks, ensure_block.
  cbn [for_each fst snd service_indexes user_indexes review_indexes].
  unfold service_indexes, user_indexes, review_indexes.
  cbn [for_each fst snd].
  repeat monad_step.
  apply bind_cong. apply try_catch_ext.
  unfold appointment_indexes. cbn [for_each fst snd].
  repeat monad_step. apply bind_ret_r.
Qed.

(** *** One collection *)

Definition index_list (c : Collection) : list Index :=
  match c with Some l => l | None => [] end.

(** The key patterns [getExistingIndexKeys] lists. *)
Definition index_keys (c : Collection) : list string :=
  map (fun idx => stringify (key idx)) (index_list c).

(** The indexes [createIndex] finds itself facing. *)
Definition present (c : Collection) : list Index :=
  match c with Some l => l | None => [id_index] end.

(** [c'] is [c] with indexes added after the ones it had. *)
Definition extends (c c' : Collection) : Prop :=
  (exists added, present c' = (present c ++ added)%list) /\ (c' = None -> c = None).

Lemma extends_refl (c : Collection) : extends c c.
Proof. split; [exists []; now rewrite app_nil_r | auto]. Qed.

Lemma extends_trans (c1 c2 c3 : Collection) :
  extends c1 c2 -> extends c2 c3 -> extends c1 c3.
Proof.
  intros [[a1 H1] N1] [[a2 H2] N2]. split; [|auto].
  exists (a1 ++ a2)%list. now rewrite H2, H1, app_assoc.
Qed.

Lemma index_keys_extends (c c' : Collection) (k : string) :
  extends c c' -> In k (index_keys c) -> In k (index_keys c').
Proof.
  intros [[added H] N]. destruct c as [l|]; [|contradiction].
  destruct c' as [l'|]; [|now specialize (N eq_refl)].
  cbn in H. subst l'. unfold index_keys. cbn. rewrite map_app, in_app_iff. now left.
Qed.

Lemma find_same_key (spec : Json) (l : list Index) :
  find (same_key spec) l = None <-> ~ In (stringify spec) (map (fun idx => stringify (key idx)) l).
Proof.
  induction l as [|i l IH]; [cbn; tauto|].
  cbn [find map In]. unfold same_key at 1.
  destruct (String.eqb_spec (stringify (key i)) (stringify spec)) as [E|E].
  - split; [discriminate | intros H; exfalso; apply H; now left].
  - rewrite IH. tauto.
Qed.

Lemma find_app_Some {A : Type} (f : A -> bool) (l added : list A) (x : A) :
  find f l = Some x -> find f (l ++ added) = Some x.
Proof.
  induction l as [|y l IH]; [discriminate|]. cbn. destruct (f y); [auto | exact IH].
Qed.

Lemma find_app_None {A : Type} (f : A -> bool) (l added : list A) :
  find f (l ++ added) = None -> find f l = None.
Proof.
  induction l as [|y l IH]; [reflexivity|]. cbn. destruct (f y); [auto | exact IH].
Qed.

Lemma index_keys_present (c : Collection) (k : string) :
  In k (index_keys c) -> In k (map (fun idx => stringify (key idx)) (present c)).
Proof. destruct c; [auto | contradiction]. Qed.

Lemma find_same_key_Some (spec : Json) (l : list Index) (i : Index) :
  find (same_key spec) l = Some i ->
  In (stringify spec) (map (fun idx => stringify (key idx)) l).
Proof.
  intros H. destruct (in_dec string_dec (stringify spec)
                        (map (fun idx => stringify (key idx)) l)) as [Hin|Hout]; [exact Hin|].
  apply find_same_key in Hout. congruence.
Qed.

(** A call that returns: the collection holds the key, and either had it
    or gained one index, on a key it did not have. *)
Lemma createIndex_normal (spec : Json) (options : IndexOptions) (c c1 : Collection) :
  createIndex spec options c = (Normal tt, c1) ->
  In (stringify spec) (index_keys c1)
  /\ (c1 = Some (present c)
      \/ (c1 = Some (present c ++ [mkIndex spec (opt_name options) (opt_sparse options)])%list
          /\ find (same_key spec) (present c) = None)).
Proof.
  unfold createIndex. cbv zeta. fold (present c).
  destruct (find (same_key spec) (present c)) as [i|] eqn:Hkey.
  - destruct (_ && _); [|discriminate]. intros [= <-]. split; [|now left].
    apply (find_same_key_Some spec _ i Hkey).
  - destruct (find (same_name options) (present c)); [discriminate|].
    intros [= <-]. split; [|right; split; reflexivity].
    unfold index_keys. cbn. rewrite map_app, in_app_iff. right. now left.
Qed.

(** A call that throws leaves the collection as it was. *)
Lemma createIndex_throw (spec : Json) (options : IndexOptions) (c c1 : Collection)
    (e : JsError) :
  createIndex spec options c = (Throw e, c1) -> c1 = c.
Proof.
  unfold createIndex. cbv zeta.
  destruct (find (same_key spec) _); [destruct (_ && _) |
    destruct (find (same_name options) _)]; intros [= ]; congruence.
Qed.

(** A call that throws on a collection holding the key throws a conflict
    that [tryCreateIndex] lets pass. *)
Lemma createIndex_throw_benign (spec : Json) (options : IndexOptions) (c c1 : Collection)
    (e : JsError) :
  createIndex spec options c = (Throw e, c1) ->
  In (stringify spec) (index_keys c) ->
  benign e = true.
Proof.
  unfold createIndex. cbv zeta. fold (present c). intros H Hin.
  apply index_keys_present in Hin.
  destruct (find (same_key spec) (present c)) as [i|] eqn:Hkey.
  - destruct (_ && _); [discriminate|]. injection H as <- _. reflexivity.
  - apply find_same_key in Hkey. contradiction.
Qed.

(** A call that throws throws the same again on every extension of the
    collection that still lacks the key. *)
Lemma createIndex_throw_again (spec : Json) (options : IndexOptions) (c c2 : Collection)
    (e : JsError) :
  createIndex spec options c = (Throw e, c) ->
  extends c c2 ->
  ~ In (stringify spec) (index_keys c2) ->
  createIndex spec options c2 = (Throw e, c2).
Proof.
  intros H [[added Hadd] Hnone] Hout.
  destruct c2 as [l2|].
  - unfold index_keys in Hout. cbn in Hout. apply find_same_key in Hout.
    cbn in Hadd. subst l2.
    unfold createIndex in *. cbv zeta in *. fold (present c) in H.
    change (match Some (present c ++ added)%list with Some l => l | None => [id_index] end)
      with (present c ++ added)%list.
    rewrite Hout. rewrite (find_app_None _ _ _ Hout) in H.
    destruct (find (same_name options) (present c)) as [i|] eqn:Hname; [|discriminate].
    rewrite (find_app_Some _ _ added _ Hname). injection H as <-. reflexivity.
  - rewrite (Hnone eq_refl) in H. exact H.
Qed.

(** [tryCreateIndex] and [ensure], on the collection they work on. *)
Definition try_create (spec : Json) (options : IndexOptions) : M Collection unit :=
  try_catch (createIndex spec options)
            (fun error => if benign error then ret tt else throw error).

Definition ensure_in (existing : list string) (w : Json * IndexOptions) : M Collection unit :=
  if negb (includes existing (stringify (fst w))) then try_create (fst w) (snd w)
  else ret tt.

Lemma createIndex_extends (spec : Json) (options : IndexOptions) (c c1 : Collection) :
  createIndex spec options c = (Normal tt, c1) -> extends c c1.
Proof.
  intros H. destruct (createIndex_normal _ _ _ _ H) as [_ [-> | [-> _]]].
  - split; [exists []; cbn; now rewrite app_nil_r | discriminate].
  - split; [eexists; reflexivity | discriminate].
Qed.

(** One [ensure]: the collection is extended; if it returns, it returns
    again, changing nothing, on every extension of its result, read with
    that extension's own keys; if it throws, it has changed nothing and
    throws again. *)
Lemma ensure_in_again (existing : list string) (w : Json * IndexOptions)
    (c c1 : Collection) (r : Completion unit) :
  ensure_in existing w c = (r, c1) ->
  (forall k, In k existing -> In k (index_keys c)) ->
  extends c c1
  /\ match r with
     | Normal _ =>
         forall c2, extends c1 c2 -> ensure_in (index_keys c2) w c2 = (Normal tt, c2)
     | Throw e => c1 = c /\ ensure_in (index_keys c) w c = (Throw e, c)
     end.
Proof.
  destruct w as [spec options]. unfold ensure_in. cbn [fst snd].
  intros Hrun Hexisting.
  destruct (includes existing (stringify spec)) eqn:Hinc; cbn [negb] in Hrun.
  - injection Hrun as <- <-. split; [apply extends_refl|].
    intros c2 Hext.
    apply includes_In, Hexisting, (index_keys_extends c c2 _ Hext), includes_In in Hinc.
    rewrite Hinc. reflexivity.
  - unfold try_create, try_catch in Hrun.
    destruct (createIndex spec options c) as [[[]|e] c'] eqn:Hcreate.
    + injection Hrun as <- <-. split; [now apply (createIndex_extends spec options)|].
      intros c2 Hext.
      destruct (createIndex_normal _ _ _ _ Hcreate) as [Hin _].
      apply (index_keys_extends c' c2 _ Hext), includes_In in Hin.
      rewrite Hin. reflexivity.
    + pose proof (createIndex_throw _ _ _ _ _ Hcreate) as ->.
      destruct (benign e) eqn:Hbenign.
      * injection Hrun as <- <-. split; [apply extends_refl|].
        intros c2 Hext.
        destruct (includes (index_keys c2) (stringify spec)) eqn:Hinc2; [reflexivity|].
        cbn [negb]. unfold try_create, try_catch.
        rewrite (createIndex_throw_again spec options c c2 e Hcreate Hext).
        -- rewrite Hbenign. reflexivity.
        -- intros Hin. apply includes_In in Hin. congruence.
      * injection Hrun as <- <-. split; [apply extends_refl|]. split; [reflexivity|].
        destruct (includes (index_keys c) (stringify spec)) eqn:Hinc2.
        -- apply includes_In in Hinc2.
           pose proof (createIndex_throw_benign _ _ _ _ _ Hcreate Hinc2). congruence.
        -- cbn [negb]. unfold try_create, try_catch. rewrite Hcreate, Hbenign. reflexivity.
Qed.

(** A block of [ensure]s run again on its own result, read with the
    result's keys: the same completion, and nothing changes. *)
Lemma ensure_all_again (wanted : list (Json * IndexOptions)) (existing : list string)
    (c c1 : Collection) (r : Completion unit) :
  for_each wanted (ensure_in existing) c = (r, c1) ->
  (forall k, In k existing -> In k (index_keys c)) ->
  extends c c1
  /\ for_each wanted (ensure_in (index_keys c1)) c1 = (r, c1).
Proof.
  revert c. induction wanted as [|w rest IH]; intros c Hrun Hexisting.
  - injection Hrun as <- <-. split; [apply extends_refl | reflexivity].
  - cbn [for_each] in *. unfold bind in Hrun.
    destruct (ensure_in existing w c) as [[[]|e] c'] eqn:Hw.
    + destruct (ensure_in_again _ _ _ _ _ Hw Hexisting) as [Hext Hagain].
      destruct (IH c' Hrun) as [Hext' Hrest].
      { intros k Hk. apply (index_keys_extends c c' _ Hext). auto. }
      split; [now apply (extends_trans c c' c1)|].
      unfold bind. rewrite (Hagain c1 Hext'). exact Hrest.
    + injection Hrun as <- <-.
      destruct (ensure_in_again _ _ _ _ _ Hw Hexisting) as [Hext [-> Hagain]].
      split; [exact Hext|]. unfold bind. rewrite Hagain. reflexivity.
Qed.

(** *** What a run may add *)

(** [c1] is [c0] extended; if no two indexes of [c0] shared a key pattern,
    none of [c1] do; and an index of [c1] that [c0] did not have is on a
    key pattern [c0] did not have. *)
Definition grown (c0 c1 : Collection) : Prop :=
  extends c0 c1
  /\ (List.NoDup (index_keys c0) -> List.NoDup (index_keys c1))
  /\ (forall idx, In idx (index_list c1) ->
                  In idx (index_list c0) \/ ~ In (stringify (key idx)) (index_keys c0)).

Lemma grown_refl (c : Collection) : grown c c.
Proof. split; [apply extends_refl | split; [auto | intros idx H; now left]]. Qed.

Lemma grown_trans (c0 c1 c2 : Collection) : grown c0 c1 -> grown c1 c2 -> grown c0 c2.
Proof.
  intros (E1 & N1 & A1) (E2 & N2 & A2). split; [now apply (extends_trans c0 c1 c2)|].
  split; [auto|]. intros idx H.
  destruct (A2 idx H) as [H1 | H1]; [now apply A1|].
  right. intros Hin. apply H1. now apply (index_keys_extends c0 c1).
Qed.

Lemma NoDup_snoc {A : Type} (l : list A) (x : A) :
  List.NoDup l -> ~ In x l -> List.NoDup (l ++ [x]).
Proof.
  induction l as [|y l IH]; intros Hnd Hx.
  - cbn. constructor; [auto | constructor].
  - inversion Hnd as [|? ? Hy Hl]; subst. cbn. constructor.
    + rewrite in_app_iff. intros [H | [H | []]]; [auto | subst; apply Hx; now left].
    + apply IH; [assumption | intros H; apply Hx; now right].
Qed.

Lemma createIndex_grown (spec : Json) (options : IndexOptions) (c c1 : Collection) :
  createIndex spec options c = (Normal tt, c1) -> grown c c1.
Proof.
  intros H. split; [now apply (createIndex_extends spec options)|].
  destruct (createIndex_normal _ _ _ _ H) as [_ [-> | [-> Hfresh]]].
  - destruct c as [l|]; [apply grown_refl|].
    split.
    + intros _. cbn. constructor; [auto | constructor].
    + intros idx _. right. auto.
  - split.
    + intros Hnd. unfold index_keys. cbn [index_list]. rewrite map_app. cbn [map key].
      apply NoDup_snoc; [|now apply find_same_key].
      destruct c as [l|]; [exact Hnd|]. cbn. constructor; [auto | constructor].
    + intros idx Hin. cbn [index_list] in Hin. apply in_app_iff in Hin as [Hin | [<- | []]].
      * destruct c as [l|]; [now left | right; auto].
      * right. cbn [key]. intros Hk. apply index_keys_present in Hk.
        now apply find_same_key in Hfresh.
Qed.

Lemma ensure_in_grown (existing : list string) (w : Json * IndexOptions)
    (c c1 : Collection) (r : Completion unit) :
  ensure_in existing w c = (r, c1) -> grown c c1.
Proof.
  unfold ensure_in. destruct (negb _).
  - unfold try_create, try_catch.
    destruct (createIndex (fst w) (snd w) c) as [[[]|e] c'] eqn:Hcreate.
    + intros [= _ <-]. now apply (createIndex_grown (fst w) (snd w)).
    + pose proof (createIndex_throw _ _ _ _ _ Hcreate) as ->.
      destruct (benign e); intros [= _ <-]; apply grown_refl.
  - intros [= _ <-]. apply grown_refl.
Qed.

Lemma ensure_all_grown (wanted : list (Json * IndexOptions)) (existing : list string)
    (c c1 : Collection) (r : Completion unit) :
  for_each wanted (ensure_in existing) c = (r, c1) -> grown c c1.
Proof.
  revert c. induction wanted as [|w rest IH]; intros c Hrun.
  - injection Hrun as _ <-. apply grown_refl.
  - cbn [for_each] in Hrun. unfold bind in Hrun.
    destruct (ensure_in existing w c) as [[[]|e] c'] eqn:Hw.
    + apply (grown_trans c c' c1); [now apply (ensure_in_grown existing w _ _ (Normal tt)) | auto].
    + injection Hrun as _ <-. now apply (ensure_in_grown existing w _ _ (Throw e)).
Qed.

(** *** From one collection to the registered models *)

Definition with_model (name : string) (c : Collection) (s : State) : State :=
  mkState (indexCreated s) (<[name := c]> (models s)).

Lemma with_model_id (name : string) (c : Collection) (s : State) :
  models s !! name = Some c -> with_model name c s = s.
Proof. intros H. unfold with_model. rewrite (insert_id _ _ _ H). now destruct s. Qed.

Lemma with_model_twice (name : string) (c c' : Collection) (s : State) :
  with_model name c' (with_model name c s) = with_model name c' s.
Proof. unfold with_model. cbn. now rewrite insert_insert_eq. Qed.

Lemma lookup_with_model (name : string) (c : Collection) (s : State) :
  models (with_model name c s) !! name = Some c.
Proof. apply lookup_insert_eq. Qed.

Lemma on_collection_run {A : Type} (name : string) (cmd : M Collection A) (s : State)
    (c : Collection) :
  models s !! name = Some c ->
  on_collection name cmd s = (fst (cmd c), with_model name (snd (cmd c)) s).
Proof. intros H. unfold on_collection. rewrite H. now destruct (cmd c). Qed.

Lemma getExistingIndexKeys_run (name : string) (s : State) (c : Collection) :
  models s !! name = Some c ->
  getExistingIndexKeys name s = (Normal (index_keys c), s).
Proof.
  intros H. unfold getExistingIndexKeys, try_catch, bind.
  rewrite (on_collection_run name indexes s c H).
  destruct c as [l|]; cbn; rewrite (with_model_id _ _ _ H); reflexivity.
Qed.

Lemma ensure_run (name : string) (existing : list string) (w : Json * IndexOptions)
    (s : State) (c : Collection) :
  models s !! name = Some c ->
  ensure name existing (fst w) (snd w) s
  = (fst (ensure_in existing w c), with_model name (snd (ensure_in existing w c)) s).
Proof.
  intros H. unfold ensure, ensure_in.
  destruct (negb _); [|cbn; now rewrite (with_model_id _ _ _ H)].
  unfold tryCreateIndex, try_create, try_catch.
  rewrite (on_collection_run name _ s c H).
  destruct (createIndex (fst w) (snd w) c) as [[[]|e] c']; [reflexivity|].
  cbn [fst snd]. destruct (benign e); reflexivity.
Qed.

Lemma ensure_all_run (name : string) (existing : list string)
    (wanted : list (Json * IndexOptions)) (s : State) (c : Collection) :
  models s !! name = Some c ->
  for_each wanted (fun w => ensure name existing (fst w) (snd w)) s
  = (fst (for_each wanted (ensure_in existing) c),
     with_model name (snd (for_each wanted (ensure_in existing) c)) s).
Proof.
  revert s c. induction wanted as [|w rest IH]; intros s c H.
  - cbn. now rewrite (with_model_id _ _ _ H).
  - cbn [for_each]. unfold bind. rewrite (ensure_run name existing w s c H).
    destruct (ensure_in existing w c) as [[[]|e] c']; cbn [fst snd]; [|reflexivity].
    rewrite (IH _ c' (lookup_with_model name c' s)), with_model_twice. reflexivity.
Qed.

(** A block, as a function of the collection of its model. *)
Lemma ensure_block_run (name : string) (wanted : list (Json * IndexOptions)) (s : State) :
  ensure_block name wanted s
  = match models s !! name with
    | Some c =>
        (fst (for_each wanted (ensure_in (index_keys c)) c),
         with_model name (snd (for_each wanted (ensure_in (index_keys c)) c)) s)
    | None => (Throw (MissingSchemaError name), s)
    end.
Proof.
  unfold ensure_block, bind at 1. unfold model.
  destruct (models s !! name) as [c|] eqn:H; [|reflexivity].
  unfold bind. rewrite (getExistingIndexKeys_run name s c H).
  apply ensure_all_run. exact H.
Qed.

(** A block run again, on any state that holds the collection it left:
    the same completion, and nothing changes. *)
Lemma ensure_block_again (name : string) (wanted : list (Json * IndexOptions))
    (s s1 s2 : State) (r : Completion unit) :
  ensure_block name wanted s = (r, s1) ->
  models s2 !! name = models s1 !! name ->
  ensure_block name wanted s2 = (r, s2).
Proof.
  rewrite !ensure_block_run. destruct (models s !! name) as [c|] eqn:H.
  - destruct (for_each wanted (ensure_in (index_keys c)) c) as [r' c1] eqn:Hrun.
    cbn [fst snd]. intros [= -> <-]. rewrite lookup_with_model. intros Hs2.
    rewrite Hs2.
    destruct (ensure_all_again wanted (index_keys c) c c1 r Hrun) as [_ Hagain]; [auto|].
    rewrite Hagain. cbn [fst snd]. now rewrite (with_model_id _ _ _ Hs2).
  - intros [= <- <-]. rewrite H. intros ->. reflexivity.
Qed.

(** A block leaves the flag and the other models alone. *)
Lemma ensure_block_frame (name : string) (wanted : list (Json * IndexOptions))
    (s s1 : State) (r : Completion unit) :
  ensure_block name wanted s = (r, s1) ->
  indexCreated s1 = indexCreated s
  /\ forall other, other <> name -> models s1 !! other = models s !! other.
Proof.
  rewrite ensure_block_run. destruct (models s !! name) as [c|].
  - intros [= _ <-]. split; [reflexivity|].
    intros other Hne. cbn. now apply lookup_insert_ne.
  - intros [= _ <-]. auto.
Qed.

(** Every model is still there after a run, its collection grown. *)
Definition models_grown (s s1 : State) : Prop :=
  forall name c, models s !! name = Some c ->
                 exists c1, models s1 !! name = Some c1 /\ grown c c1.

Lemma models_grown_refl (s : State) : models_grown s s.
Proof. intros name c H. exists c. split; [exact H | apply grown_refl]. Qed.

Lemma models_grown_trans (s0 s1 s2 : State) :
  models_grown s0 s1 -> models_grown s1 s2 -> models_grown s0 s2.
Proof.
  intros H1 H2 name c H. destruct (H1 name c H) as (c1 & Hc1 & G1).
  destruct (H2 name c1 Hc1) as (c2 & Hc2 & G2).
  exists c2. split; [exact Hc2 | now apply (grown_trans c c1 c2)].
Qed.

Lemma ensure_block_grown (name : string) (wanted : list (Json * IndexOptions))
    (s s1 : State) (r : Completion unit) :
  ensure_block name wanted s = (r, s1) -> models_grown s s1.
Proof.
  rewrite ensure_block_run. destruct (models s !! name) as [c|] eqn:H.
  - destruct (for_each wanted (ensure_in (index_keys c)) c) as [r' c1] eqn:Hrun.
    cbn [fst snd]. intros [= _ <-]. intros other c0 Hother.
    destruct (decide (other = name)) as [->|Hne].
    + exists c1. split; [apply lookup_with_model|].
      rewrite H in Hother. injection Hother as <-.
      now apply (ensure_all_grown wanted (index_keys c) c c1 r').
    + exists c0. split; [|apply grown_refl]. cbn. now rewrite lookup_insert_ne.
  - intros [= _ <-]. apply models_grown_refl.
Qed.

(** *** The blocks in sequence *)

Definition run_blocks (blocks : list (string * list (Json * IndexOptions))) : M State unit :=
  for_each blocks (fun b => ensure_block (fst b) (snd b)).

Lemma run_blocks_frame (blocks : list (string * list (Json * IndexOptions)))
    (s s1 : State) (r : Completion unit) :
  run_blocks blocks s = (r, s1) ->
  indexCreated s1 = indexCreated s
  /\ (forall other, ~ In other (map fst blocks) -> models s1 !! other = models s !! other)
  /\ models_grown s s1.
Proof.
  unfold run_blocks. revert s. induction blocks as [|[name wanted] rest IH]; intros s Hrun.
  - injection Hrun as _ <-. split; [reflexivity | split; [auto | apply models_grown_refl]].
  - cbn [for_each fst snd] in Hrun. unfold bind in Hrun.
    destruct (ensure_block name wanted s) as [[[]|e] sa] eqn:Hb.
    + destruct (ensure_block_frame _ _ _ _ _ Hb) as [Hflag Hother].
      pose proof (ensure_block_grown _ _ _ _ _ Hb) as Hg.
      destruct (IH sa Hrun) as (Hflag' & Hother' & Hg').
      split; [congruence|]. split; [|now apply (models_grown_trans s sa s1)].
      intros other Hout. cbn [map fst] in Hout.
      rewrite Hother' by (intros H; apply Hout; now right).
      apply Hother. intros ->. apply Hout. now left.
    + injection Hrun as _ <-.
      destruct (ensure_block_frame _ _ _ _ _ Hb) as [Hflag Hother].
      split; [exact Hflag|]. split; [|now apply (ensure_block_grown name wanted s sa (Throw e))].
      intros other Hout. apply Hother. intros ->. apply Hout. now left.
Qed.

(** Blocks on distinct models, run again on their own result: the same
    completion, and nothing changes. *)
Lemma run_blocks_again (blocks : list (string * list (Json * IndexOptions)))
    (s s1 : State) (r : Completion unit) :
  List.NoDup (map fst blocks) ->
  run_blocks blocks s = (r, s1) ->
  run_blocks blocks s1 = (r, s1).
Proof.
  unfold run_blocks. revert s. induction blocks as [|[name wanted] rest IH]; intros s Hnd Hrun.
  - injection Hrun as <- _. reflexivity.
  - cbn [map fst] in Hnd. inversion Hnd as [|? ? Hfresh Hnd']; subst.
    cbn [for_each fst snd] in *. unfold bind in Hrun.
    destruct (ensure_block name wanted s) as [[[]|e] sa] eqn:Hb.
    + destruct (run_blocks_frame rest sa s1 r Hrun) as (_ & Hother & _).
      unfold bind. rewrite (ensure_block_again name wanted s sa s1 (Normal tt) Hb (Hother name Hfresh)).
      apply (IH sa Hnd' Hrun).
    + injection Hrun as <- <-. unfold bind.
      rewrite (ensure_block_again name wanted s sa sa (Throw e) Hb eq_refl). reflexivity.
Qed.

Lemma createIndexes_body_flag (s s1 : State) :
  createIndexes_body s = (Normal tt, s1) -> indexCreated s1 = true.
Proof.
  unfold createIndexes_body, bind.
  destruct (for_each required_blocks _ s) as [[[]|e] sa]; [|discriminate].
  destruct (try_catch _ _ sa) as [[[]|e] sb]; [|discriminate].
  unfold mark_created. now intros [= <-].
Qed.

Lemma createIndexes_body_throw (s s1 : State) (e : JsError) :
  createIndexes_body s = (Throw e, s1) -> run_blocks required_blocks s = (Throw e, s1).
Proof.
  unfold createIndexes_body, bind. fold (run_blocks required_blocks).
  destruct (run_blocks required_blocks s) as [[[]|e'] sa]; [|now intros [= -> ->]].
  unfold try_catch.
  destruct (ensure_block "Appointment" appointment_indexes sa) as [[[]|e'] sb];
    discriminate.
Qed.

Lemma createIndexes_body_grown (s s1 : State) (r : Completion unit) :
  createIndexes_body s = (r, s1) -> models_grown s s1.
Proof.
  unfold createIndexes_body, bind. fold (run_blocks required_blocks).
  destruct (run_blocks required_blocks s) as [[[]|e] sa] eqn:Hreq.
  - destruct (run_blocks_frame _ _ _ _ Hreq) as (_ & _ & Hg).
    unfold try_catch.
    destruct (ensure_block "Appointment" appointment_indexes sa) as [[[]|e] sb] eqn:Happt;
      pose proof (ensure_block_grown _ _ _ _ _ Happt) as Hg';
      unfold mark_created, ret; intros [= _ <-];
      apply (models_grown_trans s sa); [exact Hg | | exact Hg | ];
      intros name c H; destruct (Hg' name c H) as (c1 & Hc1 & G); exists c1; now split.
  - intros [= _ <-]. now destruct (run_blocks_frame _ _ _ _ Hreq) as (_ & _ & Hg).
Qed.

(** An error [tryCreateIndex] is written to let pass. *)
Definition index_conflict (e : JsError) : Prop :=
  err_code e = Some 85
  \/ err_codeName e = Some "IndexOptionsConflict"
  \/ contains "already exists" (lower (err_message e)) = true.

Lemma index_conflict_benign (e : JsError) : index_conflict e -> benign e = true.
Proof.
  unfold benign. intros [H | [H | H]]; rewrite H; cbn; rewrite ?orb_true_r; reflexivity.
Qed.

(** C9.  From any state of the optimizer and of the collections,
    [createIndexes] run twice resolves both times, and the second run
    leaves everything as the first left it.  Each model is still there
    after the first run; if no two of its indexes shared a key pattern,
    none do after; and an index it has gained is on a key pattern that was
    missing.  An [IndexOptionsConflict] (code 85) or an "already exists"
    error of [createIndex] is absorbed by [tryCreateIndex], which returns
    with nothing changed. *)
Theorem createIndexes_idempotent (s0 : State) :
  (exists s1,
     createIndexes s0 = (Normal tt, s1)
     /\ createIndexes s1 = (Normal tt, s1)
     /\ forall name c0,
          models s0 !! name = Some c0 ->
          exists c1,
            models s1 !! name = Some c1
            /\ (List.NoDup (index_keys c0) -> List.NoDup (index_keys c1))
            /\ forall idx, In idx (index_list c1) ->
                           In idx (index_list c0)
                           \/ ~ In (stringify (key idx)) (index_keys c0))
  /\ (forall name spec options s c e,
        models s !! name = Some c ->
        createIndex spec options c = (Throw e, c) ->
        index_conflict e ->
        tryCreateIndex name spec options s = (Normal tt, s)).
Proof.
  split.
  - rewrite createIndexes_blocks.
    destruct (indexCreated s0) eqn:Hflag.
    + exists s0. split; [reflexivity|]. split.
      * rewrite createIndexes_blocks, Hflag. reflexivity.
      * intros name c0 H. exists c0. split; [exact H|]. split; [auto | intros idx Hi; now left].
    + unfold try_catch.
      destruct (createIndexes_body s0) as [[[]|e] s1] eqn:Hbody.
      * exists s1. split; [reflexivity|]. split.
        -- rewrite createIndexes_blocks, (createIndexes_body_flag s0 s1 Hbody). reflexivity.
        -- intros name c0 H.
           destruct (createIndexes_body_grown _ _ _ Hbody name c0 H) as (c1 & Hc1 & _ & Hn & Ha).
           exists c1. auto.
      * exists s1. split; [reflexivity|]. split.
        -- pose proof (createIndexes_body_throw _ _ _ Hbody) as Hreq.
           destruct (run_blocks_frame _ _ _ _ Hreq) as (Hflag1 & _ & _).
           rewrite createIndexes_blocks, Hflag1, Hflag.
           assert (Hnd : List.NoDup (map fst required_blocks)).
           { cbn. repeat constructor; cbn; intuition discriminate. }
           pose proof (run_blocks_again _ _ _ _ Hnd Hreq) as Hagain.
           unfold try_catch, createIndexes_body, bind. fold (run_blocks required_blocks).
           rewrite Hagain. reflexivity.
        -- intros name c0 H.
           destruct (createIndexes_body_grown _ _ _ Hbody name c0 H) as (c1 & Hc1 & _ & Hn & Ha).
           exists c1. auto.
  - intros name spec options s c e Hmodel Hthrow Hconflict.
    unfold tryCreateIndex, try_catch.
    rewrite (on_collection_run name _ s c Hmodel), Hthrow. cbn [fst snd].
    rewrite (index_conflict_benign e Hconflict), (with_model_id _ _ _ Hmodel). reflexivity.
Qed.

(** A database where the services collection does not exist yet and the
    users collection has the phone index under another name. *)
Definition legacy_state : State :=
  mkState false
    (<["Service" := None]>
       (<["User" := Some [id_index; mkIndex (JObj [("profile.phone", asc)]) "phone_1" false]]>
          (<["Review" := Some [id_index]]> ∅))).

Lemma createIndexes_idempotent_witness :
  (exists s1,
     createIndexes legacy_state = (Normal tt, s1) /\ createIndexes s1 = (Normal tt, s1))
  /\ tryCreateIndex "User" (JObj [("profile.phone", asc)]) (mkIndexOptions "user_phone" true)
       legacy_state
     = (Normal tt, legacy_state).
Proof.
  destruct (createIndexes_idempotent legacy_state) as [(s1 & H1 & H2 & _) Hconflict].
  split; [exists s1; split; assumption|].
  eapply Hconflict; [reflexivity | reflexivity | left; reflexivity].
Defined.

End IndexProps.

(** ** The appointment document over time *)

Module VisitProps.
Import Js Appointment AppointmentVirtuals JsProps AppointmentProps.

(** *** Eligibility over time *)

(** X1.  An appointment that can be canceled can be rescheduled; and the
    windows only close: what is refused at some time is refused at every
    later time. *)
Theorem eligibility_windows (now later : Z) (a : Appointment) :
  (canBeCanceled now a = true -> canBeRescheduled now a = true)
  /\ (now <= later ->
      (canBeCanceled now a = false -> canBeCanceled later a = false)
      /\ (canBeRescheduled now a = false -> canBeRescheduled later a = false)).
Proof.
  unfold canBeCanceled, canBeRescheduled. cbv zeta. split.
  - rewrite !andb_true_iff, !hours_le. intros [H Hs]. split; [lia | exact Hs].
  - intros Hle.
    split; intros H; apply not_true_is_false; intros H';
      apply not_true_iff_false in H; apply H;
      rewrite andb_true_iff, hours_le in *; (split; [lia | tauto]).
Qed.

(** An appointment a day ahead, seen 25 hours, 1 hour and 2 hours after
    the time origin. *)
Definition tomorrow : Appointment :=
  mkAppointment 90000000 "confirmed" (mkCost 0 [] (Fin 0) 0 (Fin 0))
    (mkConsultation None None None) [].

Lemma eligibility_windows_witness :
  canBeRescheduled 0 tomorrow = true
  /\ canBeCanceled 3600001 tomorrow = false
  /\ canBeCanceled 7200000 tomorrow = false.
Proof.
  split; [apply (proj1 (eligibility_windows 0 0 tomorrow)); reflexivity|].
  split; [reflexivity|].
  apply (proj1 (proj2 (eligibility_windows 3600001 7200000 tomorrow) ltac:(lia))).
  reflexivity.
Defined.

(** *** Runs of status updates *)

(** A run of [updateStatus] calls on one document, each with the value of
    [new Date()] at the call; a call that throws leaves the document to
    the next one as it is. *)
Fixpoint updateStatuses (calls : list (Z * string)) (this : Appointment) : Appointment :=
  match calls with
  | [] => this
  | (now, newStatus) :: rest => updateStatuses rest (snd (updateStatus now newStatus this))
  end.

(** What a run keeps true of a document at time [t]: the status is one of
    the enum; while in progress the consultation has a start time, not
    after [t]; once completed it has a start and an end time, in that
    order, and the rounded number of minutes between them. *)
Definition timed (t : Z) (a : Appointment) : Prop :=
  In (status a) status_enum
  /\ (status a = "in-progress" ->
      exists s, startTime (consultation a) = Some s /\ s <= t)
  /\ (status a = "completed" ->
      exists s e,
        startTime (consultation a) = Some s
        /\ endTime (consultation a) = Some e
        /\ s <= e
        /\ actualDuration (consultation a)
           = Some (Math_round (((e - s) # 1) / ((1000 * 60) # 1))%Q)).

(** The calls of a run come at times that do not go back from [t]. *)
Fixpoint clock (t : Z) (calls : list (Z * string)) : bool :=
  match calls with
  | [] => true
  | (now, _) :: rest => (t <=? now) && clock now rest
  end.

Lemma timed_later (t t' : Z) (a : Appointment) : t <= t' -> timed t a -> timed t' a.
Proof.
  intros Hle (Henum & Hprog & Hdone). split; [exact Henum|]. split; [|exact Hdone].
  intros Hs. destruct (Hprog Hs) as (s & Hstart & Hb). exists s. split; [exact Hstart | lia].
Qed.

Lemma updateStatus_throw (now : Z) (to : string) (a a' : Appointment) (e : JsError) :
  updateStatus now to a = (Throw e, a') -> a' = a.
Proof.
  unfold updateStatus. destruct (prop_get _ _) as [allowed|]; [|congruence].
  destruct (includes allowed to); cbn; [unfold save; discriminate | congruence].
Qed.

(** One call keeps a document timed. *)
Lemma updateStatus_timed (t now : Z) (to : string) (a : Appointment) :
  t <= now -> timed t a -> timed now (snd (updateStatus now to a)).
Proof.
  intros Hle Ht.
  destruct (updateStatus now to a) as [[[]|e] a'] eqn:Hupd; cbn [snd].
  2:{ apply updateStatus_throw in Hupd. subst a'. now apply (timed_later t). }
  destruct (updateStatus_inv _ _ _ _ Hupd) as (allowed & Hget & Hinc).
  pose proof (proj1 (includes_In _ _) Hinc) as Hin.
  destruct (allowed_target _ _ _ Hget Hin) as (Henum & Hfrom_prog & Hfrom_done).
  rewrite (updateStatus_stamp _ _ _ _ Hget Hinc) in Hupd.
  apply (f_equal snd) in Hupd. cbn [snd] in Hupd. subst a'.
  unfold timed. rewrite status_save, consultation_save, status_stamp.
  split; [exact Henum|]. unfold stamp. cbv zeta.
  destruct (string_dec to "in-progress") as [->|Hnp].
  { cbn. split; [intros _; exists now; split; [reflexivity | lia] | discriminate]. }
  destruct (string_dec to "completed") as [->|Hnc].
  { destruct Ht as (_ & Hprog & _).
    destruct (Hprog (Hfrom_done eq_refl)) as (s & Hstart & Hs).
    cbn. rewrite Hstart. split; [discriminate|]. intros _. cbn. rewrite Hstart.
    exists s, now. repeat split; [lia]. }
  apply String.eqb_neq in Hnp, Hnc. rewrite Hnp, Hnc.
  apply String.eqb_neq in Hnp, Hnc. split; intros ->; contradiction.
Qed.

Lemma updateStatuses_timed (calls : list (Z * string)) (t : Z) (a : Appointment) :
  clock t calls = true -> timed t a ->
  exists t', t <= t' /\ timed t' (updateStatuses calls a).
Proof.
  revert t a. induction calls as [|[now to] rest IH]; intros t a Hclock Ht.
  - exists t. split; [lia | exact Ht].
  - cbn in Hclock. apply andb_true_iff in Hclock as [Hle Hrest]. apply Z.leb_le in Hle.
    destruct (IH now _ Hrest (updateStatus_timed t now to a Hle Ht)) as (t' & Hle' & Ht').
    exists t'. split; [lia | exact Ht'].
Qed.

(** X2.  Whatever calls of [updateStatus] a newly scheduled appointment goes
    through, made at times that do not go back: its status stays one of the
    enum, and when it is completed it carries a start time, an end time not
    before it, and as [actualDuration] the number of minutes between them,
    rounded to the nearest and not negative. *)
Theorem completed_visit_is_timed (t : Z) (calls : list (Z * string)) (a : Appointment) :
  status a = "scheduled" ->
  clock t calls = true ->
  let a' := updateStatuses calls a in
  In (status a') status_enum
  /\ (status a' = "completed" ->
      exists s e d,
        startTime (consultation a') = Some s
        /\ endTime (consultation a') = Some e
        /\ actualDuration (consultation a') = Some d
        /\ s <= e
        /\ 60000 * d - 30000 <= e - s < 60000 * d + 30000
        /\ 0 <= d).
Proof.
  intros Hs Hclock a'.
  assert (Ht : timed t a).
  { split; [rewrite Hs; cbn; tauto|]. split; rewrite Hs; discriminate. }
  destruct (updateStatuses_timed calls t a Hclock Ht) as (t' & _ & Henum & _ & Hdone).
  split; [exact Henum|]. intros Hc.
  destruct (Hdone Hc) as (s & e & Hstart & Hend & Hle & Hdur).
  exists s, e, (Math_round (((e - s) # 1) / ((1000 * 60) # 1))%Q).
  repeat split; try assumption.
  - apply (proj1 (Math_round_minutes_nearest (e - s) _) eq_refl).
  - apply (proj1 (Math_round_minutes_nearest (e - s) _) eq_refl).
  - rewrite Math_round_minutes. apply Z.div_pos; lia.
Qed.

(** A visit booked, confirmed, started and, 25 minutes later, ended. *)
Definition booked_visit : Appointment :=
  mkAppointment 1767261600000 "scheduled" (mkCost 100 [] (Fin 100) 0 (Fin 100))
    (mkConsultation None None None) [].

Definition visit_calls : list (Z * string) :=
  [ (1767000000000, "confirmed"); (1767261600000, "in-progress");
    (1767261600000, "scheduled"); (1767263100000, "completed") ].

Lemma completed_visit_is_timed_witness :
  status (updateStatuses visit_calls booked_visit) = "completed"
  /\ exists s e d,
       startTime (consultation (updateStatuses visit_calls booked_visit)) = Some s
       /\ endTime (consultation (updateStatuses visit_calls booked_visit)) = Some e
       /\ actualDuration (consultation (updateStatuses visit_calls booked_visit)) = Some d
       /\ s <= e
       /\ 60000 * d - 30000 <= e - s < 60000 * d + 30000
       /\ 0 <= d.
Proof.
  split; [reflexivity|].
  apply (completed_visit_is_timed 0 visit_calls booked_visit eq_refl eq_refl). reflexivity.
Defined.

(** X3.  From [completed], [canceled] or [no-show] no run of [updateStatus]
    calls changes the document. *)
Theorem final_statuses_are_final (calls : list (Z * string)) (a : Appointment) :
  In (status a) ["completed"; "canceled"; "no-show"] ->
  updateStatuses calls a = a.
Proof.
  intros Hfinal. induction calls as [|[now to] rest IH]; [reflexivity|].
  cbn [updateStatuses].
  assert (Hthrow : updateStatus now to a = (Throw (illegal_transition (status a) to), a)).
  { apply (updateStatus_refused now to a []); [|intros []].
    cbn in Hfinal. destruct Hfinal as [<-|[<-|[<-|[]]]]; reflexivity. }
  rewrite Hthrow. exact IH.
Qed.

Lemma final_statuses_are_final_witness :
  updateStatuses [(1767263200000, "scheduled"); (1767263300000, "in-progress")]
    (updateStatuses visit_calls booked_visit)
  = updateStatuses visit_calls booked_visit.
Proof.
  apply final_statuses_are_final. left. reflexivity.
Defined.

(** *** Costs *)

(** X4.  One charge without an amount is enough for [calculateTotalCost] to
    return [NaN] and, the two assignments of [NaN] being refused, to leave
    every amount of [cost] as it was, whatever the other amounts are. *)
Theorem calculateTotalCost_missing_amount (a : Appointment) (charge : Charge) :
  In charge (additionalCharges (cost a)) ->
  amount charge = None ->
  fst (calculateTotalCost a) = NaN
  /\ cost (snd (calculateTotalCost a)) = cost a.
Proof.
  intros Hin Hnone.
  assert (Hp : priced (additionalCharges (cost a)) = false).
  { apply not_true_is_false. intros Hp. unfold priced in Hp.
    rewrite forallb_forall in Hp. specialize (Hp charge Hin). now rewrite Hnone in Hp. }
  assert (Hnan : fst (calculateTotalCost a) = NaN)
    by (rewrite calculateTotalCost_total, Hp; reflexivity).
  split; [exact Hnan|]. now rewrite calculateTotalCost_refused.
Qed.

Lemma calculateTotalCost_missing_amount_witness :
  let a := mkAppointment 0 "scheduled"
             (mkCost 100 [mkCharge "Dressing" (Some 20); mkCharge "Transport" None]
                     (Fin 100) 0 (Fin 100))
             (mkConsultation None None None) ["cost.additionalCharges"] in
  fst (calculateTotalCost a) = NaN
  /\ totalAmount (cost (snd (calculateTotalCost a))) = Fin 100
  /\ patientPayment (cost (snd (calculateTotalCost a))) = Fin 100.
Proof.
  cbv zeta.
  destruct (calculateTotalCost_missing_amount
              (mkAppointment 0 "scheduled"
                 (mkCost 100 [mkCharge "Dressing" (Some 20); mkCharge "Transport" None]
                         (Fin 100) 0 (Fin 100))
                 (mkConsultation None None None) ["cost.additionalCharges"])
              (mkCharge "Transport" None)) as [Hnan Hcost];
    [right; left; reflexivity | reflexivity |].
  split; [exact Hnan|]. rewrite Hcost. split; reflexivity.
Defined.

(** X5.  After [calculateTotalCost], on a cost of safe whole numbers with
    every charge carrying an amount, [patientPayment] passes the schema's
    [min: 0] validator exactly when [insuranceCovered] is at most the
    total; and when a charge carries no amount, [patientPayment] passes it
    exactly when it did before. *)
Theorem calculateTotalCost_patientPayment_valid (a : Appointment) :
  (exact_cost a = true ->
   (patientPayment_min_ok (snd (calculateTotalCost a)) = true
    <-> insuranceCovered (cost a)
        <= basePrice (cost a) + amounts (additionalCharges (cost a))))
  /\ (priced (additionalCharges (cost a)) = false ->
      patientPayment_min_ok (snd (calculateTotalCost a)) = patientPayment_min_ok a).
Proof.
  pose proof (calculateTotalCost_total a) as Htotal. split.
  - intros Hexact. unfold exact_cost in Hexact. rewrite !andb_true_iff in Hexact.
    destruct Hexact as [[Hsums _] _]. apply sums_safe_priced in Hsums.
    rewrite Hsums in Htotal. unfold patientPayment_min_ok.
    rewrite (calculateTotalCost_stored a _ Htotal). cbn [patientPayment].
    rewrite Z.leb_le. lia.
  - intros Hp. rewrite Hp in Htotal.
    now rewrite (calculateTotalCost_refused a Htotal).
Qed.

Lemma calculateTotalCost_patientPayment_valid_witness :
  patientPayment_min_ok (snd (calculateTotalCost priced_visit)) = true
  /\ patientPayment_min_ok (snd (calculateTotalCost unpriced_visit))
     = patientPayment_min_ok unpriced_visit.
Proof.
  split.
  - apply (proj1 (calculateTotalCost_patientPayment_valid priced_visit) eq_refl).
    cbn. lia.
  - exact (proj2 (calculateTotalCost_patientPayment_valid unpriced_visit) eq_refl).
Defined.

(** *** The duration in hours *)

Lemma durationInHours_hundredths (duration : Z) :
  durationInHours duration == ((10 * duration + 3) / 6 # 100)%Q.
Proof.
  unfold durationInHours, Math_round.
  assert (H : Qfloor ((duration # 1) / (60 # 1) * (100 # 1) + (1 # 2)) = (10 * duration + 3) / 6).
  { assert (Heq : ((duration # 1) / (60 # 1) * (100 # 1) + (1 # 2)
                    == (10 * duration + 3) # 6)%Q)
      by (unfold Qeq; cbn; lia).
    rewrite (Qfloor_comp _ _ Heq). reflexivity. }
  rewrite H. unfold Qeq, Qdiv, Qmult, Qinv. cbn. lia.
Qed.

(** X6.  For a duration the schema admits, of 15 to 480 minutes,
    [durationInHours] is a whole number of hundredths between a quarter of
    an hour and 8 hours, the nearest to the duration in hours: within half a
    hundredth of it. *)
Theorem durationInHours_nearest (duration : Z) :
  15 <= duration <= 480 ->
  exists h : Z,
    (durationInHours duration == h # 100)%Q
    /\ 25 <= h <= 800
    /\ ((duration # 60) - (1 # 200) <= durationInHours duration)%Q
    /\ (durationInHours duration <= (duration # 60) + (1 # 200))%Q.
Proof.
  intros Hrange.
  exists ((10 * duration + 3) / 6). split; [apply durationInHours_hundredths|].
  pose proof (Z.mul_div_le (10 * duration + 3) 6 ltac:(lia)).
  pose proof (Z.mul_succ_div_gt (10 * duration + 3) 6 ltac:(lia)).
  split; [lia|].
  rewrite durationInHours_hundredths.
  unfold Qle, Qminus, Qplus, Qopp. cbn. split; lia.
Qed.

Lemma durationInHours_nearest_witness :
  exists h : Z,
    (durationInHours 50 == h # 100)%Q
    /\ 25 <= h <= 800
    /\ ((50 # 60) - (1 # 200) <= durationInHours 50)%Q
    /\ (durationInHours 50 <= (50 # 60) + (1 # 200))%Q.
Proof. apply durationInHours_nearest. lia. Defined.

End VisitProps.

(** ** The cache service beyond reads and writes *)

Module CacheServiceProps.
Import Js JSON CacheService CacheConnection CacheEntries.
Import JsProps CacheProps InvalidationProps JsonProps RoundTripProps.

(** *** Reconnecting *)

(** X7.  A delay that [retry_strategy] returns is a hundred milliseconds per
    attempt and never more than a second: the cap of 3000 is not reached,
    the attempts past the tenth being given up before. *)
Theorem retry_strategy_delay (options : RetryOptions) (ms : Z) :
  retry_strategy options = RetryAfter ms ->
  ms = attempt options * 100
  /\ ms <= 1000
  /\ attempt options <= 10
  /\ total_retry_time options <= 3600000.
Proof.
  unfold retry_strategy. change (1000 * 60 * 60) with 3600000.
  destruct (3600000 <? total_retry_time options) eqn:Htime; [discriminate|].
  destruct (10 <? attempt options) eqn:Hattempt; [discriminate|].
  apply Z.ltb_ge in Htime, Hattempt. intros [= <-]. lia.
Qed.

Lemma retry_strategy_delay_witness :
  700 = 7 * 100 /\ 700 <= 1000 /\ 7 <= 10 /\ 5000 <= 3600000.
Proof.
  apply (retry_strategy_delay (mkRetryOptions 5000 7) 700). reflexivity.
Defined.

(** *** The service in every state *)

Lemma service_eta (this : CacheService) (srv : Redis.Server) :
  client this = Some srv -> mkCacheService (Some srv) (isConnected this) = this.
Proof. destruct this as [c b]. cbn. now intros ->. Qed.

(** The service is flagged as connected and has a client that reaches the
    server, which answers; a closed client, which rejects every command,
    does not serve. *)
Definition serving (this : CacheService) : bool :=
  isConnected this
  && match client this with
     | Some srv => Redis.reachable srv
     | None => false
     end.

Lemma serving_connected (this : CacheService) :
  serving this = true ->
  exists srv, this = connected srv /\ Redis.reachable srv = true.
Proof.
  unfold serving. destruct this as [[srv|] [|]]; cbn; try discriminate.
  intros Hr. exists srv. split; [reflexivity | exact Hr].
Qed.

Lemma not_serving (this : CacheService) :
  serving this = false ->
  unavailable this = true
  \/ exists srv, client this = Some srv /\ Redis.reachable srv = false.
Proof.
  unfold serving, unavailable. destruct this as [[srv|] [|]]; cbn; auto.
  intros Hr. right. eauto.
Qed.

(** A guarded client call on a service that is not serving returns the
    fallback and leaves the service as it is. *)
Lemma guarded_not_serving {A B : Type} (run : Redis.Server -> Completion A * Redis.Server)
    (k : A -> M CacheService B) (fallback : B) (this : CacheService) :
  serving this = false ->
  try_catch
    (fun this0 => if unavailable this0 then ret fallback this0
                  else bind (on_client (Redis.command run)) k this0)
    (fun error => ret fallback) this
  = (Normal fallback, this).
Proof.
  intros Hns. unfold try_catch.
  destruct (not_serving this Hns) as [Hun | (srv & Hsrv & Hr)].
  - rewrite Hun. reflexivity.
  - destruct (unavailable this); [reflexivity|].
    unfold bind, on_client, Redis.command. rewrite Hsrv, Hr. cbn.
    now rewrite (service_eta this srv Hsrv).
Qed.

Lemma get_not_serving (key : string) (this : CacheService) :
  serving this = false -> get key this = (Normal JNull, this).
Proof. intros H. apply (guarded_not_serving _ _ JNull this H). Qed.

Lemma set_not_serving (key : string) (v : Json) (expiration : Z) (this : CacheService) :
  serving this = false -> set key v expiration this = (Normal false, this).
Proof. intros H. apply (guarded_not_serving _ _ false this H). Qed.

Lemma del_not_serving (key : string) (this : CacheService) :
  serving this = false -> del key this = (Normal false, this).
Proof. intros H. apply (guarded_not_serving _ _ false this H). Qed.

Lemma exists_not_serving (key : string) (this : CacheService) :
  serving this = false -> exists_ key this = (Normal false, this).
Proof. intros H. apply (guarded_not_serving _ _ false this H). Qed.

Lemma flush_not_serving (this : CacheService) :
  serving this = false -> flush this = (Normal false, this).
Proof. intros H. apply (guarded_not_serving _ _ false this H). Qed.

Lemma keys_not_serving (pattern : string) (this : CacheService) :
  serving this = false -> keys pattern this = (Normal [], this).
Proof.
  intros Hns. unfold keys, try_catch.
  destruct (not_serving this Hns) as [Hun | (srv & Hsrv & Hr)].
  - rewrite Hun. reflexivity.
  - destruct (unavailable this); [reflexivity|].
    unfold on_client, Redis.KEYS, Redis.command. rewrite Hsrv, Hr. cbn.
    now rewrite (service_eta this srv Hsrv).
Qed.

(** X8.  While the service is not serving (flagged as disconnected, as after
    an [error] or [end] event, without a client, or with a closed client,
    which rejects every command), every operation resolves to its fallback
    and leaves the service, and what the server holds, as it is: [flush]
    clears nothing and [keys] lists nothing. *)
Theorem operations_while_not_serving (key pattern : string) (v : Json) (expiration : Z)
    (this : CacheService) :
  (serving this = false ->
     get key this = (Normal JNull, this)
     /\ set key v expiration this = (Normal false, this)
     /\ del key this = (Normal false, this)
     /\ exists_ key this = (Normal false, this)
     /\ flush this = (Normal false, this)
     /\ keys pattern this = (Normal [], this))
  /\ serving (on_event error_event this) = false
  /\ serving (on_event end_event this) = false.
Proof.
  split; [|split; reflexivity].
  intros Hns. repeat split.
  - now apply get_not_serving.
  - now apply set_not_serving.
  - now apply del_not_serving.
  - now apply exists_not_serving.
  - now apply flush_not_serving.
  - now apply keys_not_serving.
Qed.

(** A server that holds a session, with a service that has seen the
    connection end. *)
Definition session_server : Redis.Server :=
  Redis.mkServer true
    (<["production:session:s1" := Redis.mkEntry (stringify (JObj [("user", JStr "42")]))
                                                (Some 86400)]> ∅).

Lemma operations_while_not_serving_witness :
  let this := on_event end_event (connected session_server) in
  flush this = (Normal false, this)
  /\ keys "*" this = (Normal [], this)
  /\ exists_ "production:session:s1" this = (Normal false, this).
Proof.
  cbv zeta.
  destruct (proj1 (operations_while_not_serving "production:session:s1" "*" JNull 60
                     (on_event end_event (connected session_server))) eq_refl)
    as (_ & _ & _ & Hexists & Hflush & Hkeys).
  split; [exact Hflush|]. split; [exact Hkeys | exact Hexists].
Defined.

(** *** Writing and reading *)

(** X9.  [set] with an expiration that is not positive stores nothing and
    resolves to [false], in every state: the server refuses the [SETEX]. *)
Theorem set_expiration_not_positive (key : string) (v : Json) (expiration : Z)
    (this : CacheService) :
  expiration <= 0 ->
  set key v expiration this = (Normal false, this).
Proof.
  intros Hle. destruct (serving this) eqn:Hs; [|now apply set_not_serving].
  destruct (serving_connected this Hs) as (srv & -> & Hr).
  unfold set, try_catch, bind, on_client, Redis.SETEX, Redis.command. cbn.
  rewrite Hr. apply Z.leb_le in Hle. rewrite Hle. reflexivity.
Qed.

Lemma set_expiration_not_positive_witness :
  set "production:user:42" (JObj [("name", JStr "Asha")]) 0 (connected session_server)
  = (Normal false, connected session_server).
Proof. apply set_expiration_not_positive. lia. Defined.

Lemma get_connected (key : string) (srv : Redis.Server) :
  Redis.reachable srv = true ->
  get key (connected srv)
  = (match Redis.db srv !! key with
     | Some entry =>
         if String.eqb (Redis.value entry) "" then Normal JNull
         else match parse (Redis.value entry) with
              | Normal v => Normal v
              | Throw _ => Normal JNull
              end
     | None => Normal JNull
     end, connected srv).
Proof.
  intros Hr. unfold get, try_catch, bind, on_client, Redis.GET, Redis.command. cbn.
  rewrite Hr. destruct srv as [r d]. cbn.
  destruct (d !! key) as [entry|]; cbn; [|reflexivity].
  destruct (String.eqb _ ""); [reflexivity|].
  unfold lift. destruct (parse _); reflexivity.
Qed.

(** X10.  An entry whose text is empty or is not JSON reads as [null], as an
    absent one does, and stays where it is; this for the texts without a
    fraction, an exponent or an escape beyond the ASCII range, which are
    JSON exactly when [parse] reads them. *)
Theorem get_unreadable_entry (key : string) (entry : Redis.Entry) (srv : Redis.Server) :
  Redis.reachable srv = true ->
  Redis.db srv !! key = Some entry ->
  Redis.value entry = ""
  \/ (integral (Redis.value entry) = true /\ exists e, parse (Redis.value entry) = Throw e) ->
  get key (connected srv) = (Normal JNull, connected srv).
Proof.
  intros Hr Hk Hbad. rewrite (get_connected key srv Hr), Hk.
  destruct Hbad as [-> | [_ [e ->]]]; [reflexivity|].
  destruct (String.eqb _ ""); reflexivity.
Qed.

Definition damaged_server : Redis.Server :=
  Redis.mkServer true (<["production:user:42" := Redis.mkEntry "{oops" (Some 1800)]> ∅).

Lemma get_unreadable_entry_witness :
  get "production:user:42" (connected damaged_server) = (Normal JNull, connected damaged_server).
Proof.
  apply (get_unreadable_entry _ (Redis.mkEntry "{oops" (Some 1800))); [reflexivity..|].
  right. split; [reflexivity|]. eexists. reflexivity.
Defined.

(** What [set] leaves on a server that answers, and what [get] then
    reads. *)
Definition stored (key : string) (v : Json) (expiration : Z) (srv : Redis.Server)
  : Redis.Server :=
  Redis.with_db (<[key := Redis.mkEntry (stringify v) (Some expiration)]> (Redis.db srv)) srv.

Lemma set_then_get (key : string) (v : Json) (expiration : Z) (srv : Redis.Server) :
  Redis.reachable srv = true ->
  0 < expiration ->
  plain v = true ->
  set key v expiration (connected srv) = (Normal true, connected (stored key v expiration srv))
  /\ get key (connected (stored key v expiration srv))
     = (Normal v, connected (stored key v expiration srv)).
Proof.
  intros Hr Hpos Hplain. split; [now apply set_connected|].
  apply (get_present key (stringify v) (Some expiration)); [exact Hr | | now apply parse_stringify].
  cbn [stored Redis.db Redis.with_db]. apply lookup_insert_eq.
Qed.

Lemma or_default_positive (value : Z) (expiration : option Z) :
  0 < value -> (forall e, expiration = Some e -> 0 < e) -> 0 < or_default value expiration.
Proof. intros Hv He. destruct expiration as [e|]; cbn; [now apply He | exact Hv]. Qed.

(** X11.  On a server that answers, what [cacheServiceList],
    [cacheUserProfile], [cacheAppointments] and [storeSession] store, with
    their default expiration or a positive one, is what
    [getCachedServiceList], [getCachedUserProfile], [getCachedAppointments]
    and [getSession] read back, for the same filters or identifier. *)
Theorem typed_entries_read_back (env : option string) (filters : list (string * Json))
    (id : string) (data : Json) (expiration : option Z) (srv : Redis.Server) :
  Redis.reachable srv = true ->
  plain data = true ->
  (forall e, expiration = Some e -> 0 < e) ->
  (exists srv',
     cacheServiceList env filters data expiration (connected srv)
     = (Normal true, connected srv')
     /\ getCachedServiceList env filters (connected srv') = (Normal data, connected srv'))
  /\ (exists srv',
        cacheUserProfile env id data expiration (connected srv)
        = (Normal true, connected srv')
        /\ getCachedUserProfile env id (connected srv') = (Normal data, connected srv'))
  /\ (exists srv',
        cacheAppointments env id data expiration (connected srv)
        = (Normal true, connected srv')
        /\ getCachedAppointments env id (connected srv') = (Normal data, connected srv'))
  /\ (exists srv',
        storeSession env id data expiration (connected srv) = (Normal true, connected srv')
        /\ getSession env id (connected srv') = (Normal data, connected srv')).
Proof.
  intros Hr Hplain He.
  repeat split; eexists;
    apply set_then_get; try assumption; apply or_default_positive; try assumption; lia.
Qed.

Definition profile : Json :=
  JObj [("firstName", JStr "Asha"); ("roles", JArr [JStr "patient"]); ("visits", JNum 3)].

Lemma typed_entries_read_back_witness :
  exists srv',
    storeSession (Some "production") "s2" profile None (connected session_server)
    = (Normal true, connected srv')
    /\ getSession (Some "production") "s2" (connected srv') = (Normal profile, connected srv').
Proof.
  apply (typed_entries_read_back (Some "production") [] "s2" profile None session_server
           eq_refl eq_refl).
  intros e [=].
Defined.

Lemma append_inv_head (a b c : string) : a ++ b = a ++ c -> b = c.
Proof.
  induction a as [|x a IH]; [easy|]. rewrite !append_cons. intros [= H]. now apply IH.
Qed.

(** Keys of one type are as distinct as their identifiers. *)
Lemma generateKey_inj (env : option string) (type id id' : string) :
  generateKey env type id [] = generateKey env type id' [] -> id = id'.
Proof.
  unfold generateKey. cbn [length Nat.ltb Nat.leb]. rewrite !append_nil_r.
  intros H. now do 4 apply append_inv_head in H.
Qed.

Lemma get_other_key (key other : string) (entry : Redis.Entry) (srv : Redis.Server) :
  Redis.reachable srv = true ->
  other <> key ->
  fst (get other (connected (Redis.with_db (<[key := entry]> (Redis.db srv)) srv)))
  = fst (get other (connected srv)).
Proof.
  intros Hr Hne. rewrite !get_connected by exact Hr. cbn [fst Redis.db Redis.with_db].
  now rewrite lookup_insert_ne.
Qed.

(** X12.  Storing a session leaves every other session reading as before,
    and a session that is deleted reads as [null]. *)
Theorem sessions_are_separate (env : option string) (id other : string) (data : Json)
    (expiration : option Z) (srv : Redis.Server) :
  Redis.reachable srv = true ->
  (forall e, expiration = Some e -> 0 < e) ->
  other <> id ->
  exists srv' srv'',
    storeSession env id data expiration (connected srv) = (Normal true, connected srv')
    /\ fst (getSession env other (connected srv')) = fst (getSession env other (connected srv))
    /\ deleteSession env id (connected srv') = (Normal true, connected srv'')
    /\ getSession env id (connected srv'') = (Normal JNull, connected srv'')
    /\ fst (getSession env other (connected srv''))
       = fst (getSession env other (connected srv)).
Proof.
  intros Hr He Hne. do 2 eexists. split; [|split; [|split; [|split]]].
  - apply set_connected; [exact Hr|]. apply or_default_positive; [lia | exact He].
  - apply get_other_key; [exact Hr|]. intros H. now apply generateKey_inj in H.
  - apply del_connected. exact Hr.
  - apply get_absent. cbn [Redis.db Redis.with_db]. apply lookup_delete_eq.
  - unfold getSession. rewrite !get_connected by exact Hr. cbn [fst Redis.db Redis.with_db].
    assert (Hk : generateKey env "session" other [] <> generateKey env "session" id [])
      by (intros H; now apply generateKey_inj in H).
    rewrite lookup_delete_ne by congruence. now rewrite lookup_insert_ne by congruence.
Qed.

Lemma sessions_are_separate_witness :
  exists srv' srv'',
    storeSession (Some "production") "s2" profile None (connected session_server)
    = (Normal true, connected srv')
    /\ fst (getSession (Some "production") "s1" (connected srv'))
       = Normal (JObj [("user", JStr "42")])
    /\ deleteSession (Some "production") "s2" (connected srv') = (Normal true, connected srv'')
    /\ getSession (Some "production") "s2" (connected srv'') = (Normal JNull, connected srv'').
Proof.
  destruct (sessions_are_separate (Some "production") "s2" "s1" profile None session_server
              eq_refl ltac:(intros e [=]) ltac:(intros [=]))
    as (srv' & srv'' & Hstore & Hother & Hdel & Hget & _).
  exists srv', srv''. split; [exact Hstore|]. split; [|split; [exact Hdel | exact Hget]].
  rewrite Hother. reflexivity.
Defined.

(** *** Presence *)

Lemma exists_connected (key : string) (srv : Redis.Server) :
  Redis.reachable srv = true ->
  exists_ key (connected srv)
  = (Normal (if Redis.db srv !! key is Some _ then true else false), connected srv).
Proof.
  intros Hr. unfold exists_, try_catch, bind, on_client, Redis.EXISTS, Redis.command. cbn.
  rewrite Hr. destruct srv as [r d]. cbn. destruct (d !! key); reflexivity.
Qed.

Lemma flush_connected (srv : Redis.Server) :
  Redis.reachable srv = true ->
  flush (connected srv) = (Normal true, connected (Redis.with_db ∅ srv)).
Proof.
  intros Hr. unfold flush, try_catch, bind, on_client, Redis.FLUSHALL, Redis.command. cbn.
  rewrite Hr. reflexivity.
Qed.

(** X13.  On a server that answers, [exists] tells whether the key is held:
    [true] right after a [set] of the key, [false] right after its [del],
    and for any other key what it was before. *)
Theorem exists_follows_set_and_del (key other : string) (v : Json) (expiration : Z)
    (srv : Redis.Server) :
  Redis.reachable srv = true ->
  0 < expiration ->
  other <> key ->
  exists srv' srv'',
    set key v expiration (connected srv) = (Normal true, connected srv')
    /\ exists_ key (connected srv') = (Normal true, connected srv')
    /\ fst (exists_ other (connected srv')) = fst (exists_ other (connected srv))
    /\ del key (connected srv') = (Normal true, connected srv'')
    /\ exists_ key (connected srv'') = (Normal false, connected srv'')
    /\ fst (exists_ other (connected srv'')) = fst (exists_ other (connected srv)).
Proof.
  intros Hr Hpos Hne. do 2 eexists.
  split; [now apply set_connected|].
  split; [rewrite exists_connected by exact Hr; cbn [Redis.db Redis.with_db];
          now rewrite lookup_insert_eq|].
  split; [rewrite !exists_connected by exact Hr; cbn [fst Redis.db Redis.with_db];
          now rewrite lookup_insert_ne by congruence|].
  split; [now apply del_connected|].
  split; [rewrite exists_connected by exact Hr; cbn [Redis.db Redis.with_db];
          now rewrite lookup_delete_eq|].
  rewrite !exists_connected by exact Hr. cbn [fst Redis.db Redis.with_db].
  rewrite lookup_delete_ne by congruence. now rewrite lookup_insert_ne by congruence.
Qed.

Lemma exists_follows_set_and_del_witness :
  exists srv' srv'',
    set "production:user:42" profile 1800 (connected session_server)
    = (Normal true, connected srv')
    /\ exists_ "production:user:42" (connected srv') = (Normal true, connected srv')
    /\ del "production:user:42" (connected srv') = (Normal true, connected srv'')
    /\ exists_ "production:user:42" (connected srv'') = (Normal false, connected srv'')
    /\ fst (exists_ "production:session:s1" (connected srv'')) = Normal true.
Proof.
  destruct (exists_follows_set_and_del "production:user:42" "production:session:s1" profile
              1800 session_server eq_refl eq_refl ltac:(intros [=]))
    as (srv' & srv'' & Hset & Hex & _ & Hdel & Hgone & Hother).
  exists srv', srv''. repeat (split; [assumption|]). rewrite Hother. reflexivity.
Defined.

(** X14.  On a server that answers, [flush] resolves to [true] and leaves
    nothing behind: every key reads as [null], none [exists], and [keys]
    lists none, whatever the pattern. *)
Theorem flush_leaves_nothing (srv : Redis.Server) (key pattern : string) :
  Redis.reachable srv = true ->
  exists srv',
    flush (connected srv) = (Normal true, connected srv')
    /\ get key (connected srv') = (Normal JNull, connected srv')
    /\ exists_ key (connected srv') = (Normal false, connected srv')
    /\ keys pattern (connected srv') = (Normal [], connected srv').
Proof.
  intros Hr. eexists. split; [now apply flush_connected|].
  split; [apply get_absent; apply lookup_empty|].
  split; [now rewrite exists_connected by exact Hr|].
  rewrite keys_connected by exact Hr. cbn [Redis.db Redis.with_db].
  now rewrite map_to_list_empty.
Qed.

Lemma flush_leaves_nothing_witness :
  exists srv',
    flush (connected session_server) = (Normal true, connected srv')
    /\ get "production:session:s1" (connected srv') = (Normal JNull, connected srv')
    /\ exists_ "production:session:s1" (connected srv') = (Normal false, connected srv')
    /\ keys "*" (connected srv') = (Normal [], connected srv').
Proof. apply flush_leaves_nothing. reflexivity. Defined.

(** *** Invalidation by the service *)

(** A character that [KEYS] reads as part of a pattern. *)
Definition glob_special (c : ascii) : bool :=
  existsb (Ascii.eqb c) ["*"; "?"; "["; backslash]%char.

(** A text that, as a pattern, stands for itself. *)
Fixpoint verbatim (s : string) : bool :=
  match s with
  | EmptyString => true
  | String c rest => negb (glob_special c) && verbatim rest
  end.

Lemma glob_verbatim_prefix (p k : string) :
  verbatim p = true -> Redis.glob (p ++ "*") k = String.prefix p k.
Proof.
  revert k. induction p as [|c p IH]; intros k Hv.
  - rewrite append_nil_l, glob_star_only. now destruct k.
  - cbn [verbatim] in Hv. apply andb_true_iff in Hv as [Hc Hv].
    apply negb_true_iff in Hc. unfold glob_special in Hc. cbn [existsb] in Hc.
    apply orb_false_iff in Hc as [Hstar Hc]. apply orb_false_iff in Hc as [Hq _].
    rewrite append_cons. cbn [Redis.glob String.prefix]. rewrite Hstar, Hq.
    destruct k as [|d k]; [reflexivity|]. cbn [orb String.prefix]. rewrite (IH k Hv).
    destruct (ascii_dec c d) as [->|Hne].
    + now rewrite Ascii.eqb_refl.
    + destruct (Ascii.eqb_spec c d); [contradiction | reflexivity].
Qed.

Lemma invalidateUserCache_connected (env : option string) (userId : string)
    (srv : Redis.Server) :
  Redis.reachable srv = true ->
  invalidateUserCache env userId (connected srv)
  = (Normal tt,
     connected (Redis.with_db
                  (purge (generateKey env "user" userId [] ++ "*") (Redis.db srv)) srv)).
Proof.
  intros Hr. unfold invalidateUserCache. cbv zeta.
  eapply bind_normal; [apply keys_connected; exact Hr|].
  fold (purge (generateKey env "user" userId [] ++ "*") (Redis.db srv)).
  unfold purge.
  destruct (List.filter _ _) as [|k ks] eqn:Hks.
  - cbn. destruct srv; reflexivity.
  - cbn [length Nat.ltb Nat.leb]. now rewrite for_each_del.
Qed.

(** X15.  On a server that answers, [invalidateUserCache] removes the keys
    that start with the key of the user's profile, and no other: for an
    identifier free of pattern characters, a key is gone exactly when the
    profile key is a prefix of it, and otherwise is as before. *)
Theorem invalidateUserCache_by_prefix (env : option string) (userId : string)
    (srv : Redis.Server) :
  Redis.reachable srv = true ->
  verbatim (generateKey env "user" userId []) = true ->
  exists srv',
    invalidateUserCache env userId (connected srv) = (Normal tt, connected srv')
    /\ forall key,
         Redis.db srv' !! key
         = if String.prefix (generateKey env "user" userId []) key then None
           else Redis.db srv !! key.
Proof.
  intros Hr Hv. eexists. split; [now apply invalidateUserCache_connected|].
  intros key. cbn [Redis.db Redis.with_db]. rewrite lookup_purge.
  now rewrite glob_verbatim_prefix.
Qed.

(** The profiles of users 4 and 42, their appointments and a session. *)
Definition profiles_server : Redis.Server :=
  Redis.mkServer true
    (<["production:user:4" := Redis.mkEntry (stringify profile) (Some 1800)]>
       (<["production:user:42" := Redis.mkEntry (stringify profile) (Some 1800)]>
          (<["production:appointments:4" := Redis.mkEntry "[]" (Some 600)]>
             (<["production:appointments:4:status=confirmed" := Redis.mkEntry "[]" (Some 600)]>
                (<["production:session:s1" := Redis.mkEntry "{}" (Some 86400)]> ∅))))).

Lemma invalidateUserCache_by_prefix_witness :
  exists srv',
    invalidateUserCache (Some "production") "4" (connected profiles_server)
    = (Normal tt, connected srv')
    /\ Redis.db srv' !! "production:user:4" = None
    /\ Redis.db srv' !! "production:user:42" = None
    /\ Redis.db srv' !! "production:session:s1" = Some (Redis.mkEntry "{}" (Some 86400)).
Proof.
  destruct (invalidateUserCache_by_prefix (Some "production") "4" profiles_server
              eq_refl eq_refl) as (srv' & Hrun & Hkeys).
  exists srv'. split; [exact Hrun|].
  split; [exact (Hkeys "production:user:4")|].
  split; [exact (Hkeys "production:user:42")|].
  exact (Hkeys "production:session:s1").
Defined.

Lemma generateKey_params (env : option string) (type id : string)
    (params : list (string * Json)) :
  params <> [] -> generateKey env type id params <> generateKey env type id [].
Proof.
  intros Hne. unfold generateKey. destruct params as [|p params]; [contradiction|].
  cbn [length Nat.ltb Nat.leb]. intros H. do 5 apply append_inv_head in H.
  rewrite append_cons in H. discriminate H.
Qed.

(** X16.  On a server that answers, [invalidateAppointmentCache] deletes the
    one key built from the user's identifier alone; an entry under the same
    identifier with parameters, as the appointments middleware writes for a
    filtered list, stays. *)
Theorem invalidateAppointmentCache_one_key (env : option string) (userId : string)
    (srv : Redis.Server) :
  Redis.reachable srv = true ->
  exists srv',
    invalidateAppointmentCache env userId (connected srv) = (Normal tt, connected srv')
    /\ Redis.db srv' = delete (generateKey env "appointments" userId []) (Redis.db srv)
    /\ forall params,
         params <> [] ->
         Redis.db srv' !! generateKey env "appointments" userId params
         = Redis.db srv !! generateKey env "appointments" userId params.
Proof.
  intros Hr. eexists. split; [|split].
  - unfold invalidateAppointmentCache. cbv zeta.
    eapply bind_normal; [apply del_connected; exact Hr | reflexivity].
  - reflexivity.
  - intros params Hne. cbn [Redis.db Redis.with_db].
    apply lookup_delete_ne. intros H. symmetry in H. now apply generateKey_params in H.
Qed.

Lemma invalidateAppointmentCache_one_key_witness :
  exists srv',
    invalidateAppointmentCache (Some "production") "4" (connected profiles_server)
    = (Normal tt, connected srv')
    /\ Redis.db srv' !! "production:appointments:4" = None
    /\ Redis.db srv' !! "production:appointments:4:status=confirmed"
       = Some (Redis.mkEntry "[]" (Some 600)).
Proof.
  destruct (invalidateAppointmentCache_one_key (Some "production") "4" profiles_server
              eq_refl) as (srv' & Hrun & Hdb & Hkeep).
  exists srv'. split; [exact Hrun|]. split.
  - rewrite Hdb. reflexivity.
  - exact (Hkeep [("status", JStr "confirmed")] ltac:(discriminate)).
Defined.

(** *** The rate-limit counter *)

Lemma integer_of_string_of_Z (z : Z) : Redis.integer_of (string_of_Z z) = Some z.
Proof.
  unfold Redis.integer_of.
  pose proof (parse_number_string_of_Z z "" eq_refl) as H.
  rewrite append_nil_r in H. now rewrite H.
Qed.

(** The key of the counter of an identifier. *)
Definition counter_key (env : option string) (identifier : string) : string :=
  generateKey env "ratelimit" identifier [].

(** The first increment of a window: the counter is created at 1 and
    given the window as its time to live; a window that is not positive
    removes it at once. *)
Lemma incrementRateLimit_first (env : option string) (identifier : string) (window : Z)
    (srv : Redis.Server) :
  Redis.reachable srv = true ->
  Redis.db srv !! counter_key env identifier = None ->
  incrementRateLimit env identifier window (connected srv)
  = (Normal 1,
     connected
       (Redis.with_db
          (if window <=? 0 then Redis.db srv
           else <[counter_key env identifier := Redis.mkEntry "1" (Some window)]> (Redis.db srv))
          srv)).
Proof.
  intros Hr Habsent. unfold incrementRateLimit, try_catch. cbv zeta.
  fold (counter_key env identifier).
  unfold bind, on_client, Redis.INCR, Redis.EXPIRE, Redis.command. cbn.
  rewrite Hr, Habsent. cbn. rewrite Hr. rewrite lookup_insert_eq.
  destruct (window <=? 0); cbn.
  - now rewrite delete_insert_id.
  - now rewrite insert_insert_eq.
Qed.

(** A later increment adds one and keeps the time to live. *)
Lemma incrementRateLimit_next (env : option string) (identifier : string) (window count : Z)
    (ttl : option Z) (srv : Redis.Server) :
  Redis.reachable srv = true ->
  Redis.db srv !! counter_key env identifier = Some (Redis.mkEntry (string_of_Z count) ttl) ->
  1 <= count < 9223372036854775807 ->
  incrementRateLimit env identifier window (connected srv)
  = (Normal (count + 1),
     connected
       (Redis.with_db
          (<[counter_key env identifier := Redis.mkEntry (string_of_Z (count + 1)) ttl]>
             (Redis.db srv))
          srv)).
Proof.
  intros Hr Hk Hcount. unfold incrementRateLimit, try_catch. cbv zeta.
  fold (counter_key env identifier).
  unfold bind, on_client, Redis.INCR, Redis.command. cbn.
  rewrite Hr, Hk. cbn. rewrite integer_of_string_of_Z.
  destruct (count <? 9223372036854775807) eqn:Hlt; [|apply Z.ltb_ge in Hlt; lia].
  cbn. destruct (count + 1 =? 1) eqn:Hone; [apply Z.eqb_eq in Hone; lia|].
  reflexivity.
Qed.

(** The calls [m], one after the other as long as none throws, and what
    they return. *)
Fixpoint times {S A : Type} (n : nat) (m : M S A) : M S (list A) :=
  match n with
  | O => ret []
  | Datatypes.S k => bind m (fun a => bind (times k m) (fun rest => ret (a :: rest)))
  end.

(** The server once the counter has been incremented [n] times in a
    window. *)
Definition counted (env : option string) (identifier : string) (window : Z) (n : nat)
    (srv : Redis.Server) : Redis.Server :=
  match n with
  | O => srv
  | Datatypes.S _ =>
      Redis.with_db
        (<[counter_key env identifier
           := Redis.mkEntry (string_of_Z (Z.of_nat n)) (Some window)]> (Redis.db srv))
        srv
  end.

Lemma counted_reachable (env : option string) (identifier : string) (window : Z) (n : nat)
    (srv : Redis.Server) :
  Redis.reachable (counted env identifier window n srv) = Redis.reachable srv.
Proof. destruct n; reflexivity. Qed.

Lemma incrementRateLimit_counted (env : option string) (identifier : string) (window : Z)
    (n : nat) (srv : Redis.Server) :
  Redis.reachable srv = true ->
  Redis.db srv !! counter_key env identifier = None ->
  0 < window ->
  Z.of_nat n < 9223372036854775807 ->
  incrementRateLimit env identifier window (connected (counted env identifier window n srv))
  = (Normal (Z.of_nat (Datatypes.S n)),
     connected (counted env identifier window (Datatypes.S n) srv)).
Proof.
  intros Hr Habsent Hw Hn. destruct n as [|n].
  - cbn [counted]. rewrite (incrementRateLimit_first env identifier window srv Hr Habsent).
    destruct (window <=? 0) eqn:Hle; [apply Z.leb_le in Hle; lia|]. reflexivity.
  - rewrite (incrementRateLimit_next env identifier window (Z.of_nat (Datatypes.S n))
               (Some window));
      [|exact Hr | cbn [counted Redis.db Redis.with_db]; apply lookup_insert_eq | lia].
    replace (Z.of_nat (Datatypes.S n) + 1) with (Z.of_nat (Datatypes.S (Datatypes.S n))) by lia.
    cbn [counted Redis.db Redis.with_db]. rewrite insert_insert_eq. reflexivity.
Qed.

Lemma times_incrementRateLimit (env : option string) (identifier : string) (window : Z)
    (n done : nat) (srv : Redis.Server) :
  Redis.reachable srv = true ->
  Redis.db srv !! counter_key env identifier = None ->
  0 < window ->
  Z.of_nat (done + n) < 9223372036854775807 ->
  times n (incrementRateLimit env identifier window)
    (connected (counted env identifier window done srv))
  = (Normal (map Z.of_nat (seq (Datatypes.S done) n)),
     connected (counted env identifier window (done + n) srv)).
Proof.
  intros Hr Habsent Hw. revert done. induction n as [|n IH]; intros done Hn.
  - cbn. now rewrite Nat.add_0_r.
  - cbn [times]. eapply bind_normal.
    { apply incrementRateLimit_counted; [assumption..|lia]. }
    eapply bind_normal; [apply IH; lia|].
    replace (Datatypes.S done + n)%nat with (done + Datatypes.S n)%nat by lia. reflexivity.
Qed.

Lemma getRateLimitCount_counted (env : option string) (identifier : string) (window : Z)
    (n : nat) (srv : Redis.Server) :
  Redis.reachable srv = true ->
  Redis.db srv !! counter_key env identifier = None ->
  getRateLimitCount env identifier (connected (counted env identifier window n srv))
  = (Normal (JNum (Z.of_nat n)), connected (counted env identifier window n srv)).
Proof.
  intros Hr Habsent. unfold getRateLimitCount. cbv zeta. fold (counter_key env identifier).
  destruct n as [|n].
  - eapply bind_normal; [apply get_absent; exact Habsent | reflexivity].
  - eapply bind_normal.
    { apply (get_present _ (string_of_Z (Z.of_nat (Datatypes.S n))) (Some window)
               (JNum (Z.of_nat (Datatypes.S n)))).
      - exact Hr.
      - cbn [counted Redis.db Redis.with_db]. apply lookup_insert_eq.
      - apply (parse_stringify (JNum _)). reflexivity. }
    cbn [truthy]. destruct (Z.of_nat (Datatypes.S n) =? 0) eqn:Hz; [apply Z.eqb_eq in Hz; lia|].
    reflexivity.
Qed.

(** X17.  On a server that answers and holds no counter for the identifier,
    [n] calls of [incrementRateLimit] with a positive window return 1, 2,
    ..., [n], and [getRateLimitCount] then returns [n] (0 when no call was
    made); the counter keeps the time to live its first increment gave it. *)
Theorem rate_limit_counter_counts (env : option string) (identifier : string) (window : Z)
    (n : nat) (srv : Redis.Server) :
  Redis.reachable srv = true ->
  Redis.db srv !! counter_key env identifier = None ->
  0 < window ->
  Z.of_nat n < 9223372036854775807 ->
  exists srv',
    times n (incrementRateLimit env identifier window) (connected srv)
    = (Normal (map Z.of_nat (seq 1 n)), connected srv')
    /\ getRateLimitCount env identifier (connected srv')
       = (Normal (JNum (Z.of_nat n)), connected srv')
    /\ (n <> O ->
        Redis.ttl <$> Redis.db srv' !! counter_key env identifier = Some (Some window)).
Proof.
  intros Hr Habsent Hw Hn. exists (counted env identifier window n srv).
  split; [apply (times_incrementRateLimit env identifier window n 0 srv); assumption|].
  split; [now apply getRateLimitCount_counted|].
  destruct n as [|n]; [contradiction|]. intros _.
  cbn [counted Redis.db Redis.with_db]. now rewrite lookup_insert_eq.
Qed.

Lemma rate_limit_counter_counts_witness :
  exists srv',
    times 3 (incrementRateLimit (Some "production") "10.0.0.1" 900) (connected session_server)
    = (Normal [1; 2; 3], connected srv')
    /\ getRateLimitCount (Some "production") "10.0.0.1" (connected srv')
       = (Normal (JNum 3), connected srv').
Proof.
  destruct (rate_limit_counter_counts (Some "production") "10.0.0.1" 900 3 session_server
              eq_refl eq_refl eq_refl eq_refl) as (srv' & Hrun & Hcount & _).
  exists srv'. split; [exact Hrun | exact Hcount].
Defined.

(** *** The health check *)

Lemma healthCheck_serving (now : Z) (srv : Redis.Server) :
  Redis.reachable srv = true ->
  healthCheck now (connected srv)
  = (Normal true, connected (Redis.with_db (delete "health:check" (Redis.db srv)) srv)).
Proof.
  intros Hr. unfold healthCheck. apply try_catch_normal.
  change (unavailable (connected srv)) with false. cbv iota zeta.
  destruct (set_then_get "health:check" (JObj [("timestamp", JNum now)]) 10 srv Hr
              ltac:(lia) eq_refl) as [Hset Hget].
  eapply bind_normal; [exact Hset|].
  eapply bind_normal; [exact Hget|].
  eapply bind_normal; [apply del_connected; exact Hr|].
  cbn [truthy stored Redis.db Redis.with_db]. rewrite delete_insert_eq. reflexivity.
Qed.

(** X18.  [healthCheck] resolves to [true] exactly when the service is
    connected to a server that answers; it then leaves the server without
    the key [health:check] and with every other key as before, and otherwise
    leaves the service as it is. *)
Theorem healthCheck_tells_serving (now : Z) (this : CacheService) :
  fst (healthCheck now this) = Normal (serving this)
  /\ (serving this = false -> snd (healthCheck now this) = this)
  /\ (forall srv,
        this = connected srv -> Redis.reachable srv = true ->
        snd (healthCheck now this)
        = connected (Redis.with_db (delete "health:check" (Redis.db srv)) srv)).
Proof.
  destruct (serving this) eqn:Hs.
  - destruct (serving_connected this Hs) as (srv & -> & Hr).
    rewrite (healthCheck_serving now srv Hr). repeat split; [discriminate|].
    intros srv' [= <-] _. reflexivity.
  - assert (H : healthCheck now this = (Normal false, this)).
    { unfold healthCheck, try_catch.
      destruct (unavailable this) eqn:Hun; [reflexivity|].
      unfold bind. rewrite (set_not_serving _ _ _ _ Hs), (get_not_serving _ _ Hs),
        (del_not_serving _ _ Hs). reflexivity. }
    rewrite H. repeat split.
    intros srv -> Hr. unfold serving in Hs. cbn in Hs. congruence.
Qed.

Lemma healthCheck_tells_serving_witness :
  healthCheck 1767261600000 (connected session_server)
  = (Normal true, connected session_server)
  /\ healthCheck 1767261600000 (on_event error_event (connected session_server))
     = (Normal false, on_event error_event (connected session_server)).
Proof.
  pose proof (healthCheck_tells_serving 1767261600000 (connected session_server))
    as (Hfst & _ & Hsnd).
  pose proof (healthCheck_tells_serving 1767261600000
                (on_event error_event (connected session_server))) as (Hfst' & Hsnd' & _).
  split.
  - rewrite (surjective_pairing (healthCheck _ _)), Hfst, (Hsnd session_server eq_refl eq_refl).
    reflexivity.
  - rewrite (surjective_pairing (healthCheck _ _)), Hfst', (Hsnd' eq_refl). reflexivity.
Defined.

End CacheServiceProps.

(** ** The middlewares *)

Module MiddlewareProps.
Import Js JSON CacheService CacheMiddleware AppointmentCache.
Import JsProps CacheProps InvalidationProps JsonProps RoundTripProps CacheServiceProps.

(** *** Reads that the cache cannot answer *)







Definition failing_handler (req : Request) : Reply :=
  ReplyJson 200 (JObj [("success", JBool false); ("message", JStr "Database unavailable")]).






(** *** An array as payload *)

Lemma to_uint_nonnil (n : N) : N.to_uint n <> Decimal.Nil.
Proof.
  destruct n as [|p]; [discriminate|]. apply (DecimalPos.Unsigned.to_uint_nonnil p).
Qed.













(** *** Invalidation by status *)

(** A pattern whose special characters are [*] and [?] only: it holds no
    class and no escape. *)
Fixpoint starred (pattern : string) : bool :=
  match pattern with
  | EmptyString => true
  | String c rest => negb (Ascii.eqb c "[" || Ascii.eqb c backslash) && starred rest
  end.

(** The patterns an [invalidateCache] middleware works through for a
    request. *)
Definition patterns_of (patterns : Patterns) (req : Request) : list string :=
  match patterns with
  | PatternArray ps => ps
  | PatternFunction f => f req
  | PatternString p => [p]
  end.

Lemma invalidatePatterns_connected (patterns : Patterns) (req : Request)
    (srv : Redis.Server) :
  Redis.reachable srv = true ->
  invalidatePatterns patterns req (connected srv)
  = (Normal tt,
     connected (Redis.with_db (purge_all (patterns_of patterns req) (Redis.db srv)) srv)).
Proof.
  intros Hr. unfold invalidatePatterns. apply try_catch_normal.
  destruct patterns as [ps|f|p]; cbn [patterns_of].
  - now apply for_each_delete_matching.
  - now apply for_each_delete_matching.
  - now apply delete_matching_connected.
Qed.

(** Purging again removes nothing more. *)
Lemma lookup_purge_all_again (ps : list string) (d : gmap string Redis.Entry) (k : string) :
  purge_all ps (purge_all ps d) !! k = purge_all ps d !! k.
Proof. rewrite !lookup_purge_all. now destruct (existsb _ ps). Qed.

(** A reply with a status of 400 or more: nothing is invalidated. *)
Lemma invalidateCache_from_400 (patterns : Patterns) (next : Request -> Reply)
    (req : Request) (this : CacheService) :
  400 <= reply_status (next req) ->
  invalidateCache patterns next req this
  = (Normal (mkOutcome (respond [] (next req)) true), this).
Proof.
  intros Hstatus. unfold invalidateCache. cbv zeta.
  assert (Hlt : (reply_status (next req) <? 400) = false) by (apply Z.ltb_ge; lia).
  destruct (next req) as [status data|status text|status]; cbn [reply_status] in *;
    rewrite ?Hlt; try reflexivity.
  unfold successful. rewrite Hlt, andb_false_r. reflexivity.
Qed.

(** A reply with a status below 400, on a server that answers: the keys
    that match a pattern are gone, the others are as before. *)
Lemma invalidateCache_below_400 (patterns : Patterns) (next : Request -> Reply)
    (req : Request) (srv : Redis.Server) :
  Redis.reachable srv = true ->
  reply_status (next req) < 400 ->
  exists srv',
    invalidateCache patterns next req (connected srv)
    = (Normal (mkOutcome (respond [] (next req)) true), connected srv')
    /\ forall key,
         Redis.db srv' !! key
         = if existsb (fun p => Redis.glob p key) (patterns_of patterns req) then None
           else Redis.db srv !! key.
Proof.
  intros Hr Hstatus. unfold invalidateCache. cbv zeta.
  assert (Hlt : (reply_status (next req) <? 400) = true) by (apply Z.ltb_lt; lia).
  pose proof (fun s Hs => invalidatePatterns_connected patterns req s Hs) as Hinv.
  destruct (next req) as [status data|status text|status]; cbn [reply_status] in *;
    rewrite ?Hlt.
  - destruct (successful status data).
    + eexists. split.
      { eapply bind_normal; [|reflexivity].
        eapply bind_normal; [apply Hinv; exact Hr|].
        eapply bind_normal; [apply Hinv; exact Hr|].
        apply Hinv. exact Hr. }
      intros key. cbn [Redis.db Redis.with_db].
      now rewrite !lookup_purge_all_again, lookup_purge_all.
    + eexists. split.
      { eapply bind_normal; [|reflexivity].
        eapply bind_normal; [apply Hinv; exact Hr|].
        eapply bind_normal; [apply Hinv; exact Hr|]. reflexivity. }
      intros key. cbn [Redis.db Redis.with_db].
      now rewrite !lookup_purge_all_again, lookup_purge_all.
  - eexists. split.
    { eapply bind_normal; [|reflexivity].
      eapply bind_normal; [apply Hinv; exact Hr|]. apply Hinv. exact Hr. }
    intros key. cbn [Redis.db Redis.with_db].
    now rewrite !lookup_purge_all_again, lookup_purge_all.
  - eexists. split.
    { eapply bind_normal; [|reflexivity]. apply Hinv. exact Hr. }
    intros key. cbn [Redis.db Redis.with_db]. now rewrite lookup_purge_all.
Qed.

(** X23.  [invalidateCache] goes by the status alone. A reply with a status
    of 400 or more leaves the service as it is. On a server that answers,
    and for patterns whose special characters are [*] and [?] only, a reply
    with a status below 400 removes every key that matches one of the
    patterns and no other, also when it is a JSON reply that carries
    [success: false] or is falsy: the checks in [res.send] and [res.end],
    which [res.json] ends in, look at the status only. *)
Theorem invalidateCache_goes_by_status (patterns : Patterns) (next : Request -> Reply)
    (req : Request) :
  (forall this,
     400 <= reply_status (next req) ->
     invalidateCache patterns next req this
     = (Normal (mkOutcome (respond [] (next req)) true), this))
  /\ (forall srv,
        Redis.reachable srv = true ->
        reply_status (next req) < 400 ->
        forallb starred (patterns_of patterns req) = true ->
        exists srv',
          invalidateCache patterns next req (connected srv)
          = (Normal (mkOutcome (respond [] (next req)) true), connected srv')
          /\ forall key,
               Redis.db srv' !! key
               = if existsb (fun p => Redis.glob p key) (patterns_of patterns req) then None
                 else Redis.db srv !! key).
Proof.
  split.
  - intros this. apply invalidateCache_from_400.
  - intros srv Hr Hstatus _. now apply invalidateCache_below_400.
Qed.

Lemma invalidateCache_goes_by_status_witness :
  (invalidateCache (PatternArray ["*:services:*"; "*:appointments:*"])
     (fun _ => ReplyJson 500 (JObj [("success", JBool false)])) booking_request
     (connected stocked_server)
   = (Normal (mkOutcome (respond [] (ReplyJson 500 (JObj [("success", JBool false)]))) true),
      connected stocked_server))
  /\ exists srv',
       invalidateCache (PatternArray ["*:services:*"; "*:appointments:*"]) failing_handler
         booking_request (connected stocked_server)
       = (Normal (mkOutcome (respond [] (failing_handler booking_request)) true),
          connected srv')
       /\ Redis.db srv' !! "production:services:list:page=1&limit=10" = None.
Proof.
  split.
  - apply (proj1 (invalidateCache_goes_by_status
                    (PatternArray ["*:services:*"; "*:appointments:*"])
                    (fun _ => ReplyJson 500 (JObj [("success", JBool false)]))
                    booking_request)).
    cbn. lia.
  - destruct (proj2 (invalidateCache_goes_by_status
                       (PatternArray ["*:services:*"; "*:appointments:*"]) failing_handler
                       booking_request) stocked_server eq_refl eq_refl eq_refl)
      as (srv' & Hrun & Hkeys).
    exists srv'. split; [exact Hrun|].
    exact (Hkeys "production:services:list:page=1&limit=10").
Defined.

(** *** Appointments *)

Lemma prefix_append (a b : string) : String.prefix a (a ++ b) = true.
Proof.
  induction a as [|c a IH]; [now destruct b|]. rewrite append_cons. cbn [String.prefix].
  destruct (ascii_dec c c); [exact IH | contradiction].
Qed.

Lemma verbatim_append (a b : string) :
  verbatim a = true -> verbatim b = true -> verbatim (a ++ b) = true.
Proof.
  intros Ha Hb. induction a as [|c a IH]; [exact Hb|]. rewrite append_cons.
  cbn [verbatim] in *. apply andb_true_iff in Ha as [Hc Ha]. now rewrite Hc, IH.
Qed.

(** A pattern [*:type:id*] matches the keys of that type whose
    identifier starts with [id]. *)
Lemma typed_pattern_matches (env : option string) (type id : string)
    (params : list (string * Json)) :
  verbatim type = true ->
  verbatim id = true ->
  Redis.glob ("*:" ++ type ++ ":" ++ id ++ "*") (generateKey env type id params) = true.
Proof.
  intros Htype Hid. unfold generateKey. cbv zeta.
  set (paramStr := if (0 <? length params)%nat then _ else _).
  rewrite append_cons.
  apply glob_star_skip. rewrite glob_star.
  assert (Hlit : verbatim (":" ++ type ++ ":" ++ id) = true).
  { apply (verbatim_append ":"); [reflexivity|]. apply verbatim_append; [exact Htype|].
    now apply (verbatim_append ":"). }
  replace (":" ++ type ++ ":" ++ id ++ "*") with ((":" ++ type ++ ":" ++ id) ++ "*")
    by (now rewrite !append_assoc).
  replace (":" ++ type ++ ":" ++ id ++ paramStr)
    with ((":" ++ type ++ ":" ++ id) ++ paramStr) by (now rewrite !append_assoc).
  now rewrite (glob_verbatim_prefix _ _ Hlit), prefix_append.
Qed.

(** X24.  On a server that answers, a reply with a status below 400 that
    goes through the exported [invalidateAppointmentCache] leaves no entry
    of the appointments cache for the user of the request, whatever the
    filters, and no profile entry of that user: the next read of that user's
    appointments runs the handler. *)
Theorem appointment_write_invalidates (env : option string) (next : Request -> Reply)
    (req : Request) (user : string) (srv : Redis.Server) :
  Redis.reachable srv = true ->
  user_id req = Some user ->
  verbatim user = true ->
  reply_status (next req) < 400 ->
  exists srv',
    exports_invalidateAppointmentCache next req (connected srv)
    = (Normal (mkOutcome (respond [] (next req)) true), connected srv')
    /\ Redis.db srv' !! generateKey env "user" user [] = None
    /\ forall read,
         user_id read = Some user ->
         Redis.db srv' !! appointmentKey env read = None
         /\ forall next' now,
              appointmentCondition read = true ->
              exists out this',
                appointmentCache env next' now read (connected srv') = (Normal out, this')
                /\ handlerRan out = true.
Proof.
  intros Hr Huser Hv Hstatus. unfold exports_invalidateAppointmentCache.
  destruct (invalidateCache_below_400 (PatternFunction invalidateAppointmentCache) next req
              srv Hr Hstatus) as (srv' & Hrun & Hkeys).
  cbn [patterns_of] in Hkeys.
 exists srv'. split; [exact Hrun|].
  assert (Hpatterns : invalidateAppointmentCache req
                      = ["*:appointments:" ++ user ++ "*"; "*:user:" ++ user ++ "*"]).
  { unfold invalidateAppointmentCache, userId_text. now rewrite Huser. }
  rewrite Hpatterns in Hkeys. split.
  - rewrite Hkeys. cbn [existsb].
    change ("*:user:" ++ user ++ "*") with ("*:" ++ "user" ++ ":" ++ user ++ "*").
    rewrite (typed_pattern_matches env "user" user [] eq_refl Hv).
    now rewrite orb_true_r.
  - intros read Hread.
    assert (Hgone : Redis.db srv' !! appointmentKey env read = None).
    { rewrite Hkeys. cbn [existsb]. unfold appointmentKey, userId_text. rewrite Hread.
      cbv zeta.
      change ("*:appointments:" ++ user ++ "*")
        with ("*:" ++ "appointments" ++ ":" ++ user ++ "*").
      now rewrite (typed_pattern_matches env "appointments" user _ eq_refl Hv). }
    split; [exact Hgone|]. intros next' now Hcond.
    destruct (cacheMiddleware_absent
                (mkOptions (Some (appointmentKey env)) 600 appointmentCondition false)
                next' now read srv' eq_refl Hcond Hgone) as (out & this' & Hmiss & Hran & _).
    exists out, this'. split; [exact Hmiss | exact Hran].
Qed.

(** A store that holds the confirmed appointments of user 42. *)
Definition appointments_server : Redis.Server :=
  Redis.mkServer true
    (<["production:appointments:42:status=confirmed"
       := Redis.mkEntry (stringify (JObj [("success", JBool true); ("count", JNum 1)]))
                        (Some 600)]> ∅).

Definition appointments_read : Request :=
  mkRequest "GET" "/api/appointments" [("status", JStr "confirmed")] (Some "42") "10.0.0.1".

Lemma appointment_write_invalidates_witness :
  Redis.db appointments_server !! appointmentKey (Some "production") appointments_read
  = Some (Redis.mkEntry (stringify (JObj [("success", JBool true); ("count", JNum 1)]))
                        (Some 600))
  /\ exists srv',
       exports_invalidateAppointmentCache booking_handler booking_request
         (connected appointments_server)
       = (Normal (mkOutcome (respond [] (booking_handler booking_request)) true),
          connected srv')
       /\ Redis.db srv' !! appointmentKey (Some "production") appointments_read = None.
Proof.
  split; [reflexivity|].
  destruct (appointment_write_invalidates (Some "production") booking_handler booking_request
              "42" appointments_server eq_refl eq_refl eq_refl eq_refl)
    as (srv' & Hrun & _ & Hreads).
  exists srv'. split; [exact Hrun|]. exact (proj1 (Hreads appointments_read eq_refl)).
Defined.

(** *** Requests against the limit *)

(** The calls [f x] for the [x] of a list, one after the other as long
    as none throws, and what they return. *)
Fixpoint each {S A B : Type} (l : list A) (f : A -> M S B) : M S (list B) :=
  match l with
  | [] => ret []
  | x :: rest => bind (f x) (fun b => bind (each rest f) (fun bs => ret (b :: bs)))
  end.

(** What the middleware answers once the counter has returned [count]. *)
Definition counted_outcome (options : RateLimitOptions) (next : Request -> Reply)
    (req : Request) (reset : string) (count : Z) : Outcome :=
  if maxRequests options <? count then
    mkOutcome
      (respond (rate_headers options count reset)
         (ReplyJson 429
            (JObj [ ("success", JBool false); ("message", JStr "Too many requests");
                    ("retryAfter", JNum (windowMs options)) ])))
      false
  else mkOutcome (respond (rate_headers options count reset) (next req)) true.

Lemma rateLimitMiddleware_counted (env : option string) (options : RateLimitOptions)
    (next : Request -> Reply) (reset : string) (req : Request) (count : Z)
    (this this' : CacheService) :
  incrementRateLimit env (rateKeyGenerator options req) (windowMs options / 1000) this
  = (Normal count, this') ->
  rateLimitMiddleware env options next reset req this
  = (Normal (counted_outcome options next req reset count), this').
Proof.
  intros Hinc. unfold rateLimitMiddleware, counted_outcome. apply try_catch_normal.
  cbv zeta. eapply bind_normal; [exact Hinc|].
  destruct (maxRequests options <? count); reflexivity.
Qed.

Lemma counted_outcome_ran (options : RateLimitOptions) (next : Request -> Reply)
    (req : Request) (reset : string) (count : Z) :
  handlerRan (counted_outcome options next req reset count) = (count <=? maxRequests options)
  /\ statusCode (response (counted_outcome options next req reset count))
     = (if count <=? maxRequests options then reply_status (next req) else 429)
  /\ prop_get (headers (response (counted_outcome options next req reset count)))
       "X-RateLimit-Remaining"
     = Some (string_of_Z (Z.max 0 (maxRequests options - count))).
Proof.
  unfold counted_outcome. rewrite Z.leb_antisym.
  destruct (maxRequests options <? count); cbn [negb handlerRan response].
  - repeat split.
  - destruct (next req); repeat split.
Qed.

(** Requests of one client: each with the value of
    [new Date(Date.now() + windowMs).toISOString()] at its arrival, all
    with the identifier [identifier]. *)
Definition from_client (options : RateLimitOptions) (identifier : string)
    (calls : list (Request * string)) : Prop :=
  List.Forall (fun call => rateKeyGenerator options (fst call) = identifier) calls.






(** Three requests from one address: two bookings and a listing. *)
Definition client_calls : list (Request * string) :=
  [ (booking_request, "2026-01-01T00:15:00.000Z");
    (booking_request, "2026-01-01T00:15:01.000Z");
    (listing_request, "2026-01-01T00:15:02.000Z") ].


(** X26.  With a window below a second the limit is never applied: its
    length in whole seconds is not positive, the [EXPIRE] of the first
    increment removes the counter, and every request counts as the first. On
    a server that answers, with a limit of one or more, every request of a
    client reaches the handler and the server is left as it was. *)
Theorem window_below_a_second_never_limits (env : option string)
    (options : RateLimitOptions) (next : Request -> Reply) (identifier : string)
    (calls : list (Request * string)) (srv : Redis.Server) :
  Redis.reachable srv = true ->
  Redis.db srv !! counter_key env identifier = None ->
  windowMs options < 1000 ->
  1 <= maxRequests options ->
  from_client options identifier calls ->
  exists outs,
    each calls (fun call => rateLimitMiddleware env options next (snd call) (fst call))
      (connected srv)
    = (Normal outs, connected srv)
    /\ map handlerRan outs = map (fun _ => true) calls.
Proof.
  intros Hr Habsent Hwindow Hmax Hfrom.
  assert (Hw : (windowMs options / 1000 <=? 0) = true).
  { apply Z.leb_le. assert (windowMs options / 1000 < 1); [|lia].
    apply Z.div_lt_upper_bound; lia. }
  assert (Hone : forall req reset,
             rateKeyGenerator options req = identifier ->
             rateLimitMiddleware env options next reset req (connected srv)
             = (Normal (counted_outcome options next req reset 1), connected srv)).
  { intros req reset Hreq. apply rateLimitMiddleware_counted. rewrite Hreq.
    rewrite (incrementRateLimit_first env _ _ srv Hr Habsent), Hw. now destruct srv. }
  induction calls as [|[req reset] calls IH].
  - exists []. split; reflexivity.
  - apply List.Forall_cons_iff in Hfrom as [Hreq Hrest]. cbn [fst] in Hreq.
    destruct (IH Hrest) as (outs & Hrun & Hran).
    exists (counted_outcome options next req reset 1 :: outs). split.
    + cbn [each fst snd]. eapply bind_normal; [now apply Hone|].
      eapply bind_normal; [exact Hrun | reflexivity].
    + cbn [map]. rewrite Hran. f_equal.
      rewrite (proj1 (counted_outcome_ran options next req reset 1)). now apply Z.leb_le.
Qed.

Lemma window_below_a_second_never_limits_witness :
  exists outs,
    each client_calls
      (fun call => rateLimitMiddleware (Some "production") (mkRateLimitOptions 500 2 ip)
                     booking_handler (snd call) (fst call))
      (connected empty_server)
    = (Normal outs, connected empty_server)
    /\ map handlerRan outs = [true; true; true].
Proof.
  apply (window_below_a_second_never_limits (Some "production") (mkRateLimitOptions 500 2 ip)
           booking_handler "10.0.0.1" client_calls empty_server eq_refl eq_refl).
  - cbn. lia.
  - cbn. lia.
  - repeat constructor.
Defined.

End MiddlewareProps.

Module KeyProps.
Import Js JSON CacheService CacheMiddleware AppointmentCache.
Import JsProps JsonProps CacheServiceProps.

(** *** Keys and users *)

Lemma append_inv_tail (a b c : string) : a ++ c = b ++ c -> a = b.
Proof.
  revert b. induction a as [|x a IH]; intros [|y b] H.
  - reflexivity.
  - apply (f_equal String.length) in H. rewrite append_nil_l, append_cons in H.
    cbn [String.length] in H. rewrite length_append in H. lia.
  - apply (f_equal String.length) in H. rewrite append_nil_l, append_cons in H.
    cbn [String.length] in H. rewrite length_append in H. lia.
  - rewrite !append_cons in H. injection H as -> H. f_equal. now apply IH.
Qed.

(** [user?.id || 'anonymous'] *)
Definition key_user (req : Request) : string :=
  match user_id req with
  | Some id => if String.eqb id "" then "anonymous" else id
  | None => "anonymous"
  end.

(** The text has no colon. *)
Fixpoint colon_free (s : string) : bool :=
  match s with
  | EmptyString => true
  | String c rest => negb (Ascii.eqb c ":") && colon_free rest
  end.

(** Nothing, or a colon and more. *)
Definition suffix_ok (p : string) : Prop :=
  p = "" \/ exists rest, p = String ":" rest.

Lemma colon_split (u1 u2 p1 p2 : string) :
  colon_free u1 = true -> colon_free u2 = true ->
  suffix_ok p1 -> suffix_ok p2 ->
  u1 ++ p1 = u2 ++ p2 -> u1 = u2.
Proof.
  revert u2. induction u1 as [|c u1 IH]; intros [|d u2] H1 H2 Hp1 Hp2 H.
  - reflexivity.
  - exfalso. rewrite append_nil_l, append_cons in H. cbn [colon_free] in H2.
    apply andb_true_iff in H2 as [Hd _].
    destruct Hp1 as [->|[rest ->]]; [discriminate|]. injection H as <- _. discriminate.
  - exfalso. rewrite append_nil_l, append_cons in H. cbn [colon_free] in H1.
    apply andb_true_iff in H1 as [Hc _].
    destruct Hp2 as [->|[rest ->]]; [discriminate|]. injection H as -> _. discriminate.
  - rewrite !append_cons in H. injection H as -> H. f_equal.
    cbn [colon_free] in H1, H2.
    apply andb_true_iff in H1 as [_ H1]. apply andb_true_iff in H2 as [_ H2].
    now apply (IH u2).
Qed.

Lemma generateKey_suffix (env : option string) (type id : string)
    (params : list (string * Json)) :
  exists p, generateKey env type id params = environment env ++ ":" ++ type ++ ":" ++ id ++ p
            /\ suffix_ok p.
Proof.
  unfold generateKey. cbv zeta. eexists. split; [reflexivity|].
  destruct (0 <? length params)%nat; [right | left; reflexivity].
  rewrite append_cons, append_nil_l. eauto.
Qed.

(** X27.  Two requests with the same method, path and query get the same
    default key only for the same user, a request without a user counting as
    the user [anonymous]; and two requests get the same key of the
    appointments cache only for the same user, for identifiers without a
    colon: a user's entry is not served to another. *)
Theorem keys_separate_users (env : option string) (req1 req2 : Request) :
  (method req1 = method req2 -> path req1 = path req2 -> query req1 = query req2 ->
   generateDefaultKey req1 = generateDefaultKey req2 ->
   key_user req1 = key_user req2)
  /\ (forall user1 user2,
        user_id req1 = Some user1 -> user_id req2 = Some user2 ->
        colon_free user1 = true -> colon_free user2 = true ->
        appointmentKey env req1 = appointmentKey env req2 ->
        user1 = user2).
Proof.
  split.
  - intros Hm Hp Hq. unfold generateDefaultKey. cbv zeta. fold (key_user req1) (key_user req2).
    rewrite Hm, Hp, Hq. intros H. do 4 apply append_inv_head in H.
    replace (key_user req1 ++ ":" ++ base64 (if (0 <? length (query req2))%nat
                                             then stringify (JObj (query req2)) else ""))
      with ((key_user req1) ++ (":" ++ base64 (if (0 <? length (query req2))%nat
                                               then stringify (JObj (query req2)) else "")))
      in H by reflexivity.
    now apply append_inv_tail in H.
  - intros user1 user2 Hu1 Hu2 Hc1 Hc2. unfold appointmentKey, userId_text. cbv zeta.
    rewrite Hu1, Hu2.
    destruct (generateKey_suffix env "appointments" user1
                (flat_map (fun kv => match snd kv with Some v => [(fst kv, v)] | None => [] end)
                   [("status", prop_get (query req1) "status");
                    ("date", prop_get (query req1) "date");
                    ("serviceId", prop_get (query req1) "serviceId")])) as (p1 & -> & Hp1).
    destruct (generateKey_suffix env "appointments" user2
                (flat_map (fun kv => match snd kv with Some v => [(fst kv, v)] | None => [] end)
                   [("status", prop_get (query req2) "status");
                    ("date", prop_get (query req2) "date");
                    ("serviceId", prop_get (query req2) "serviceId")])) as (p2 & -> & Hp2).
    intros H. do 4 apply append_inv_head in H. now apply (colon_split user1 user2 p1 p2).
Qed.

Lemma keys_separate_users_witness :
  key_user (mkRequest "GET" "/api/services" [] (Some "") "10.0.0.1")
  = key_user (mkRequest "GET" "/api/services" [] None "10.0.0.2").
Proof.
  apply (proj1 (keys_separate_users None
                  (mkRequest "GET" "/api/services" [] (Some "") "10.0.0.1")
                  (mkRequest "GET" "/api/services" [] None "10.0.0.2")));
    reflexivity.
Defined.

End KeyProps.

(** ** Index creation: what success means *)

Module IndexedProps.
Import Js JSON Mongo DatabaseOptimizer JsProps IndexProps.

(** *** What a run that sets the flag has ensured *)

(** An index request that is not on the key of the [_id_] index and
    whose name does not itself read "already exists". *)
Definition ordinary (w : Json * IndexOptions) : bool :=
  negb (String.eqb (stringify (fst w)) (stringify (key id_index)))
  && negb (contains "already exists"
             (lower ("Index must have unique name: " ++ opt_name (snd w)))).

Lemma in_index_keys_present (c : Collection) (k : string) :
  In k (map (fun idx => stringify (key idx)) (present c)) ->
  k <> stringify (key id_index) ->
  In k (index_keys c).
Proof.
  destruct c as [l|]; [tauto|]. cbn. intros [H|[]] Hne. now symmetry in H.
Qed.

Lemma find_same_name (options : IndexOptions) (l : list Index) (i : Index) :
  find (same_name options) l = Some i -> name i = opt_name options.
Proof.
  intros H. apply find_some in H as [_ H]. now apply String.eqb_eq in H.
Qed.

Lemma createIndex_present (spec : Json) (options : IndexOptions) (c : Collection) :
  createIndex spec options c
  = match find (same_key spec) (present c) with
    | Some i =>
        if same_name options i && Bool.eqb (sparse i) (opt_sparse options) then
          (Normal tt, Some (present c))
        else
          (Throw (MongoServerError 85 "IndexOptionsConflict"
                    ("Index already exists with different options: " ++ name i)), c)
    | None =>
        match find (same_name options) (present c) with
        | Some i =>
            (Throw (MongoServerError 86 "IndexKeySpecsConflict"
                      ("Index must have unique name: " ++ name i)), c)
        | None =>
            (Normal tt,
             Some (present c ++ [mkIndex spec (opt_name options) (opt_sparse options)])%list)
        end
    end.
Proof. reflexivity. Qed.

(** An [ensure] that returns leaves the collection with the key. *)
Lemma ensure_in_key (existing : list string) (w : Json * IndexOptions) (c c1 : Collection) :
  ensure_in existing w c = (Normal tt, c1) ->
  (forall k, In k existing -> In k (index_keys c)) ->
  ordinary w = true ->
  In (stringify (fst w)) (index_keys c1).
Proof.
  intros Hrun Hsub Hord. unfold ordinary in Hord.
  apply andb_true_iff in Hord as [Hid Hname].
  apply negb_true_iff in Hid, Hname. apply String.eqb_neq in Hid.
  unfold ensure_in in Hrun.
  destruct (includes existing (stringify (fst w))) eqn:Hinc; cbn [negb] in Hrun.
  { injection Hrun as <-. apply Hsub. now apply includes_In. }
  unfold try_create, try_catch in Hrun.
  destruct (createIndex (fst w) (snd w) c) as [[[]|e] c'] eqn:Hcreate.
  { injection Hrun as <-. now apply (createIndex_normal _ _ _ _ Hcreate). }
  assert (Hc' : c' = c) by (now apply (createIndex_throw _ _ _ _ _ Hcreate)). subst c'.
  destruct (benign e) eqn:Hbenign; [|discriminate].
  injection Hrun as <-.
  rewrite createIndex_present in Hcreate.
  destruct (find (same_key (fst w)) (present c)) as [i|] eqn:Hkey.
  - apply in_index_keys_present; [|exact Hid]. now apply (find_same_key_Some _ _ i).
  - exfalso. destruct (find (same_name (snd w)) (present c)) as [i|] eqn:Hn; [|discriminate].
    injection Hcreate as <-. unfold benign in Hbenign. cbn in Hbenign.
    rewrite (find_same_name _ _ _ Hn) in Hbenign. congruence.
Qed.

Lemma ensure_all_key (wanted : list (Json * IndexOptions)) (existing : list string)
    (c c1 : Collection) :
  for_each wanted (ensure_in existing) c = (Normal tt, c1) ->
  (forall k, In k existing -> In k (index_keys c)) ->
  forallb ordinary wanted = true ->
  forall w, In w wanted -> In (stringify (fst w)) (index_keys c1).
Proof.
  revert c. induction wanted as [|w0 wanted IH]; intros c Hrun Hsub Hord w Hin; [destruct Hin|].
  cbn [for_each] in Hrun. unfold bind in Hrun.
  destruct (ensure_in existing w0 c) as [[[]|e] c'] eqn:Hfirst; [|discriminate].
  cbn [forallb] in Hord. apply andb_true_iff in Hord as [Hw0 Hord].
  destruct (ensure_in_again _ _ _ _ _ Hfirst Hsub) as [Hext _].
  assert (Hsub' : forall k, In k existing -> In k (index_keys c'))
    by (intros k Hk; apply (index_keys_extends c c' k Hext); now apply Hsub).
  destruct Hin as [<-|Hin].
  - destruct (ensure_all_again _ _ _ _ _ Hrun Hsub') as [Hext' _].
    apply (index_keys_extends c' c1 _ Hext').
    now apply (ensure_in_key existing w0 c c').
  - now apply (IH c' Hrun Hsub' Hord).
Qed.

Lemma ensure_block_key (name : string) (wanted : list (Json * IndexOptions)) (s s1 : State) :
  ensure_block name wanted s = (Normal tt, s1) ->
  forallb ordinary wanted = true ->
  exists c1,
    models s1 !! name = Some c1
    /\ forall w, In w wanted -> In (stringify (fst w)) (index_keys c1).
Proof.
  intros Hrun Hord. rewrite ensure_block_run in Hrun.
  destruct (models s !! name) as [c|] eqn:Hc; [|discriminate].
  destruct (for_each wanted (ensure_in (index_keys c)) c) as [r c1] eqn:Hall.
  cbn [fst snd] in Hrun. injection Hrun as -> <-.
  exists c1. split; [apply lookup_with_model|].
  apply (ensure_all_key wanted (index_keys c) c c1 Hall); [tauto | exact Hord].
Qed.

Lemma run_blocks_key (blocks : list (string * list (Json * IndexOptions))) (s s1 : State) :
  List.NoDup (map fst blocks) ->
  forallb (fun b => forallb ordinary (snd b)) blocks = true ->
  run_blocks blocks s = (Normal tt, s1) ->
  forall b, In b blocks ->
    exists c1,
      models s1 !! fst b = Some c1
      /\ forall w, In w (snd b) -> In (stringify (fst w)) (index_keys c1).
Proof.
  revert s. induction blocks as [|b0 blocks IH]; intros s Hnd Hord Hrun b Hin; [destruct Hin|].
  unfold run_blocks in Hrun. cbn [for_each] in Hrun. unfold bind in Hrun.
  destruct (ensure_block (fst b0) (snd b0) s) as [[[]|e] s'] eqn:Hfirst; [|discriminate].
  fold (run_blocks blocks) in Hrun.
  cbn [map] in Hnd. inversion Hnd as [|? ? Hfresh Hnd']; subst.
  cbn [forallb] in Hord. apply andb_true_iff in Hord as [Hb0 Hord].
  destruct Hin as [<-|Hin].
  - destruct (ensure_block_key _ _ _ _ Hfirst Hb0) as (c1 & Hc1 & Hkeys).
    exists c1. split; [|exact Hkeys].
    destruct (run_blocks_frame _ _ _ _ Hrun) as (_ & Hframe & _).
    now rewrite (Hframe (fst b0) Hfresh).
  - now apply (IH s' Hnd' Hord Hrun).
Qed.

(** X28.  When [createIndexes] ends with the flag set that it found unset,
    every key pattern it asks for on the services, users and reviews
    collections is the key of an index of the collection, created by the run
    or found there. *)
Theorem createIndexes_flag_means_indexed (s s1 : State) :
  indexCreated s = false ->
  createIndexes s = (Normal tt, s1) ->
  indexCreated s1 = true ->
  forall name wanted,
    In (name, wanted) required_blocks ->
    exists c1,
      models s1 !! name = Some c1
      /\ forall spec options,
           In (spec, options) wanted -> In (stringify spec) (index_keys c1).
Proof.
  intros Hunset Hrun Hset name wanted Hin.
  rewrite createIndexes_blocks, Hunset in Hrun. unfold try_catch in Hrun.
  destruct (createIndexes_body s) as [[[]|e] s'] eqn:Hbody.
  2:{ injection Hrun as <-.
      apply createIndexes_body_throw in Hbody.
      destruct (run_blocks_frame _ _ _ _ Hbody) as (Hflag & _). congruence. }
  injection Hrun as <-.
  unfold createIndexes_body, bind in Hbody. fold (run_blocks required_blocks) in Hbody.
  destruct (run_blocks required_blocks s) as [[[]|e] s2] eqn:Hblocks; [|discriminate].
  destruct (run_blocks_key required_blocks s s2 ltac:(repeat constructor; cbn; intuition discriminate)
              eq_refl Hblocks (name, wanted) Hin) as (c1 & Hc1 & Hkeys).
  exists c1. split.
  - assert (Hname : name <> "Appointment").
    { cbn in Hin. intuition (injection H as <- _ || injection H0 as <- _ || idtac); congruence. }
    unfold try_catch in Hbody.
    destruct (ensure_block "Appointment" appointment_indexes s2) as [r s3] eqn:Happt.
    destruct (ensure_block_frame _ _ _ _ _ Happt) as [_ Hframe].
    assert (Hs' : models s' = models s3) by (destruct r; now injection Hbody as <-).
    rewrite Hs', (Hframe name Hname). exact Hc1.
  - intros spec options Hw. exact (Hkeys (spec, options) Hw).
Qed.

Lemma createIndexes_flag_means_indexed_witness :
  exists c1,
    models (snd (createIndexes legacy_state)) !! "User" = Some c1
    /\ In (stringify (JObj [("profile.phone", asc)])) (index_keys c1)
    /\ In (stringify (JObj [("isActive", asc); ("userType", asc)])) (index_keys c1).
Proof.
  destruct (createIndexes_flag_means_indexed legacy_state (snd (createIndexes legacy_state))
              eq_refl eq_refl eq_refl "User" user_indexes ltac:(right; left; reflexivity))
    as (c1 & Hc1 & Hkeys).
  exists c1. split; [exact Hc1|]. split.
  - apply (Hkeys _ (mkIndexOptions "user_phone" true)). left. reflexivity.
  - apply (Hkeys _ (mkIndexOptions "user_active_userType" false)). right. left. reflexivity.
Defined.

End IndexedProps.

(** ** The aggregation pipeline *)

Module AggregationProps.
Import Js JSON ServiceAggregation JsProps RoundTripProps.

Lemma prop_get_when_given (filters : list (string * Json)) (name k k' : string)
    (value : Json -> Json) (object : list (string * Json)) :
  k <> k' ->
  prop_get (when_given filters name (fun v => obj_set k (value v)) object) k'
  = prop_get object k'.
Proof.
  intros Hne. unfold when_given. destruct (prop_get filters name) as [v|]; [|reflexivity].
  destruct (truthy v); [|reflexivity]. rewrite prop_get_obj_set.
  apply String.eqb_neq in Hne. now rewrite Hne.
Qed.

(** Whatever the filters, the match on them asks for active services. *)
Lemma matchStage_active (parseFloat : Json -> Json) (filters : list (string * Json)) :
  prop_get (matchStage parseFloat filters) "isActive" = Some (JBool true).
Proof.
  unfold matchStage. cbv zeta. rewrite !prop_get_when_given by discriminate.
  destruct (given filters "minPrice" || given filters "maxPrice").
  - rewrite prop_get_obj_set. cbn [String.eqb Ascii.eqb Bool.eqb].
    now rewrite (prop_get_when_given filters "category" "category" "isActive" id)
      by discriminate.
  - now rewrite (prop_get_when_given filters "category" "category" "isActive" id)
      by discriminate.
Qed.

(** X29.  The pipeline is the match on the filters, the lookup of the
    providers and the sort, in that order; with a search text, the [$text]
    match on that text is put before them, as the first stage, and the text
    score is added as a field after the match on the filters. Whatever the
    filters, the match on them asks for active services. *)
Theorem pipeline_stages (parseFloat : Json -> Json) (filters : list (string * Json)) :
  buildServiceAggregation parseFloat filters
  = (let stages :=
       [ JObj [("$match", JObj (matchStage parseFloat filters))];
         lookupStage;
         JObj [("$sort", JObj (sortStage filters))] ] in
     match prop_get filters "search" with
     | Some search =>
         if truthy search then
           [ JObj [("$match", JObj [("$text", JObj [("$search", search)])])];
             JObj [("$match", JObj (matchStage parseFloat filters))];
             JObj [("$addFields", JObj [("searchScore", textScore)])];
             lookupStage;
             JObj [("$sort", JObj (sortStage filters))] ]
         else stages
     | None => stages
     end)
  /\ prop_get (matchStage parseFloat filters) "isActive" = Some (JBool true).
Proof.
  split; [|apply matchStage_active].
  unfold buildServiceAggregation, when_given. cbv zeta.
  destruct (prop_get filters "search") as [search|]; [|reflexivity].
  destruct (truthy search); reflexivity.
Qed.

(** The name the pipeline sorts by, and the direction. *)
Definition sort_name (filters : list (string * Json)) : string :=
  match prop_get filters "sortBy" with
  | Some v => if truthy v then to_string v else "createdAt"
  | None => "createdAt"
  end.

Definition ascending (filters : list (string * Json)) : bool :=
  match prop_get filters "sortOrder" with
  | Some (JStr order) => String.eqb order "asc"
  | _ => false
  end.

(** X30.  The sort is by [sortBy], or by [createdAt] when none is given,
    descending unless [sortOrder] is the string [asc]; with a search text
    the text score comes before it as the first sort key.  This provided the
    name sorted by is not [searchScore] itself, whose entry it would
    replace, and is not an array index, which would be enumerated first.  A
    [sortBy] of [__proto__] adds no sort key: the assignment goes to the
    accessor of the prototype. *)
Theorem sortStage_keys (filters : list (string * Json)) :
  sort_name filters <> "searchScore" ->
  array_index (sort_name filters) = None ->
  sortStage filters
  = ((if given filters "search" then [("searchScore", textScore)] else [])
     ++ (if String.eqb (sort_name filters) "__proto__" then []
         else [(sort_name filters, JNum (if ascending filters then 1 else -1))]))%list.
Proof.
  intros Hname Hindex. unfold sortStage. cbv zeta.
  assert (Hkey : to_string match prop_get filters "sortBy" with
                           | Some v => if truthy v then v else JStr "createdAt"
                           | None => JStr "createdAt"
                           end = sort_name filters).
  { unfold sort_name. destruct (prop_get filters "sortBy") as [v|]; [|reflexivity].
    destruct (truthy v); reflexivity. }
  assert (Hdir : match prop_get filters "sortOrder" with
                 | Some (JStr order) => if String.eqb order "asc" then 1 else -1
                 | _ => -1
                 end = if ascending filters then 1 else -1).
  { unfold ascending. destruct (prop_get filters "sortOrder") as [[| | |order| |]|];
      reflexivity. }
  rewrite Hkey, Hdir. unfold assign.
  destruct (String.eqb (sort_name filters) "__proto__").
  { unfold when_given, given. destruct (prop_get filters "search") as [search|];
      [destruct (truthy search)|]; reflexivity. }
  unfold when_given, given.
  destruct (prop_get filters "search") as [search|].
  - destruct (truthy search).
    + unfold obj_set at 2. cbn [has_key existsb array_index app].
      change (array_index "searchScore") with (@None N). cbn [app].
      unfold obj_set. cbn [has_key existsb fst].
      destruct (String.eqb_spec "searchScore" (sort_name filters)) as [Heq|_];
        [now symmetry in Heq|].
      cbn [orb]. now rewrite Hindex.
    + unfold obj_set. cbn [has_key existsb]. now rewrite Hindex.
  - unfold obj_set. cbn [has_key existsb]. now rewrite Hindex.
Qed.

Lemma sortStage_keys_witness :
  sortStage [("search", JStr "nursing"); ("sortBy", JStr "price"); ("sortOrder", JStr "asc")]
  = [("searchScore", textScore); ("price", JNum 1)]
  /\ sortStage [("sortBy", JStr "__proto__")] = [].
Proof.
  split.
  - apply (sortStage_keys
             [("search", JStr "nursing"); ("sortBy", JStr "price"); ("sortOrder", JStr "asc")]);
      [discriminate | reflexivity].
  - apply (sortStage_keys [("sortBy", JStr "__proto__")]); [discriminate | reflexivity].
Defined.

End AggregationProps.
